(** * The in-memory state store and the WebSocket fan-out of the backend

    A shallow embedding of [backend/data_store.py] (class [DataStore]),
    of the records of [backend/models.py] it stores and of
    [backend/websocket_manager.py] (class [WebSocketManager]), with the
    properties of the alarm lifecycle, the bounded histories, the
    snapshot accessors and the broadcast.

    Modelling choices.
    - Python objects that the store mutates in place and shares between
      several containers (the [AlarmData] instances: one instance sits in
      the alarm history and in the active registry) live in a heap of
      objects addressed by identity ([ref]).  Samples, status records,
      ML alerts and commands are never assigned to nor compared by the
      store; they are carried by value.
    - A [dict] is a [gmap]; a [defaultdict] is a [gmap] read through
      [defaultdict_getitem], which inserts the factory's value for a
      missing key.  A [deque(maxlen=n)] is its items with its bound.
    - The store's own dicts, lists and deques are kept by value, since the
      store hands none of them out.  Module [Py] models the snapshot
      accessors once more on a heap where the containers have an identity
      too, to state what a caller can and cannot reach through a returned
      value.
    - [datetime] values are points on an integer time line (microseconds);
      the reading of [datetime.utcnow()] is an argument of the operation
      that takes it.
    - [float] channel values are carried as rationals: the store performs
      no arithmetic on them in the operations modelled here.
    - A raised exception is a result [Raise e]; [with self.lock] has no
      effect on a sequential run and is not represented. *)

From Stdlib Require Import ZArith QArith Lia.
From stdpp Require Import gmap strings list fin_maps functions pretty.

Local Open Scope Z_scope.

(** ** Exceptions and results *)

Inductive exn : Type :=
  | ValueError      (* deque(maxlen=n) with n < 0 *)
  | TypeError       (* an operation applied to an object of another type *)
  | SendFailure.    (* any Exception raised by send_text / json.dumps *)

Inductive result (A : Type) : Type :=
  | Ok (a : A)
  | Raise (e : exn).
Arguments Ok {A} a.
Arguments Raise {A} e.

Definition rbind {A B} (r : result A) (k : A → result B) : result B :=
  match r with
  | Ok a => k a
  | Raise e => Raise e
  end.

Notation "'letr' x := c 'in' k" := (rbind c (λ x, k))
  (at level 10, x name, c at level 100, k at level 200, only parsing).
Notation "'letr' ' pat := c 'in' k" := (rbind c (λ pat, k))
  (at level 10, pat pattern, c at level 100, k at level 200, only parsing).

Definition returns {A} (r : result A) : Prop := ∃ a, r = Ok a.

(** ** models.py *)

Definition datetime := Z.
Definition float := Q.

Inductive MachineStatus := RUNNING | IDLE | MAINTENANCE | ERROR | OFFLINE.
Inductive AlarmSeverity := LOW | MEDIUM | HIGH | CRITICAL | WARNING.
Inductive AlertType :=
  | FAULT_PREDICTION | ANOMALY_DETECTION | PERFORMANCE_DEGRADATION
  | MAINTENANCE_REQUIRED | SENSOR_DRIFT | VALVE_WEAR.

Global Instance AlarmSeverity_eq_dec : EqDecision AlarmSeverity.
Proof. solve_decision. Defined.

Module ProcessData.
Record t := mk {
  machine_id : string;
  timestamp : datetime;
  temperature : float;
  pressure : float;
  flow_rate : float;
  motor_speed : float;
  vibration : float;
  power_consumption : float;
  additional_params : list (string * string);
}.
End ProcessData.

Module AlarmData.
Record t := mk {
  machine_id : string;
  timestamp : datetime;
  alarm_id : string;
  severity : AlarmSeverity;
  message : string;
  acknowledged : bool;
  acknowledged_by : option string;
  acknowledged_at : option datetime;
  resolved : bool;
  resolved_at : option datetime;
  category : option string;
  source : option string;
}.

(** [BaseModel.__eq__] compares the field values. *)
Global Instance eq_dec : EqDecision t.
Proof. solve_decision. Defined.

(** Attribute assignments made by the store. *)
Definition set_acknowledgment (a : t) (by_ : string) (at_ : datetime) : t :=
  mk (machine_id a) (timestamp a) (alarm_id a) (severity a) (message a)
     true (Some by_) (Some at_)
     (resolved a) (resolved_at a) (category a) (source a).

Definition set_resolution (a : t) (at_ : datetime) : t :=
  mk (machine_id a) (timestamp a) (alarm_id a) (severity a) (message a)
     (acknowledged a) (acknowledged_by a) (acknowledged_at a)
     true (Some at_) (category a) (source a).
End AlarmData.

Module StatusData.
Record t := mk {
  machine_id : string;
  timestamp : datetime;
  status : MachineStatus;
  health_score : float;
  uptime_percentage : float;
  last_maintenance : option datetime;
  next_maintenance : option datetime;
  operating_hours : option float;
  cycle_count : option Z;
  efficiency : option float;
  availability : option float;
}.
End StatusData.

Module ControlCommand.
Record t := mk {
  machine_id : string;
  command : string;
  parameters : list (string * string);
  timestamp : datetime;
  user_id : option string;
  command_id : option string;
  status : string;
  response : option string;
}.
End ControlCommand.

Module MLAlert.
Record t := mk {
  machine_id : string;
  timestamp : datetime;
  alert_type : AlertType;
  severity : AlarmSeverity;
  message : string;
  confidence : float;
  ttf_days : option float;
  mtbf_hours : option float;
  anomaly_score : option float;
  affected_components : list string;
  recommended_actions : list string;
  model_version : option string;
  features_used : list (string * string);
}.
End MLAlert.

(** ** Object identity and the heap of alarm objects *)

(** A reference is the identity of a Python object; every reference
    denotes an object, so the heap is a total map.  Assigning to
    attributes of the object at [r] is [<[r:=a]> h] (function update). *)
Abbreviation ref := nat (only parsing).
Abbreviation heap := (ref → AlarmData.t) (only parsing).

(** [x is y or x == y], the comparison of [list.remove] and [in] on
    alarm objects. *)
Definition py_eqb (h : heap) (x y : ref) : bool :=
  bool_decide (x = y) || bool_decide (h x = h y).

(** [list.remove(v)] for an item comparison [eqb]: deletes the first item
    equal to [v].  (Python raises ValueError when there is none; the code
    modelled here only removes an item it has found in the list, see
    [list_remove_found], or tests [v in l] first.) *)
Fixpoint list_remove {A} (eqb : A → A → bool) (v : A) (l : list A) : list A :=
  match l with
  | [] => []
  | x :: l' => if eqb x v then l' else x :: list_remove eqb v l'
  end.

(** [for alarm in l: if alarm.alarm_id == alarm_id: ...; break/return]:
    the first item of [l] whose [alarm_id] is [aid]. *)
Fixpoint find_alarm (h : heap) (aid : string) (l : list ref) : option ref :=
  match l with
  | [] => None
  | x :: l' =>
      if bool_decide (AlarmData.alarm_id (h x) = aid) then Some x
      else find_alarm h aid l'
  end.

(** ** collections.deque(maxlen=n) *)

Record deque (A : Type) := mk_deque { items : list A; maxlen : nat }.
Arguments mk_deque {A} items maxlen.
Arguments items {A} d.
Arguments maxlen {A} d.

(** [deque(maxlen=n)]: ValueError("maxlen must be non-negative"). *)
Definition deque_new {A} (n : Z) : result (deque A) :=
  if n <? 0 then Raise ValueError else Ok (mk_deque [] (Z.to_nat n)).

(** [d.append(x)]: the item is added on the right, and when the deque
    then holds more than [maxlen] items the leftmost one is dropped. *)
Definition deque_append {A} (d : deque A) (x : A) : deque A :=
  let l := items d ++ [x] in
  mk_deque (if (maxlen d <? length l)%nat then tail l else l) (maxlen d).
Global Arguments deque_append : simpl never.

(** [deque(iterable, maxlen=n)]: the items are appended one by one to a
    new deque. *)
Definition deque_of_list {A} (l : list A) (n : Z) : result (deque A) :=
  letr d := deque_new n in Ok (foldl deque_append d l).

(** ** collections.defaultdict *)

(** [d[k]] on a defaultdict: when [k] is missing the factory is called
    and its value stored under [k] before it is returned; when the
    factory raises, nothing is stored. *)
Definition defaultdict_getitem {V} (factory : result V) (k : string)
    (d : gmap string V) : result (V * gmap string V) :=
  match d !! k with
  | Some v => Ok (v, d)
  | None => letr v := factory in Ok (v, <[k:=v]> d)
  end.

(** [l[-n:] if n else l], the slice of the history accessors.  For
    [n > 0] the slice starts [n] items before the end (at the start when
    the list is shorter); for [n < 0] it starts at index [-n]. *)
Definition slice_from {A} (start : Z) (l : list A) : list A :=
  if start <? 0 then drop (Z.to_nat (Z.of_nat (length l) + start)) l
  else drop (Z.to_nat start) l.

Definition last_limit {A} (limit : Z) (l : list A) : list A :=
  if limit =? 0 then l else slice_from (- limit) l.

(** [timedelta(hours=n)], in microseconds. *)
Definition timedelta_hours (n : Z) : Z := n * 3600000000.

(** ** data_store.py: class DataStore *)

Record DataStore := mk_DataStore {
  max_history_size : Z;
  process_data : gmap string (deque ProcessData.t);
  alarm_data : gmap string (deque ref);
  status_data : gmap string (deque StatusData.t);
  ml_alerts : gmap string (deque MLAlert.t);
  commands : gmap string (deque ControlCommand.t);
  latest_process : gmap string ProcessData.t;
  latest_status : gmap string StatusData.t;
  active_alarms : gmap string (list ref);
}.

Definition set_process_data (st : DataStore) v :=
  mk_DataStore (max_history_size st) v (alarm_data st) (status_data st)
    (ml_alerts st) (commands st) (latest_process st) (latest_status st)
    (active_alarms st).
Definition set_alarm_data (st : DataStore) v :=
  mk_DataStore (max_history_size st) (process_data st) v (status_data st)
    (ml_alerts st) (commands st) (latest_process st) (latest_status st)
    (active_alarms st).
Definition set_status_data (st : DataStore) v :=
  mk_DataStore (max_history_size st) (process_data st) (alarm_data st) v
    (ml_alerts st) (commands st) (latest_process st) (latest_status st)
    (active_alarms st).
Definition set_ml_alerts (st : DataStore) v :=
  mk_DataStore (max_history_size st) (process_data st) (alarm_data st)
    (status_data st) v (commands st) (latest_process st) (latest_status st)
    (active_alarms st).
Definition set_commands (st : DataStore) v :=
  mk_DataStore (max_history_size st) (process_data st) (alarm_data st)
    (status_data st) (ml_alerts st) v (latest_process st) (latest_status st)
    (active_alarms st).
Definition set_latest_process (st : DataStore) v :=
  mk_DataStore (max_history_size st) (process_data st) (alarm_data st)
    (status_data st) (ml_alerts st) (commands st) v (latest_status st)
    (active_alarms st).
Definition set_latest_status (st : DataStore) v :=
  mk_DataStore (max_history_size st) (process_data st) (alarm_data st)
    (status_data st) (ml_alerts st) (commands st) (latest_process st) v
    (active_alarms st).
Definition set_active_alarms (st : DataStore) v :=
  mk_DataStore (max_history_size st) (process_data st) (alarm_data st)
    (status_data st) (ml_alerts st) (commands st) (latest_process st)
    (latest_status st) v.

(** [DataStore.__init__]: every dict starts empty; the factories
    [lambda: deque(maxlen=max_history_size)] run at the first access of a
    key, not here. *)
Definition init (max_history_size : Z) : DataStore :=
  mk_DataStore max_history_size ∅ ∅ ∅ ∅ ∅ ∅ ∅ ∅.

(** The factory of the five history dicts. *)
Definition history_factory {A} (st : DataStore) : result (deque A) :=
  deque_new (max_history_size st).

(** [self.active_alarms[machine_id]] (factory [list]). *)
Definition active_getitem (st : DataStore) (mid : string)
    : list ref * gmap string (list ref) :=
  match active_alarms st !! mid with
  | Some l => (l, active_alarms st)
  | None => ([], <[mid:=[]]> (active_alarms st))
  end.

Definition add_process_data (st : DataStore) (data : ProcessData.t)
    : result DataStore :=
  let mid := ProcessData.machine_id data in
  letr '(dq, pd) := defaultdict_getitem (history_factory st) mid (process_data st) in
  let st := set_process_data st (<[mid := deque_append dq data]> pd) in
  Ok (set_latest_process st (<[mid := data]> (latest_process st))).

Definition add_alarm_data (st : DataStore) (h : heap) (data : ref)
    : result DataStore :=
  let mid := AlarmData.machine_id (h data) in
  letr '(dq, ad) := defaultdict_getitem (history_factory st) mid (alarm_data st) in
  let st := set_alarm_data st (<[mid := deque_append dq data]> ad) in
  let '(l, aa) := active_getitem st mid in
  if negb (AlarmData.resolved (h data)) then
    let existing_alarm := find_alarm h (AlarmData.alarm_id (h data)) l in
    let l :=
      match existing_alarm with
      | Some e => list_remove (py_eqb h) e l
      | None => l
      end in
    Ok (set_active_alarms st (<[mid := l ++ [data]]> aa))
  else
    Ok (set_active_alarms st
          (<[mid := filter (λ alarm, AlarmData.alarm_id (h alarm)
                                     ≠ AlarmData.alarm_id (h data)) l]> aa)).

Definition add_status_data (st : DataStore) (data : StatusData.t)
    : result DataStore :=
  let mid := StatusData.machine_id data in
  letr '(dq, sd) := defaultdict_getitem (history_factory st) mid (status_data st) in
  let st := set_status_data st (<[mid := deque_append dq data]> sd) in
  Ok (set_latest_status st (<[mid := data]> (latest_status st))).

Definition add_ml_alert (st : DataStore) (alert : MLAlert.t)
    : result DataStore :=
  let mid := MLAlert.machine_id alert in
  letr '(dq, ml) := defaultdict_getitem (history_factory st) mid (ml_alerts st) in
  Ok (set_ml_alerts st (<[mid := deque_append dq alert]> ml)).

Definition add_command (st : DataStore) (command : ControlCommand.t)
    : result DataStore :=
  let mid := ControlCommand.machine_id command in
  letr '(dq, cs) := defaultdict_getitem (history_factory st) mid (commands st) in
  Ok (set_commands st (<[mid := deque_append dq command]> cs)).

(** *** Accessors.  An accessor that indexes a defaultdict returns the
    store as well: the access may have created the key. *)

Definition get_latest_process_data (st : DataStore)
    : gmap string ProcessData.t :=
  latest_process st.

Definition get_machine_process_data (st : DataStore) (mid : string)
    : option ProcessData.t :=
  latest_process st !! mid.

Definition get_process_history (st : DataStore) (mid : string) (limit : Z)
    : result (list ProcessData.t * DataStore) :=
  letr '(dq, pd) := defaultdict_getitem (history_factory st) mid (process_data st) in
  let history := items dq in
  Ok (last_limit limit history, set_process_data st pd).

Definition get_active_alarms (st : DataStore) : gmap string (list ref) :=
  active_alarms st.

Definition get_machine_alarms (st : DataStore) (mid : string)
    : list ref * DataStore :=
  let '(l, aa) := active_getitem st mid in
  (l, set_active_alarms st aa).

Definition get_alarm_history (st : DataStore) (mid : string) (limit : Z)
    : result (list ref * DataStore) :=
  letr '(dq, ad) := defaultdict_getitem (history_factory st) mid (alarm_data st) in
  let history := items dq in
  Ok (last_limit limit history, set_alarm_data st ad).

Definition recent (now : datetime) (alert : MLAlert.t) : bool :=
  bool_decide (MLAlert.timestamp alert > now - timedelta_hours 24).

Definition get_machine_ml_alerts (st : DataStore) (mid : string)
    (now : datetime) : result (list MLAlert.t * DataStore) :=
  letr '(dq, ml) := defaultdict_getitem (history_factory st) mid (ml_alerts st) in
  Ok (filter (λ a, recent now a = true) (items dq), set_ml_alerts st ml).

(** [get_machine_details] reads [self.alarm_data[machine_id]] and
    [self.ml_alerts[machine_id]] by index; only this effect on the store
    is modelled (the [MachineDetails] it builds is not). *)
Definition get_machine_details_touch (st : DataStore) (mid : string)
    : result DataStore :=
  letr '(_, ad) := defaultdict_getitem (history_factory st) mid (alarm_data st) in
  let st := set_alarm_data st ad in
  letr '(_, ml) := defaultdict_getitem (history_factory st) mid (ml_alerts st) in
  Ok (set_ml_alerts st ml).

(** *** Operator actions on alarms.  [now] is [datetime.utcnow()]. *)

Definition acknowledge_alarm (st : DataStore) (h : heap)
    (machine_id alarm_id user_id : string) (now : datetime)
    : bool * DataStore * heap :=
  let '(l, aa) := active_getitem st machine_id in
  let st := set_active_alarms st aa in
  match find_alarm h alarm_id l with
  | Some alarm =>
      (true, st, <[alarm := AlarmData.set_acknowledgment (h alarm) user_id now]> h)
  | None => (false, st, h)
  end.

Definition resolve_alarm (st : DataStore) (h : heap)
    (machine_id alarm_id user_id : string) (now : datetime)
    : bool * DataStore * heap :=
  let '(l, aa) := active_getitem st machine_id in
  let st := set_active_alarms st aa in
  match find_alarm h alarm_id l with
  | Some alarm =>
      let h := <[alarm := AlarmData.set_resolution (h alarm) now]> h in
      (true,
       set_active_alarms st (<[machine_id := list_remove (py_eqb h) alarm l]> aa),
       h)
  | None => (false, st, h)
  end.

(** [cleanup_old_data]: every ML-alert deque is replaced by
    [deque([alerts newer than the cutoff], maxlen=self.max_history_size)].
    With no key in [ml_alerts] no deque is built; otherwise the first one
    built raises when the capacity is negative, before any assignment
    (and when it does not, none of the others can). *)
Definition cleanup_old_data (st : DataStore) (now : datetime)
    (max_age_hours : Z) : result DataStore :=
  let cutoff_time := now - timedelta_hours max_age_hours in
  let rebuilt (dq : deque MLAlert.t) :=
    deque_of_list (filter (λ alert, MLAlert.timestamp alert > cutoff_time)
                     (items dq))
      (max_history_size st) in
  if bool_decide (ml_alerts st = ∅) then Ok st
  else
    letr empty := deque_new (max_history_size st) in
    Ok (set_ml_alerts st
          ((λ dq, match rebuilt dq with
                  | Ok dq' => dq'
                  | Raise _ => empty
                  end) <$> ml_alerts st)).

(** ** Runs of the store *)

(** The state of a run: the store and the heap of alarm objects. *)
Abbreviation world := (DataStore * (ref → AlarmData.t))%type (only parsing).

(** The public operations that can change the store or the heap.  (The
    accessors built on [dict.get], [dict.copy] and [items()] change
    neither.) *)
Inductive op : Type :=
  | AddProcessData (data : ProcessData.t)
  | AddAlarmData (data : ref)
  | AddStatusData (data : StatusData.t)
  | AddMlAlert (alert : MLAlert.t)
  | AddCommand (command : ControlCommand.t)
  | GetProcessHistory (machine_id : string) (limit : Z)
  | GetMachineAlarms (machine_id : string)
  | GetAlarmHistory (machine_id : string) (limit : Z)
  | GetMachineMlAlerts (machine_id : string) (now : datetime)
  | GetMachineDetails (machine_id : string)
  | AcknowledgeAlarm (machine_id alarm_id user_id : string) (now : datetime)
  | ResolveAlarm (machine_id alarm_id user_id : string) (now : datetime)
  | CleanupOldData (now : datetime) (max_age_hours : Z).

Definition exec (o : op) (w : world) : result world :=
  let '(st, h) := w in
  match o with
  | AddProcessData d => letr st' := add_process_data st d in Ok (st', h)
  | AddAlarmData r => letr st' := add_alarm_data st h r in Ok (st', h)
  | AddStatusData d => letr st' := add_status_data st d in Ok (st', h)
  | AddMlAlert a => letr st' := add_ml_alert st a in Ok (st', h)
  | AddCommand c => letr st' := add_command st c in Ok (st', h)
  | GetProcessHistory m n =>
      letr r := get_process_history st m n in Ok (r.2, h)
  | GetMachineAlarms m => Ok ((get_machine_alarms st m).2, h)
  | GetAlarmHistory m n =>
      letr r := get_alarm_history st m n in Ok (r.2, h)
  | GetMachineMlAlerts m now =>
      letr r := get_machine_ml_alerts st m now in Ok (r.2, h)
  | GetMachineDetails m =>
      letr st' := get_machine_details_touch st m in Ok (st', h)
  | AcknowledgeAlarm m a u now =>
      let '(_, st', h') := acknowledge_alarm st h m a u now in Ok (st', h')
  | ResolveAlarm m a u now =>
      let '(_, st', h') := resolve_alarm st h m a u now in Ok (st', h')
  | CleanupOldData now hours =>
      letr st' := cleanup_old_data st now hours in Ok (st', h)
  end.

(** A call that raises has changed nothing when it raises: in every
    operation the only raising expression is the construction of a deque,
    which precedes the first assignment. *)
Definition step (w : world) (o : op) : world :=
  match exec o w with
  | Ok w' => w'
  | Raise _ => w
  end.

Definition run (ops : list op) (w : world) : world := foldl step w ops.

(** The worlds a store built by [DataStore(n)] can be in. *)
Definition reachable (n : Z) (w : world) : Prop :=
  ∃ (h0 : heap) (ops : list op), w = run ops (init n, h0).

(** *** Views of the state *)

(** The active alarms of a machine ([[]] for a machine without entry). *)
Definition active_of (st : DataStore) (mid : string) : list ref :=
  default [] (active_alarms st !! mid).

(** The items of a machine's history ([[]] without entry). *)
Definition history_of {A} (d : gmap string (deque A)) (mid : string) : list A :=
  default [] (items <$> d !! mid).

(** The items of a list whose alarm has identifier [aid]. *)
Definition with_id (h : heap) (aid : string) (l : list ref) : list ref :=
  filter (λ r, AlarmData.alarm_id (h r) = aid) l.

Definition alarm_ids (h : heap) (l : list ref) : list string :=
  (λ r, AlarmData.alarm_id (h r)) <$> l.

(** Ingestion of a sequence of alarm events, of samples. *)
Fixpoint add_alarm_events (st : DataStore) (h : heap) (events : list ref)
    : result DataStore :=
  match events with
  | [] => Ok st
  | e :: events' =>
      letr st' := add_alarm_data st h e in add_alarm_events st' h events'
  end.

Fixpoint add_process_samples (st : DataStore) (samples : list ProcessData.t)
    : result DataStore :=
  match samples with
  | [] => Ok st
  | d :: samples' =>
      letr st' := add_process_data st d in add_process_samples st' samples'
  end.

(** *** Invariants of the reachable worlds *)

(** No two active alarms of a machine share an identifier. *)
Definition unique_alarm_ids (w : world) : Prop :=
  ∀ mid l, active_alarms w.1 !! mid = Some l → NoDup (alarm_ids w.2 l).

(** Every deque has the configured bound and respects it. *)
Definition deque_ok {A} (n : Z) (d : deque A) : Prop :=
  0 ≤ n ∧ maxlen d = Z.to_nat n ∧ (length (items d) ≤ maxlen d)%nat.

Definition histories_ok (st : DataStore) : Prop :=
  let n := max_history_size st in
  map_Forall (λ _, deque_ok n) (process_data st) ∧
  map_Forall (λ _, deque_ok n) (alarm_data st) ∧
  map_Forall (λ _, deque_ok n) (status_data st) ∧
  map_Forall (λ _, deque_ok n) (ml_alerts st) ∧
  map_Forall (λ _, deque_ok n) (commands st).

(** ** websocket_manager.py: class WebSocketManager *)

Module WS.

(** A [WebSocket] is known by its identity: Starlette's connection
    classes compare and hash by identity. *)
Abbreviation WebSocket := nat (only parsing).

(** A message is a dict of strings to JSON-like values, kept as text. *)
Abbreviation message := (gmap string string) (only parsing).

Record conn_info := mk_info { connected_at : datetime; last_ping : datetime }.

Record WebSocketManager := mk_manager {
  active_connections : list WebSocket;
  connection_info : gmap nat conn_info;
}.

(** What has reached the clients: the texts sent, latest last. *)
Abbreviation wire := (list (nat * string)) (only parsing).

Definition ws_eqb (x y : WebSocket) : bool := bool_decide (x = y).

(** [try: body except Exception: handler] *)
Definition try_except {A} (body : result A) (handler : exn → result A)
    : result A :=
  match body with
  | Ok a => Ok a
  | Raise e => handler e
  end.

Definition init : WebSocketManager := mk_manager [] ∅.

Definition disconnect (self : WebSocketManager) (websocket : WebSocket)
    : WebSocketManager :=
  let conns :=
    if bool_decide (websocket ∈ active_connections self)
    then list_remove ws_eqb websocket (active_connections self)
    else active_connections self in
  mk_manager conns (delete websocket (connection_info self)).

Section Transport.
(** The outside world during one call: whether [json.dumps] accepts the
    message, and whether [accept] and [send_text] succeed on a
    connection. *)
Variable json_dumps : message → result string.
Variable accept : WebSocket → result unit.
Variable send_text : WebSocket → string → result unit.

Definition send_personal_message (self : WebSocketManager) (out : wire)
    (msg : message) (websocket : WebSocket)
    : result (WebSocketManager * wire) :=
  try_except
    (letr text := json_dumps msg in
     letr _ := send_text websocket text in
     Ok (self, out ++ [(websocket, text)]))
    (λ _, Ok (disconnect self websocket, out)).

Definition welcome_message (websocket : WebSocket) (now : datetime)
    : message :=
  {[ "type" := "connection";
     "message" := "Connected to Industrial Intelligence Platform";
     "timestamp" := pretty now;
     "connection_id" := pretty websocket ]}.

Definition connect (self : WebSocketManager) (out : wire)
    (websocket : WebSocket) (now : datetime)
    : result (WebSocketManager * wire) :=
  letr _ := accept websocket in
  let self :=
    mk_manager (active_connections self ++ [websocket])
      (<[websocket := mk_info now now]> (connection_info self)) in
  send_personal_message self out (welcome_message websocket now) websocket.

(** The state of the delivery loop of [broadcast]. *)
Record delivery := mk_delivery {
  d_info : gmap nat conn_info;
  d_out : wire;
  disconnected_connections : list WebSocket;
}.

(** One iteration of [for connection in connections_copy]. *)
Definition deliver (msg : message) (now : datetime) (s : delivery)
    (connection : WebSocket) : result delivery :=
  try_except
    (letr text := json_dumps msg in
     letr _ := send_text connection text in
     let info :=
       match d_info s !! connection with
       | Some i => <[connection := mk_info (connected_at i) now]> (d_info s)
       | None => d_info s
       end in
     Ok (mk_delivery info (d_out s ++ [(connection, text)])
           (disconnected_connections s)))
    (λ _, Ok (mk_delivery (d_info s) (d_out s)
                (disconnected_connections s ++ [connection]))).

Fixpoint deliver_all (msg : message) (now : datetime) (s : delivery)
    (connections : list WebSocket) : result delivery :=
  match connections with
  | [] => Ok s
  | c :: cs => letr s' := deliver msg now s c in deliver_all msg now s' cs
  end.

Definition broadcast (self : WebSocketManager) (out : wire)
    (msg : message) (now : datetime) : result (WebSocketManager * wire) :=
  if bool_decide (active_connections self = []) then Ok (self, out)
  else
    let connections_copy := active_connections self in
    letr s := deliver_all msg now
                (mk_delivery (connection_info self) out []) connections_copy in
    let self := mk_manager (active_connections self) (d_info s) in
    Ok (foldl disconnect self (disconnected_connections s), d_out s).

(** Whether one delivery attempt to [c] succeeds. *)
Definition delivers (msg : message) (c : WebSocket) : bool :=
  match json_dumps msg with
  | Ok text => match send_text c text with Ok _ => true | Raise _ => false end
  | Raise _ => false
  end.
(** What one broadcast puts on the wire: the text, once for each
    connection of the list whose attempt succeeds, in the list's order. *)
Definition delivered_to (msg : message) (connections : list WebSocket) : wire :=
  match json_dumps msg with
  | Ok text =>
      (λ c, (c, text)) <$> filter (λ c, delivers msg c = true) connections
  | Raise _ => []
  end.
End Transport.

(** [self.connection_info[connection]["last_ping"] = now] *)
Definition touch (now : datetime) (i : conn_info) : conn_info :=
  mk_info (connected_at i) now.

(** The scenario's transports: every connection accepts and can be
    written to, except that connection 2 is closed when [closed2]. *)
Definition dumps_ok (msg : message) : result string :=
  Ok (default "" (msg !! "type")).
Definition accept_ok (c : WebSocket) : result unit := Ok tt.
Definition send_unless_closed (closed2 : bool) (c : WebSocket) (text : string)
    : result unit :=
  if closed2 && bool_decide (c = 2%nat) then Raise SendFailure else Ok tt.

(** Three clients connect at times 1, 2 and 3. *)
Definition three_clients : result (WebSocketManager * wire) :=
  letr '(m, out) := connect dumps_ok accept_ok (send_unless_closed false)
                      init [] 1%nat 1 in
  letr '(m, out) := connect dumps_ok accept_ok (send_unless_closed false)
                      m out 2%nat 2 in
  connect dumps_ok accept_ok (send_unless_closed false) m out 3%nat 3.

End WS.

(** The new active list of the machine of an ingested alarm event. *)
Definition ingest_active (h : heap) (data : ref) (l : list ref) : list ref :=
  if negb (AlarmData.resolved (h data)) then
    match find_alarm h (AlarmData.alarm_id (h data)) l with
    | Some e => list_remove (py_eqb h) e l
    | None => l
    end ++ [data]
  else filter (λ alarm, AlarmData.alarm_id (h alarm)
                        ≠ AlarmData.alarm_id (h data)) l.

Definition inv (n : Z) (w : world) : Prop :=
  max_history_size w.1 = n ∧ histories_ok w.1 ∧ unique_alarm_ids w.

(** An alarm object of machine M1 with identifier A1. *)
Definition alarm_A1 (sev : AlarmSeverity) (msg : string) (res : bool)
    : AlarmData.t :=
  AlarmData.mk "M1" 0 "A1" sev msg false None None res None None None.

(** A heap for the examples: object 0 opens A1 as critical, object 1
    re-reports it as a warning, every other object reports it resolved. *)
Definition example_heap : heap :=
  λ r, match r with
       | O => alarm_A1 CRITICAL "overheating" false
       | S O => alarm_A1 WARNING "cooling down" false
       | _ => alarm_A1 WARNING "cooling down" true
       end.

(** A store of the examples: the heap's object 0 has been ingested. *)
Definition example_store : DataStore :=
  (run [AddAlarmData 0%nat] (init 1000, example_heap)).1.

(** *** Statements about bounded histories *)

(** No deque of a history dict holds more than [n] items. *)
Definition bounded {A} (n : Z) (d : gmap string (deque A)) : Prop :=
  ∀ m dq, d !! m = Some dq → Z.of_nat (length (items dq)) ≤ n.

(** [new] is [old] after the insertion of [x] for machine [mid] under
    capacity [n]: appended while there is room, otherwise appended with
    the oldest item dropped; the other machines keep their items. *)
Definition fifo_insert {A} (n : Z) (old new : string → list A)
    (mid : string) (x : A) : Prop :=
  new mid = (if decide (Z.of_nat (length (old mid)) < n) then old mid ++ [x]
             else drop 1 (old mid ++ [x])) ∧
  ∀ m, m ≠ mid → new m = old m.

(** The last [n] items of a list (the whole list when it is shorter). *)
Definition lastn {A} (n : nat) (l : list A) : list A :=
  drop (length l - n) l.

(** A sample of machine M1 taken at [t] with the given temperature. *)
Definition sample_M1 (temperature : float) (t : datetime) : ProcessData.t :=
  ProcessData.mk "M1" t temperature (1 # 1) (10 # 1) (1500 # 1) (1 # 2)
    (5 # 1) [].

(** The store after [self.active_alarms[mid]] has been evaluated: a
    machine without entry has gained an empty list. *)
Definition vivified (st : DataStore) (mid : string) : DataStore :=
  set_active_alarms st
    (match active_alarms st !! mid with
     | Some _ => active_alarms st
     | None => <[mid := []]> (active_alarms st)
     end).

(** "When no active alarm with that id exists, acknowledge_alarm returns
    false and changes nothing", for one call. *)
Definition acknowledge_absent_changes_nothing (st : DataStore) (h : heap)
    (machine_id alarm_id user_id : string) (now : datetime) : Prop :=
  with_id h alarm_id (active_of st machine_id) = [] →
  acknowledge_alarm st h machine_id alarm_id user_id now = (false, st, h).

(** ** The accessors, with the identity of the containers

    The model above keeps the store's dicts, lists and deques by value:
    the store hands none of them out.  That is the very point of the
    snapshot accessors, so for them the containers get an identity too.
    Every Python object (alarm, sample, list, deque, dict) is a cell of
    one heap; the store's attributes hold the locations of its dicts, a
    dict maps a key to the location of its value, a list or deque holds
    the locations of its items.  An accessor returns the location of the
    object it returns. *)

Module Py.

Inductive obj : Type :=
  | OAlarm (a : AlarmData.t)
  | OProcess (p : ProcessData.t)
  | OList (l : list nat)
  | ODeque (l : list nat) (maxlen : nat)
  | ODict (d : gmap string nat).

(** The heap: its cells and the next location to be allocated. *)
Record pyheap := mk_heap { cells : gmap nat obj; next : nat }.

Record store := mk_store {
  max_history_size : Z;
  process_data : nat;
  alarm_data : nat;
  latest_process : nat;
  active_alarms : nat;
}.

(** A new object. *)
Definition alloc (h : pyheap) (o : obj) : nat * pyheap :=
  (next h, mk_heap (<[next h := o]> (cells h)) (S (next h))).

(** A change of the object at [l]: an assignment to an attribute, an
    [append], a [del]... *)
Definition set_cell (h : pyheap) (l : nat) (o : obj) : pyheap :=
  mk_heap (<[l := o]> (cells h)) (next h).

Definition get_dict (h : pyheap) (l : nat) : result (gmap string nat) :=
  match cells h !! l with
  | Some (ODict d) => Ok d
  | _ => Raise TypeError
  end.

(** The items of a list or of a deque ([list(dq)], [l.copy()]). *)
Definition get_items (h : pyheap) (l : nat) : result (list nat) :=
  match cells h !! l with
  | Some (OList items) => Ok items
  | Some (ODeque items _) => Ok items
  | _ => Raise TypeError
  end.

(** [lambda: deque(maxlen=max_history_size)] and [list]. *)
Definition deque_factory (self : store) : result obj :=
  if max_history_size self <? 0 then Raise ValueError
  else Ok (ODeque [] (Z.to_nat (max_history_size self))).

Definition list_factory : result obj := Ok (OList []).

(** [d[k]] for the defaultdict at [root]. *)
Definition defaultdict_getitem (factory : result obj) (root : nat)
    (k : string) (h : pyheap) : result (nat * pyheap) :=
  letr d := get_dict h root in
  match d !! k with
  | Some l => Ok (l, h)
  | None =>
      letr o := factory in
      let '(l, h) := alloc h o in
      Ok (l, set_cell h root (ODict (<[k := l]> d)))
  end.

(** [self.latest_process.copy()] *)
Definition get_latest_process_data (self : store) (h : pyheap)
    : result (nat * pyheap) :=
  letr d := get_dict h (latest_process self) in
  Ok (alloc h (ODict d)).

(** [self.latest_process.get(machine_id)]: the stored object, or None. *)
Definition get_machine_process_data (self : store) (h : pyheap)
    (machine_id : string) : result (option nat * pyheap) :=
  letr d := get_dict h (latest_process self) in
  Ok (d !! machine_id, h).

(** [history = list(d[machine_id]); history[-limit:] if limit else history] *)
Definition get_history (factory : result obj) (root : nat) (h : pyheap)
    (machine_id : string) (limit : Z) : result (nat * pyheap) :=
  letr '(dq, h) := defaultdict_getitem factory root machine_id h in
  letr items := get_items h dq in
  let '(history, h) := alloc h (OList items) in
  if limit =? 0 then Ok (history, h)
  else Ok (alloc h (OList (slice_from (- limit) items))).

Definition get_process_history (self : store) (h : pyheap)
    (machine_id : string) (limit : Z) : result (nat * pyheap) :=
  get_history (deque_factory self) (process_data self) h machine_id limit.

Definition get_alarm_history (self : store) (h : pyheap)
    (machine_id : string) (limit : Z) : result (nat * pyheap) :=
  get_history (deque_factory self) (alarm_data self) h machine_id limit.

(** [{k: v.copy() for k, v in self.active_alarms.items()}] *)
Fixpoint copy_values (kvs : list (string * nat)) (h : pyheap)
    : result (list (string * nat) * pyheap) :=
  match kvs with
  | [] => Ok ([], h)
  | (k, v) :: kvs' =>
      letr items := get_items h v in
      let '(c, h) := alloc h (OList items) in
      letr '(rest, h) := copy_values kvs' h in
      Ok ((k, c) :: rest, h)
  end.

Definition get_active_alarms (self : store) (h : pyheap)
    : result (nat * pyheap) :=
  letr d := get_dict h (active_alarms self) in
  letr '(copies, h) := copy_values (map_to_list d) h in
  Ok (alloc h (ODict (list_to_map copies))).

(** [self.active_alarms[machine_id].copy()] *)
Definition get_machine_alarms (self : store) (h : pyheap)
    (machine_id : string) : result (nat * pyheap) :=
  letr '(l, h) := defaultdict_getitem list_factory (active_alarms self)
                    machine_id h in
  letr items := get_items h l in
  Ok (alloc h (OList items)).

(** *** What the store holds, read through its attributes *)

Definition read_process (h : pyheap) (l : nat) : option ProcessData.t :=
  match cells h !! l with
  | Some (OProcess p) => Some p
  | _ => None
  end.

Definition read_alarm (h : pyheap) (l : nat) : option AlarmData.t :=
  match cells h !! l with
  | Some (OAlarm a) => Some a
  | _ => None
  end.

Definition read_items {A} (rd : pyheap → nat → option A) (h : pyheap)
    (l : nat) : option (list A) :=
  match cells h !! l with
  | Some (OList items) => mapM (rd h) items
  | Some (ODeque items _) => mapM (rd h) items
  | _ => None
  end.

(** The value under key [k] of the dict at [root]: [Some None] when the
    key is missing, [None] when the heap is not shaped as expected. *)
Definition dict_at {A} (rd : pyheap → nat → option A) (h : pyheap)
    (root : nat) (k : string) : option (option A) :=
  match cells h !! root with
  | Some (ODict d) =>
      match d !! k with
      | Some l => Some <$> rd h l
      | None => Some None
      end
  | _ => None
  end.

(** The state of the store for one machine: its latest sample, its
    sample history, its alarm history and its active alarms, each with
    all its fields. *)
Record machine_state := mk_state {
  s_latest : option ProcessData.t;
  s_process : option (list ProcessData.t);
  s_alarms : option (list AlarmData.t);
  s_active : option (list AlarmData.t);
}.

Definition state_at (self : store) (h : pyheap) (k : string)
    : option machine_state :=
  a ← dict_at read_process h (latest_process self) k;
  b ← dict_at (read_items read_process) h (process_data self) k;
  c ← dict_at (read_items read_alarm) h (alarm_data self) k;
  d ← dict_at (read_items read_alarm) h (active_alarms self) k;
  Some (mk_state a b c d).

(** Locations in use are below [next]. *)
Definition heap_ok (h : pyheap) : Prop :=
  ∀ l, is_Some (cells h !! l) → (l < next h)%nat.

(** A heap that holds a store: the four dicts are four objects, and the
    state of every machine can be read. *)
Definition wf (self : store) (h : pyheap) : Prop :=
  heap_ok h ∧
  NoDup [process_data self; alarm_data self; latest_process self;
         active_alarms self] ∧
  ∀ k, is_Some (state_at self h k).

(** The empty containers that the factories of the store make. *)
Definition empty_container (o : obj) : Prop :=
  o = OList [] ∨ ∃ n, o = ODeque [] n.

Definition is_list (o : option obj) : bool :=
  match o with
  | Some (OList _) => true
  | _ => false
  end.

(** The containers that make up a returned value: the returned object
    and, when it is a dict of lists, those lists. *)
Definition containers_of (h : pyheap) (res : nat) : list nat :=
  res ::
  match cells h !! res with
  | Some (ODict d) =>
      filter (λ l, is_list (cells h !! l) = true) ((map_to_list d).*2)
  | _ => []
  end.

(** The objects a caller reaches from a returned value: the containers
    and their items. *)
Definition reachable_from (h : pyheap) (res l : nat) : Prop :=
  l ∈ containers_of h res ∨
  (∃ d k, cells h !! res = Some (ODict d) ∧ d !! k = Some l) ∨
  (∃ c items, c ∈ containers_of h res ∧ get_items h c = Ok items ∧ l ∈ items).

(** "No mutation a caller performs on a returned value can change the
    store's internal state". *)
Definition independent_copy (self : store) (h : pyheap) (res : nat) : Prop :=
  ∀ l o k, reachable_from h res l →
    state_at self (set_cell h l o) k = state_at self h k.

(** What does hold: no mutation of a container of the returned value
    changes the store's state. *)
Definition independent_containers (self : store) (h : pyheap) (res : nat)
    : Prop :=
  ∀ l o k, l ∈ containers_of h res →
    state_at self (set_cell h l o) k = state_at self h k.

(** The locations of the items the store holds for a machine in the
    list or deque under [root]. *)
Definition items_at (h : pyheap) (root : nat) (k : string) : list nat :=
  match get_dict h root with
  | Ok d =>
      match d !! k with
      | Some l => match get_items h l with Ok items => items | Raise _ => [] end
      | None => []
      end
  | Raise _ => []
  end.

(** *** Heaps that keep the cells of another *)

(** [h2] has every cell of [h] that is not a dict, unchanged. *)
Definition same_data (h h2 : pyheap) : Prop :=
  ∀ l o, cells h !! l = Some o → (∀ d, o ≠ ODict d) → cells h2 !! l = Some o.

(** [h2] has every cell of [h], unchanged. *)
Definition agree (h h2 : pyheap) : Prop :=
  ∀ l o, cells h !! l = Some o → cells h2 !! l = Some o.

Definition stable {A} (rd : pyheap → nat → option A) : Prop :=
  ∀ h h2 l v, same_data h h2 → rd h l = Some v → rd h2 l = Some v.

(** A store on a heap: M1 has one sample (cell 4) in its latest cache
    and its history (cell 6), and one alarm (cell 5) in its alarm history
    (cell 7) and among its active alarms (cell 8). *)
Definition example_store : store := mk_store 1000 0 1 2 3.

Definition example_heap : pyheap :=
  mk_heap
    (list_to_map
       [(0%nat, ODict {[ "M1" := 6%nat ]});
        (1%nat, ODict {[ "M1" := 7%nat ]});
        (2%nat, ODict {[ "M1" := 4%nat ]});
        (3%nat, ODict {[ "M1" := 8%nat ]});
        (4%nat, OProcess (sample_M1 (72 # 1) 1));
        (5%nat, OAlarm (alarm_A1 CRITICAL "overheating" false));
        (6%nat, ODeque [4%nat] 1000);
        (7%nat, ODeque [5%nat] 1000);
        (8%nat, OList [5%nat])])
    9.

End Py.

(** ** data_store.py: the derived views of the store *)

Global Instance MachineStatus_eq_dec : EqDecision MachineStatus.
Proof. solve_decision. Defined.

Module SystemStatus.
(** The integer fields of the [SystemStatus] that [get_system_status]
    builds, and its timestamp.  [average_health_score] and
    [average_uptime] are quotients of floats and are left out; the other
    fields keep the defaults of the class. *)
Record t := mk {
  timestamp : datetime;
  total_machines : nat;
  running_machines : nat;
  idle_machines : nat;
  maintenance_machines : nat;
  error_machines : nat;
  offline_machines : nat;
  total_alarms : nat;
  critical_alarms : nat;
  warning_alarms : nat;
}.
End SystemStatus.

Module MachineOverview.
Record t := mk {
  machine_id : string;
  name : string;
  type : string;
  location : string;
  status : MachineStatus;
  health_score : float;
  uptime_percentage : float;
  last_maintenance : option datetime;
  next_maintenance : option datetime;
  active_alarms : nat;
  critical_alerts : nat;
  efficiency : option float;
  availability : option float;
  last_updated : datetime;
}.
End MachineOverview.

Module MachineDetails.
(** The nested records are kept by value: whether pydantic keeps or
    copies a model instance given for a field depends on its version. *)
Record t := mk {
  machine_id : string;
  name : string;
  type : string;
  location : string;
  manufacturer : string;
  model : string;
  serial_number : string;
  installation_date : option datetime;
  status : MachineStatus;
  health_score : float;
  uptime_percentage : float;
  last_maintenance : option datetime;
  next_maintenance : option datetime;
  operating_hours : option float;
  cycle_count : option Z;
  efficiency : option float;
  availability : option float;
  specifications : gmap string string;
  current_process_data : option ProcessData.t;
  recent_alarms : list AlarmData.t;
  ml_alerts : list MLAlert.t;
  last_updated : datetime;
}.
End MachineDetails.


(** [d.get(key, default)] *)
Definition dict_get {V} (d : gmap string V) (key : string) (default_ : V) : V :=
  default default_ (d !! key).

Definition get_machine_status (st : DataStore) (mid : string)
    : option StatusData.t :=
  latest_status st !! mid.

(** [get_system_status]: the counts over [latest_status.values()] and
    over the lists of [active_alarms.values()].  A [str]-mixin enum member
    equals its value, so [alarm.severity == "critical"] holds for
    [AlarmSeverity.CRITICAL]. *)
Definition get_system_status (st : DataStore) (h : heap) (now : datetime)
    : SystemStatus.t :=
  let statuses := (map_to_list (latest_status st)).*2 in
  let count s :=
    length (filter (λ status, StatusData.status status = s) statuses) in
  let alarm_lists := (map_to_list (active_alarms st)).*2 in
  let count_severity s :=
    length (filter (λ alarm, AlarmData.severity (h alarm) = s)
              (concat alarm_lists)) in
  SystemStatus.mk now
    (size (latest_status st))
    (count RUNNING) (count IDLE) (count MAINTENANCE) (count ERROR)
    (count OFFLINE)
    (sum_list (length <$> alarm_lists))
    (count_severity CRITICAL) (count_severity WARNING).

(** [get_ml_alerts]: for every machine the alerts of the last 24 hours,
    the machines without any being left out.  (One reading [now] of the
    clock stands for the readings taken while the alerts are filtered.) *)
Definition get_ml_alerts (st : DataStore) (now : datetime)
    : gmap string (list MLAlert.t) :=
  omap (λ alerts,
          let recent_alerts := filter (λ a, recent now a = true) (items alerts) in
          match recent_alerts with
          | [] => None
          | _ => Some recent_alerts
          end)
       (ml_alerts st).



Section Details.
(** [datetime.fromisoformat], used on the installation date. *)
Variable fromisoformat : string → result datetime.

End Details.

(** *** Further invariants of the reachable worlds *)

(** The latest-value caches hold the newest item of the histories. *)
Definition latest_ok (st : DataStore) : Prop :=
  ∀ m, last (history_of (process_data st) m) = latest_process st !! m ∧
       last (history_of (status_data st) m) = latest_status st !! m.

(** Whatever is filed under a machine identifier carries it. *)
Definition keys_ok (w : world) : Prop :=
  (∀ m x, x ∈ history_of (process_data w.1) m → ProcessData.machine_id x = m) ∧
  (∀ m r, r ∈ history_of (alarm_data w.1) m → AlarmData.machine_id (w.2 r) = m) ∧
  (∀ m x, x ∈ history_of (status_data w.1) m → StatusData.machine_id x = m) ∧
  (∀ m x, x ∈ history_of (ml_alerts w.1) m → MLAlert.machine_id x = m) ∧
  (∀ m x, x ∈ history_of (commands w.1) m → ControlCommand.machine_id x = m) ∧
  (∀ m x, latest_process w.1 !! m = Some x → ProcessData.machine_id x = m) ∧
  (∀ m x, latest_status w.1 !! m = Some x → StatusData.machine_id x = m) ∧
  (∀ m r, r ∈ active_of w.1 m → AlarmData.machine_id (w.2 r) = m).

(** No active alarm is resolved. *)
Definition active_unresolved (w : world) : Prop :=
  ∀ m r, r ∈ active_of w.1 m → AlarmData.resolved (w.2 r) = false.

(** Records of machine M1 for the examples. *)
Definition status_M1 (s : MachineStatus) (t : datetime) : StatusData.t :=
  StatusData.mk "M1" t s (90 # 1) (99 # 1) None None None None None None.

Definition alert_M1 (sev : AlarmSeverity) (t : datetime) : MLAlert.t :=
  MLAlert.mk "M1" t FAULT_PREDICTION sev "bearing wear" (3 # 4)
    None None None [] [] None [].

Definition command_M1 (t : datetime) : ControlCommand.t :=
  ControlCommand.mk "M1" "stop" [] t None None "pending" None.

(** A run on a store of capacity 2 that uses every kind of record. *)
Definition busy_ops : list op :=
  [AddProcessData (sample_M1 (72 # 1) 1);
   AddProcessData (sample_M1 (75 # 1) 2);
   AddProcessData (sample_M1 (78 # 1) 3);
   AddStatusData (status_M1 RUNNING 3);
   AddAlarmData 0%nat;
   AcknowledgeAlarm "M1" "A1" "op1" 4;
   AddMlAlert (alert_M1 HIGH 5);
   AddMlAlert (alert_M1 LOW 6);
   AddCommand (command_M1 7);
   GetMachineAlarms "M2"].

Definition busy_world : DataStore * (nat → AlarmData.t) :=
  run busy_ops (init 2, example_heap).

(** A heap of unresolved alarms of machine M1: object [r] carries the
    identifier that is the decimal numeral of [r]. *)
Definition numbered_heap : nat → AlarmData.t :=
  λ r, AlarmData.mk "M1" 0 (pretty r) WARNING "vibration" false None None
         false None None None.

(** ** websocket_manager.py: the upkeep of the registry *)

(** The two containers of the manager list the same connections, each
    once. *)
Definition registry_ok (self : WS.WebSocketManager) : Prop :=
  NoDup (WS.active_connections self) ∧
  ∀ c, c ∈ WS.active_connections self ↔ is_Some (WS.connection_info self !! c).

Section Upkeep.
(** [websocket.close()], which may raise, and the test
    [(now - info["last_ping"]).total_seconds() / 60 > max_idle_minutes],
    a comparison of floats. *)
Variable close : nat → result unit.
Variable idle_longer : datetime → datetime → Z → bool.

(** The connections that [cleanup_stale_connections] collects.  The
    order of [map_to_list] stands for the order of the dict. *)
Definition stale_connections (self : WS.WebSocketManager) (now : datetime)
    (max_idle_minutes : Z) : list nat :=
  (filter (λ kv, idle_longer now (WS.last_ping kv.2) max_idle_minutes = true)
     (map_to_list (WS.connection_info self))).*1.

(** [cleanup_stale_connections]; [closed] lists the connections whose
    [close()] has returned. *)
Definition cleanup_stale_connections (self : WS.WebSocketManager)
    (closed : list nat) (now : datetime) (max_idle_minutes : Z)
    : WS.WebSocketManager * list nat :=
  foldl (λ s websocket,
           let closed :=
             match close websocket with
             | Ok _ => s.2 ++ [websocket]
             | Raise _ => s.2
             end in
           (WS.disconnect s.1 websocket, closed))
        (self, closed) (stale_connections self now max_idle_minutes).
End Upkeep.

(** A manager with the connections 1, 2 and 3, registered at the times
    1, 2 and 3; connection 2 was last written to at time 50. *)
Definition three_registered : WS.WebSocketManager :=
  WS.mk_manager [1; 2; 3]%nat
    (list_to_map [(1%nat, WS.mk_info 1 1); (2%nat, WS.mk_info 2 50);
                  (3%nat, WS.mk_info 3 3)]).

(** Exact arithmetic on microseconds in place of the float test. *)
Definition idle_minutes_exceed (now last_ping : datetime) (max_idle_minutes : Z)
    : bool :=
  bool_decide (now - last_ping > max_idle_minutes * 60000000).

(** Whether a call has returned. *)
Definition is_Ok {A} (r : result A) : bool :=
  match r with Ok _ => true | Raise _ => false end.

(** "acknowledge then resolve removes the alarm from the active set, while
    the archived record of that alarm in the machine's alarm history
    retains the acknowledged_by and resolved_at values set by those two
    operations", for one pair of calls. *)
Definition archived_record_retains (st : DataStore) (h : heap)
    (machine_id alarm_id actor : string) (t1 t2 : datetime) : Prop :=
  let w1 := acknowledge_alarm st h machine_id alarm_id actor t1 in
  let w2 := resolve_alarm w1.1.2 w1.2 machine_id alarm_id actor t2 in
  with_id w2.2 alarm_id (active_of w2.1.2 machine_id) = [] ∧
  ∃ r, r ∈ history_of (alarm_data w2.1.2) machine_id ∧
       AlarmData.alarm_id (w2.2 r) = alarm_id ∧
       AlarmData.acknowledged_by (w2.2 r) = Some actor ∧
       AlarmData.resolved_at (w2.2 r) = Some t2.

(** A store of capacity 1 that has ingested the alarms "0" and "1" of
    machine M1: both are active, the history holds the second only. *)
Definition overflowed_world : DataStore * (nat → AlarmData.t) :=
  run [AddAlarmData 0%nat; AddAlarmData 1%nat] (init 1, numbered_heap).

(** As long as the alarm history of a machine has not filled up, it
    holds every active alarm of the machine. *)
Definition active_archived (n : Z) (w : DataStore * (nat → AlarmData.t))
    : Prop :=
  ∀ m r, (length (history_of (alarm_data w.1) m) < Z.to_nat n)%nat →
         r ∈ active_of w.1 m → r ∈ history_of (alarm_data w.1) m.

(* ===================================================================== *)
(** * Properties *)
(* ===================================================================== *)

(** ** Lists: search and removal *)

Lemma find_alarm_Some (h : heap) aid (l : list ref) r :
  find_alarm h aid l = Some r →
  ∃ l1 l2, l = l1 ++ r :: l2 ∧ AlarmData.alarm_id (h r) = aid ∧
           Forall (λ x, AlarmData.alarm_id (h x) ≠ aid) l1.
Proof.
  induction l as [|x l IH]; simpl; [done|].
  case_bool_decide as Hx.
  - intros [= ->]. by exists [], l.
  - intros Hf. destruct (IH Hf) as (l1 & l2 & -> & Hr & Hall).
    exists (x :: l1), l2. split_and!; [done..|by constructor].
Qed.

Lemma find_alarm_None (h : heap) aid (l : list ref) :
  find_alarm h aid l = None ↔ with_id h aid l = [].
Proof.
  unfold with_id. induction l as [|x l IH]; simpl; [done|].
  rewrite filter_cons. case_bool_decide as Hx.
  - rewrite decide_True by done. split; discriminate.
  - by rewrite decide_False.
Qed.

Lemma find_alarm_ext (h h' : heap) aid (l : list ref) :
  (∀ r, AlarmData.alarm_id (h' r) = AlarmData.alarm_id (h r)) →
  find_alarm h' aid l = find_alarm h aid l.
Proof.
  intros Hid. induction l as [|x l IH]; simpl; [done|].
  by rewrite Hid, IH.
Qed.

(** [list.remove] of an item found by [find_alarm] deletes that very
    occurrence: an earlier item has another [alarm_id], hence is neither
    the same object nor an equal one. *)
Lemma list_remove_found (h : heap) (l1 l2 : list ref) r :
  Forall (λ x, AlarmData.alarm_id (h x) ≠ AlarmData.alarm_id (h r)) l1 →
  list_remove (py_eqb h) r (l1 ++ r :: l2) = l1 ++ l2.
Proof.
  induction 1 as [|x l1 Hx _ IH]; simpl.
  - unfold py_eqb. by rewrite bool_decide_eq_true_2.
  - unfold py_eqb at 1.
    rewrite (bool_decide_eq_false_2 (x = r)) by (intros ->; done).
    rewrite (bool_decide_eq_false_2 (h x = h r)) by (intros Heq; apply Hx; by rewrite Heq).
    simpl. by rewrite IH.
Qed.

Lemma with_id_app (h : heap) aid (l1 l2 : list ref) :
  with_id h aid (l1 ++ l2) = with_id h aid l1 ++ with_id h aid l2.
Proof. apply filter_app. Qed.

Lemma with_id_nil_Forall (h : heap) aid (l : list ref) :
  Forall (λ x, AlarmData.alarm_id (h x) ≠ aid) l → with_id h aid l = [].
Proof.
  unfold with_id. induction 1 as [|x l Hx _ IH]; [done|].
  rewrite filter_cons. by rewrite decide_False.
Qed.

Lemma with_id_other (h : heap) aid (l : list ref) :
  with_id h aid (filter (λ x, AlarmData.alarm_id (h x) ≠ aid) l) = [].
Proof.
  apply with_id_nil_Forall, Forall_forall. intros x Hx.
  by apply list_elem_of_filter in Hx as [? _].
Qed.

Lemma NoDup_alarm_ids_with_id (h : heap) aid (l1 l2 : list ref) r :
  NoDup (alarm_ids h (l1 ++ r :: l2)) → AlarmData.alarm_id (h r) = aid →
  with_id h aid l1 = [] ∧ with_id h aid l2 = [].
Proof.
  unfold alarm_ids. rewrite fmap_app, fmap_cons.
  intros Hnd Hr. apply NoDup_app in Hnd as (_ & Hdis & Hnd2).
  apply NoDup_cons in Hnd2 as [Hnot _].
  split; apply with_id_nil_Forall, Forall_forall; intros x Hx Heq.
  - apply (Hdis (AlarmData.alarm_id (h x))).
    + apply list_elem_of_fmap. by exists x.
    + rewrite Heq, <- Hr. left.
  - apply Hnot. rewrite Hr, <- Heq. apply list_elem_of_fmap. by exists x.
Qed.

Lemma filter_other_id_all (h : heap) aid (l : list ref) :
  with_id h aid l = [] → filter (λ x, AlarmData.alarm_id (h x) ≠ aid) l = l.
Proof.
  unfold with_id. induction l as [|x l IH]; [done|].
  rewrite !filter_cons. destruct (decide (AlarmData.alarm_id (h x) = aid)).
  - discriminate.
  - rewrite decide_True by done. intros Hl. by rewrite IH.
Qed.

(** With distinct identifiers, "find the alarm, remove it" is the same
    list as "keep the alarms with another identifier". *)
Lemma remove_existing_filter (h : heap) aid (l : list ref) :
  NoDup (alarm_ids h l) →
  match find_alarm h aid l with
  | Some e => list_remove (py_eqb h) e l
  | None => l
  end = filter (λ x, AlarmData.alarm_id (h x) ≠ aid) l.
Proof.
  intros Hnd. destruct (find_alarm h aid l) as [e|] eqn:Hf.
  - apply find_alarm_Some in Hf as (l1 & l2 & -> & He & Hall).
    rewrite list_remove_found by by rewrite He.
    destruct (NoDup_alarm_ids_with_id _ _ _ _ _ Hnd He) as [H1 H2].
    rewrite filter_app, filter_cons, decide_False by (intros Hne; by apply Hne).
    by rewrite !filter_other_id_all.
  - apply find_alarm_None in Hf. by rewrite filter_other_id_all.
Qed.

(** ** The store operations, field by field *)

Lemma active_getitem_spec st mid :
  (active_getitem st mid).1 = active_of st mid ∧
  ∀ l, <[mid := l]> (active_getitem st mid).2 = <[mid := l]> (active_alarms st).
Proof.
  unfold active_getitem, active_of.
  destruct (active_alarms st !! mid); simpl; split; try done.
  intros l. apply insert_insert_eq.
Qed.

Lemma active_getitem_lookup st mid :
  (active_getitem st mid).2 !! mid = Some (active_of st mid) ∧
  ∀ m, m ≠ mid → (active_getitem st mid).2 !! m = active_alarms st !! m.
Proof.
  unfold active_getitem, active_of.
  destruct (active_alarms st !! mid) eqn:Hl; simpl; split; try done.
  - apply lookup_insert_eq.
  - intros m Hm. by apply lookup_insert_ne.
Qed.

Lemma active_of_insert st mid l m :
  active_of (set_active_alarms st (<[mid := l]> (active_alarms st))) m
  = if decide (mid = m) then l else active_of st m.
Proof.
  unfold active_of; simpl. rewrite lookup_insert. by case_decide.
Qed.

Lemma defaultdict_getitem_history {A} st mid (d : gmap string (deque A)) :
  0 ≤ max_history_size st →
  ∃ dq, defaultdict_getitem (history_factory st) mid d
        = Ok (dq, match d !! mid with Some _ => d | None => <[mid := dq]> d end)
      ∧ dq = default (mk_deque [] (Z.to_nat (max_history_size st))) (d !! mid).
Proof.
  intros Hn. unfold defaultdict_getitem, history_factory, deque_new.
  destruct (d !! mid) as [dq|]; simpl; [by eexists|].
  destruct (Z.ltb_spec (max_history_size st) 0); [lia|]. simpl. by eexists.
Qed.

Lemma add_alarm_data_Ok st h data st' :
  add_alarm_data st h data = Ok st' →
  let mid := AlarmData.machine_id (h data) in
  max_history_size st' = max_history_size st ∧
  process_data st' = process_data st ∧
  status_data st' = status_data st ∧
  ml_alerts st' = ml_alerts st ∧
  commands st' = commands st ∧
  latest_process st' = latest_process st ∧
  latest_status st' = latest_status st ∧
  active_alarms st'
    = <[mid := ingest_active h data (active_of st mid)]> (active_alarms st) ∧
  ∃ dq, defaultdict_getitem (history_factory st) mid (alarm_data st)
        = Ok (dq, match alarm_data st !! mid with
                  | Some _ => alarm_data st
                  | None => <[mid := dq]> (alarm_data st)
                  end)
      ∧ alarm_data st' = <[mid := deque_append dq data]> (alarm_data st).
Proof.
  unfold add_alarm_data. set (mid := AlarmData.machine_id (h data)). intros Hadd.
  destruct (defaultdict_getitem (history_factory st) mid (alarm_data st))
    as [[dq ad]|e] eqn:Hg; simpl in Hadd; [|done].
  set (st1 := set_alarm_data st _) in Hadd.
  destruct (active_getitem_spec st1 mid) as [Hl Haa].
  destruct (active_getitem st1 mid) as [l aa]. simpl in Hl, Haa. subst l.
  assert (Had : ad = match alarm_data st !! mid with
                     | Some _ => alarm_data st
                     | None => <[mid := dq]> (alarm_data st)
                     end ∧
                <[mid := deque_append dq data]> ad
                = <[mid := deque_append dq data]> (alarm_data st)).
  { unfold defaultdict_getitem in Hg. destruct (alarm_data st !! mid).
    - by injection Hg as -> ->.
    - destruct (history_factory st) as [v|]; simpl in Hg; [|done].
      injection Hg as -> <-. split; [done|]. apply insert_insert_eq. }
  destruct Had as [-> Had].
  assert (st' = set_active_alarms st1
                  (<[mid := ingest_active h data (active_of st mid)]> aa)) as ->.
  { unfold ingest_active. change (active_of st1 mid) with (active_of st mid) in Hadd.
    destruct (negb (AlarmData.resolved (h data))); by injection Hadd as <-. }
  do 7 (split; [done|]). split; [simpl; apply Haa|].
  exists dq. split; [reflexivity|exact Had].
Qed.

Lemma add_alarm_data_returns st h data :
  0 ≤ max_history_size st → returns (add_alarm_data st h data).
Proof.
  intros Hn. unfold add_alarm_data, returns.
  destruct (defaultdict_getitem_history st (AlarmData.machine_id (h data))
              (alarm_data st) Hn) as (dq & -> & _).
  simpl. destruct (active_getitem _ _) as [l aa].
  destruct (negb _); by eexists.
Qed.

(** ** Bounded deques *)

Lemma deque_append_items {A} (d : deque A) x :
  items (deque_append d x)
  = if decide (length (items d) < maxlen d)%nat then items d ++ [x]
    else drop 1 (items d ++ [x]).
Proof.
  unfold deque_append; simpl. rewrite length_app; simpl.
  destruct (Nat.ltb_spec (maxlen d) (length (items d) + 1)); case_decide;
    try lia; done.
Qed.

Lemma deque_append_maxlen {A} (d : deque A) x :
  maxlen (deque_append d x) = maxlen d.
Proof. done. Qed.

Lemma deque_append_length {A} (d : deque A) x :
  (length (items d) ≤ maxlen d)%nat →
  (length (items (deque_append d x)) ≤ maxlen d)%nat.
Proof.
  intros Hle. rewrite deque_append_items. case_decide.
  - rewrite length_app; simpl. lia.
  - rewrite length_drop, length_app; simpl. lia.
Qed.

Lemma deque_append_ok {A} n (d : deque A) x :
  deque_ok n d → deque_ok n (deque_append d x).
Proof.
  intros (Hn & Hm & Hl). split_and!; [done..|].
  rewrite deque_append_maxlen. by apply deque_append_length.
Qed.

Lemma deque_new_ok {A} n (d : deque A) : deque_new n = Ok d → deque_ok n d.
Proof.
  unfold deque_new. destruct (Z.ltb_spec n 0); [done|].
  intros [= <-]. split_and!; simpl; [done..|lia].
Qed.

Lemma foldl_deque_append_ok {A} n (l : list A) (d : deque A) :
  deque_ok n d → deque_ok n (foldl deque_append d l).
Proof.
  revert d. induction l as [|x l IH]; intros d Hd; simpl; [done|].
  by apply IH, deque_append_ok.
Qed.

(** [d[k]] on a history dict keeps every deque within its bound. *)
Lemma defaultdict_getitem_ok {A} n mid (d d' : gmap string (deque A)) dq :
  map_Forall (λ _, deque_ok n) d →
  defaultdict_getitem (deque_new n) mid d = Ok (dq, d') →
  deque_ok n dq ∧ map_Forall (λ _, deque_ok n) d' ∧ d' !! mid = Some dq ∧
  ∀ m, m ≠ mid → d' !! m = d !! m.
Proof.
  intros Hd. unfold defaultdict_getitem.
  destruct (d !! mid) as [dq0|] eqn:Hl.
  - intros [= <- <-]. split_and!; [by eapply Hd|done..].
  - destruct (deque_new n) as [v|] eqn:Hnew; simpl; [|done].
    intros [= <- <-]. apply deque_new_ok in Hnew.
    split_and!; [done| |apply lookup_insert_eq|].
    + by apply map_Forall_insert_2.
    + intros m Hm. by apply lookup_insert_ne.
Qed.

Lemma history_insert_ok {A} n mid (d d' : gmap string (deque A)) dq x :
  map_Forall (λ _, deque_ok n) d →
  defaultdict_getitem (deque_new n) mid d = Ok (dq, d') →
  map_Forall (λ _, deque_ok n) (<[mid := deque_append dq x]> d').
Proof.
  intros Hd Hg.
  destruct (defaultdict_getitem_ok _ _ _ _ _ Hd Hg) as (Hdq & Hd' & _).
  apply map_Forall_insert_2; [by apply deque_append_ok|done].
Qed.

(** ** The invariants hold in every reachable world *)

Ltac open_getitem H :=
  match type of H with
  | rbind (defaultdict_getitem ?f ?k ?d) _ = Ok _ =>
      let dq := fresh "dq" in
      let d' := fresh "d'" in
      let Hg := fresh "Hg" in
      destruct (defaultdict_getitem f k d) as [[dq d']|] eqn:Hg;
      simpl in H; [|discriminate H]
  end.

Lemma init_inv n h : inv n (init n, h).
Proof.
  split_and!; simpl; [done| |].
  - unfold histories_ok; simpl. split_and!; apply map_Forall_empty.
  - intros mid l. simpl. by rewrite lookup_empty.
Qed.

Lemma add_process_data_inv n st h d st' :
  inv n (st, h) → add_process_data st d = Ok st' → inv n (st', h).
Proof.
  intros (Hn & (Hp & Ha & Hs & Hm & Hc) & Hu) Hadd. simpl in *.
  unfold add_process_data, history_factory in Hadd. open_getitem Hadd.
  injection Hadd as <-. split_and!; simpl; [done| |done].
  unfold histories_ok; simpl. split_and!; try done.
  by eapply history_insert_ok.
Qed.

Lemma add_status_data_inv n st h d st' :
  inv n (st, h) → add_status_data st d = Ok st' → inv n (st', h).
Proof.
  intros (Hn & (Hp & Ha & Hs & Hm & Hc) & Hu) Hadd. simpl in *.
  unfold add_status_data, history_factory in Hadd. open_getitem Hadd.
  injection Hadd as <-. split_and!; simpl; [done| |done].
  unfold histories_ok; simpl. split_and!; try done.
  by eapply history_insert_ok.
Qed.

Lemma add_ml_alert_inv n st h d st' :
  inv n (st, h) → add_ml_alert st d = Ok st' → inv n (st', h).
Proof.
  intros (Hn & (Hp & Ha & Hs & Hm & Hc) & Hu) Hadd. simpl in *.
  unfold add_ml_alert, history_factory in Hadd. open_getitem Hadd.
  injection Hadd as <-. split_and!; simpl; [done| |done].
  unfold histories_ok; simpl. split_and!; try done.
  by eapply history_insert_ok.
Qed.

Lemma add_command_inv n st h d st' :
  inv n (st, h) → add_command st d = Ok st' → inv n (st', h).
Proof.
  intros (Hn & (Hp & Ha & Hs & Hm & Hc) & Hu) Hadd. simpl in *.
  unfold add_command, history_factory in Hadd. open_getitem Hadd.
  injection Hadd as <-. split_and!; simpl; [done| |done].
  unfold histories_ok; simpl. split_and!; try done.
  by eapply history_insert_ok.
Qed.

Lemma get_history_inv n st h :
  inv n (st, h) →
  (∀ m k r, get_process_history st m k = Ok r → inv n (r.2, h)) ∧
  (∀ m k r, get_alarm_history st m k = Ok r → inv n (r.2, h)) ∧
  (∀ m k r, get_machine_ml_alerts st m k = Ok r → inv n (r.2, h)) ∧
  (∀ m st', get_machine_details_touch st m = Ok st' → inv n (st', h)).
Proof.
  intros (Hn & (Hp & Ha & Hs & Hm & Hc) & Hu). simpl in *.
  split_and!.
  - intros m k r Hget.
    unfold get_process_history, history_factory in Hget. open_getitem Hget.
    injection Hget as <-. split_and!; simpl; [done| |done].
    unfold histories_ok; simpl. split_and!; try done.
    by eapply defaultdict_getitem_ok.
  - intros m k r Hget.
    unfold get_alarm_history, history_factory in Hget. open_getitem Hget.
    injection Hget as <-. split_and!; simpl; [done| |done].
    unfold histories_ok; simpl. split_and!; try done.
    by eapply defaultdict_getitem_ok.
  - intros m k r Hget.
    unfold get_machine_ml_alerts, history_factory in Hget. open_getitem Hget.
    injection Hget as <-. split_and!; simpl; [done| |done].
    unfold histories_ok; simpl. split_and!; try done.
    by eapply defaultdict_getitem_ok.
  - intros m st' Hget.
    unfold get_machine_details_touch, history_factory in Hget.
    open_getitem Hget. simpl in Hget. open_getitem Hget.
    injection Hget as <-. split_and!; simpl; [done| |done].
    unfold histories_ok; simpl. split_and!; try done.
    + by eapply defaultdict_getitem_ok.
    + by eapply defaultdict_getitem_ok.
Qed.

Lemma cleanup_old_data_inv n st h now k st' :
  inv n (st, h) → cleanup_old_data st now k = Ok st' → inv n (st', h).
Proof.
  intros (Hn & (Hp & Ha & Hs & Hm & Hc) & Hu) Hcl. simpl in *.
  unfold cleanup_old_data in Hcl. case_bool_decide.
  { injection Hcl as <-. by split_and!. }
  destruct (deque_new (max_history_size st)) as [d0|] eqn:Hnew;
    simpl in Hcl; [|done].
  injection Hcl as <-. split_and!; simpl; [done| |done].
  unfold histories_ok; simpl. split_and!; try done.
  apply map_Forall_fmap, map_Forall_lookup. intros m dq _. simpl.
  unfold deque_of_list. rewrite Hn, Hnew in *. simpl.
  apply foldl_deque_append_ok. by apply deque_new_ok in Hnew.
Qed.

Lemma alarm_ids_ext (h h' : heap) (l : list ref) :
  (∀ r, AlarmData.alarm_id (h' r) = AlarmData.alarm_id (h r)) →
  alarm_ids h' l = alarm_ids h l.
Proof. intros Hid. unfold alarm_ids. apply list_fmap_ext. intros _ x _. apply Hid. Qed.

Lemma alarm_ids_filter_NoDup (h : heap) (P : ref → Prop)
    `{∀ x, Decision (P x)} (l : list ref) :
  NoDup (alarm_ids h l) → NoDup (alarm_ids h (filter P l)).
Proof.
  unfold alarm_ids. induction l as [|x l IH]; [done|].
  rewrite fmap_cons, NoDup_cons. intros [Hx Hl].
  rewrite filter_cons. case_decide; [|by apply IH].
  rewrite fmap_cons. apply NoDup_cons. split; [|by apply IH].
  intros Hin. apply Hx. apply list_elem_of_fmap in Hin as (y & Hy & Hin).
  apply list_elem_of_filter in Hin as [_ Hin].
  apply list_elem_of_fmap. by exists y.
Qed.

Lemma ingest_active_unique (h : heap) data (l : list ref) :
  NoDup (alarm_ids h l) →
  ingest_active h data l
  = filter (λ x, AlarmData.alarm_id (h x) ≠ AlarmData.alarm_id (h data)) l
    ++ (if AlarmData.resolved (h data) then [] else [data]).
Proof.
  intros Hnd. unfold ingest_active.
  destruct (AlarmData.resolved (h data)); simpl.
  - by rewrite app_nil_r.
  - by rewrite remove_existing_filter.
Qed.

Lemma ingest_active_NoDup (h : heap) data (l : list ref) :
  NoDup (alarm_ids h l) → NoDup (alarm_ids h (ingest_active h data l)).
Proof.
  intros Hnd. rewrite ingest_active_unique by done.
  destruct (AlarmData.resolved (h data)).
  - rewrite app_nil_r. by apply alarm_ids_filter_NoDup.
  - unfold alarm_ids. rewrite fmap_app. apply NoDup_app. split_and!.
    + by apply (alarm_ids_filter_NoDup h).
    + intros a Ha Hin. simpl in Hin. apply list_elem_of_singleton in Hin.
      apply list_elem_of_fmap in Ha as (y & -> & Hy).
      by apply list_elem_of_filter in Hy as [Hy _].
    + simpl. apply NoDup_singleton.
Qed.

Lemma active_of_NoDup w mid :
  unique_alarm_ids w → NoDup (alarm_ids w.2 (active_of w.1 mid)).
Proof.
  intros Hu. unfold active_of.
  destruct (active_alarms w.1 !! mid) as [l|] eqn:Hl; simpl.
  - by eapply Hu.
  - constructor.
Qed.

Lemma add_alarm_data_inv n st h data st' :
  inv n (st, h) → add_alarm_data st h data = Ok st' → inv n (st', h).
Proof.
  intros (Hn & (Hp & Ha & Hs & Hm & Hc) & Hu) Hadd. simpl in *.
  apply add_alarm_data_Ok in Hadd
    as (E1 & E2 & E3 & E4 & E5 & E6 & E7 & E8 & dq & Hg & E9).
  split_and!; simpl; [congruence| |].
  - unfold histories_ok. rewrite E1, E2, E3, E4, E5, E9.
    split_and!; try done.
    unfold history_factory in Hg. rewrite Hn in *.
    destruct (defaultdict_getitem_ok _ _ _ _ _ Ha Hg) as (Hdq & _).
    apply map_Forall_insert_2; [by apply deque_append_ok|done].
  - intros mid l. simpl. rewrite E8, lookup_insert. case_decide.
    + intros [= <-]. apply ingest_active_NoDup.
      apply (active_of_NoDup (st, h)), Hu.
    + apply Hu.
Qed.

Lemma get_machine_alarms_spec st mid :
  (get_machine_alarms st mid).1 = active_of st mid ∧
  active_alarms (get_machine_alarms st mid).2 !! mid = Some (active_of st mid) ∧
  (∀ m, active_of (get_machine_alarms st mid).2 m = active_of st m) ∧
  (∀ m, m ≠ mid →
     active_alarms (get_machine_alarms st mid).2 !! m = active_alarms st !! m).
Proof.
  unfold get_machine_alarms.
  destruct (active_getitem_spec st mid) as [Hl _].
  destruct (active_getitem_lookup st mid) as [Hm Ho].
  destruct (active_getitem st mid) as [l aa]; simpl in *. subst l.
  split_and!; [done..| |done].
  intros m. unfold active_of at 1; simpl.
  destruct (decide (m = mid)) as [->|Hne]; [by rewrite Hm|].
  by rewrite Ho.
Qed.

Lemma unique_alarm_ids_getitem st h mid :
  unique_alarm_ids (st, h) →
  unique_alarm_ids (set_active_alarms st (active_getitem st mid).2, h).
Proof.
  intros Hu m l; simpl.
  destruct (active_getitem_lookup st mid) as [Hm Ho].
  destruct (decide (m = mid)) as [->|Hne].
  - rewrite Hm. intros [= <-]. apply (active_of_NoDup (st, h)), Hu.
  - rewrite Ho by done. apply Hu.
Qed.

(** ** Acknowledge and resolve *)

Lemma acknowledge_alarm_eq st h m a u now :
  acknowledge_alarm st h m a u now
  = match find_alarm h a (active_of st m) with
    | Some r =>
        (true, (get_machine_alarms st m).2,
         <[r := AlarmData.set_acknowledgment (h r) u now]> h)
    | None => (false, (get_machine_alarms st m).2, h)
    end.
Proof.
  unfold acknowledge_alarm, get_machine_alarms.
  destruct (active_getitem_spec st m) as [Hl _].
  destruct (active_getitem st m) as [l aa]; simpl in *. by subst l.
Qed.

Lemma resolve_alarm_eq st h m a u now :
  resolve_alarm st h m a u now
  = match find_alarm h a (active_of st m) with
    | Some r =>
        let h' := <[r := AlarmData.set_resolution (h r) now]> h in
        (true,
         set_active_alarms st
           (<[m := list_remove (py_eqb h') r (active_of st m)]> (active_alarms st)),
         h')
    | None => (false, (get_machine_alarms st m).2, h)
    end.
Proof.
  unfold resolve_alarm, get_machine_alarms.
  destruct (active_getitem_spec st m) as [Hl Haa].
  destruct (active_getitem st m) as [l aa]; simpl in *. subst l.
  destruct (find_alarm h a (active_of st m)); [|done].
  simpl. by rewrite Haa.
Qed.

Lemma set_acknowledgment_id (h : heap) r u now x :
  AlarmData.alarm_id ((<[r := AlarmData.set_acknowledgment (h r) u now]> h) x)
  = AlarmData.alarm_id (h x).
Proof.
  destruct (decide (r = x)) as [->|Hne].
  - by rewrite fn_lookup_insert.
  - by rewrite fn_lookup_insert_ne.
Qed.

Lemma set_resolution_id (h : heap) r now x :
  AlarmData.alarm_id ((<[r := AlarmData.set_resolution (h r) now]> h) x)
  = AlarmData.alarm_id (h x).
Proof.
  destruct (decide (r = x)) as [->|Hne].
  - by rewrite fn_lookup_insert.
  - by rewrite fn_lookup_insert_ne.
Qed.

(** The list that [resolve_alarm] leaves: the found alarm is taken out. *)
Lemma resolve_remove (h : heap) a now (l : list ref) r :
  find_alarm h a l = Some r →
  ∃ l1 l2, l = l1 ++ r :: l2 ∧
    list_remove (py_eqb (<[r := AlarmData.set_resolution (h r) now]> h)) r l
    = l1 ++ l2.
Proof.
  intros Hf. apply find_alarm_Some in Hf as (l1 & l2 & -> & Hr & Hall).
  exists l1, l2. split; [done|]. apply list_remove_found.
  eapply Forall_impl; [exact Hall|]. intros x Hx. simpl in Hx.
  rewrite !set_resolution_id. by rewrite Hr.
Qed.

Lemma unique_alarm_ids_ext st (h h' : heap) :
  (∀ r, AlarmData.alarm_id (h' r) = AlarmData.alarm_id (h r)) →
  unique_alarm_ids (st, h) → unique_alarm_ids (st, h').
Proof.
  intros Hid Hu m l Hl; simpl in *. rewrite (alarm_ids_ext h h') by done.
  by apply (Hu m).
Qed.

Lemma get_machine_alarms_inv n st h m :
  inv n (st, h) → inv n ((get_machine_alarms st m).2, h).
Proof.
  intros (Hn & Hh & Hu). unfold get_machine_alarms.
  pose proof (unique_alarm_ids_getitem st h m Hu) as Hu'.
  destruct (active_getitem st m) as [l aa]; simpl in *.
  by split_and!.
Qed.

Lemma acknowledge_alarm_inv n st h m a u now :
  inv n (st, h) →
  inv n ((acknowledge_alarm st h m a u now).1.2,
         (acknowledge_alarm st h m a u now).2).
Proof.
  intros Hi. rewrite acknowledge_alarm_eq.
  pose proof (get_machine_alarms_inv n st h m Hi) as (Hn & Hh & Hu).
  destruct (find_alarm h a (active_of st m)) as [r|]; simpl; [|by split_and!].
  split_and!; [done..|].
  eapply unique_alarm_ids_ext; [|exact Hu]. intros x. apply set_acknowledgment_id.
Qed.

Lemma resolve_alarm_inv n st h m a u now :
  inv n (st, h) →
  inv n ((resolve_alarm st h m a u now).1.2, (resolve_alarm st h m a u now).2).
Proof.
  intros Hi. rewrite resolve_alarm_eq.
  destruct (find_alarm h a (active_of st m)) as [r|] eqn:Hf; simpl;
    [|by apply get_machine_alarms_inv].
  destruct Hi as (Hn & Hh & Hu). split_and!; [done..|].
  destruct (resolve_remove h a now _ r Hf) as (l1 & l2 & Hl & ->).
  intros m' l; simpl. rewrite lookup_insert. case_decide.
  - intros [= <-]. rewrite (alarm_ids_ext h) by apply set_resolution_id.
    pose proof (active_of_NoDup (st, h) m Hu) as Hnd. simpl in Hnd.
    rewrite Hl in Hnd. unfold alarm_ids in *.
    rewrite fmap_app in *. rewrite fmap_cons in Hnd.
    apply NoDup_app in Hnd as (H1 & H2 & H3). apply NoDup_cons in H3 as [_ H3].
    apply NoDup_app. split_and!; [done| |done].
    intros x Hx Hx2. apply (H2 x Hx). by right.
  - intros Hl'. rewrite (alarm_ids_ext h) by apply set_resolution_id.
    by apply (Hu m').
Qed.

Lemma exec_inv n o w w' : inv n w → exec o w = Ok w' → inv n w'.
Proof.
  destruct w as [st h]. intros Hi Hex.
  destruct (get_history_inv n st h Hi) as (G1 & G2 & G3 & G4).
  destruct o; simpl in Hex.
  - destruct (add_process_data st data) eqn:E; simpl in Hex; [|done].
    injection Hex as <-. by eapply add_process_data_inv.
  - destruct (add_alarm_data st h data) eqn:E; simpl in Hex; [|done].
    injection Hex as <-. by eapply add_alarm_data_inv.
  - destruct (add_status_data st data) eqn:E; simpl in Hex; [|done].
    injection Hex as <-. by eapply add_status_data_inv.
  - destruct (add_ml_alert st alert) eqn:E; simpl in Hex; [|done].
    injection Hex as <-. by eapply add_ml_alert_inv.
  - destruct (add_command st command) eqn:E; simpl in Hex; [|done].
    injection Hex as <-. by eapply add_command_inv.
  - destruct (get_process_history st machine_id limit) eqn:E; simpl in Hex; [|done].
    injection Hex as <-. by eapply G1.
  - injection Hex as <-. by apply get_machine_alarms_inv.
  - destruct (get_alarm_history st machine_id limit) eqn:E; simpl in Hex; [|done].
    injection Hex as <-. by eapply G2.
  - destruct (get_machine_ml_alerts st machine_id now) eqn:E; simpl in Hex; [|done].
    injection Hex as <-. by eapply G3.
  - destruct (get_machine_details_touch st machine_id) eqn:E; simpl in Hex; [|done].
    injection Hex as <-. by eapply G4.
  - pose proof (acknowledge_alarm_inv n st h machine_id alarm_id user_id now Hi) as Ha.
    destruct (acknowledge_alarm st h machine_id alarm_id user_id now) as [[b st1] h1].
    by injection Hex as <-.
  - pose proof (resolve_alarm_inv n st h machine_id alarm_id user_id now Hi) as Ha.
    destruct (resolve_alarm st h machine_id alarm_id user_id now) as [[b st1] h1].
    by injection Hex as <-.
  - destruct (cleanup_old_data st now max_age_hours) eqn:E; simpl in Hex; [|done].
    injection Hex as <-. by eapply cleanup_old_data_inv.
Qed.

Lemma step_inv n o w : inv n w → inv n (step w o).
Proof.
  intros Hi. unfold step. destruct (exec o w) eqn:E; [|done].
  by eapply exec_inv.
Qed.

Lemma run_inv n ops w : inv n w → inv n (run ops w).
Proof.
  unfold run. revert w. induction ops as [|o ops IH]; intros w Hi; simpl; [done|].
  by apply IH, step_inv.
Qed.

Lemma reachable_inv n w : reachable n w → inv n w.
Proof. intros (h0 & ops & ->). apply run_inv, init_inv. Qed.

(** ** The alarm lifecycle *)

Lemma with_id_length_unique (h : heap) aid (l : list ref) :
  NoDup (alarm_ids h l) → (length (with_id h aid l) ≤ 1)%nat.
Proof.
  unfold with_id, alarm_ids. induction l as [|x l IH]; simpl; [lia|].
  rewrite NoDup_cons. intros [Hx Hl]. rewrite filter_cons. case_decide as Hid.
  - assert (with_id h aid l = []) as Hnil.
    { apply with_id_nil_Forall, Forall_forall. intros y Hy Hy'.
      apply Hx. rewrite Hid, <- Hy'. apply list_elem_of_fmap. by exists y. }
    unfold with_id in Hnil. rewrite Hnil. simpl. lia.
  - by apply IH.
Qed.

(** One event: afterwards the machine's entries with the event's
    identifier are the event itself when it is open, none when it is
    resolved; the entries with other identifiers stay. *)
Lemma add_alarm_data_with_id n st h e st' :
  inv n (st, h) → add_alarm_data st h e = Ok st' →
  let mid := AlarmData.machine_id (h e) in
  with_id h (AlarmData.alarm_id (h e)) (active_of st' mid)
    = (if AlarmData.resolved (h e) then [] else [e]) ∧
  (∀ a, a ≠ AlarmData.alarm_id (h e) →
     with_id h a (active_of st' mid) = with_id h a (active_of st mid)) ∧
  (∀ m, m ≠ mid → active_of st' m = active_of st m).
Proof.
  intros (Hn & Hh & Hu) Hadd.
  apply add_alarm_data_Ok in Hadd as (_ & _ & _ & _ & _ & _ & _ & E8 & _).
  pose proof (active_of_NoDup (st, h) (AlarmData.machine_id (h e)) Hu) as Hnd.
  simpl in Hnd. rewrite (ingest_active_unique h e _ Hnd) in E8.
  assert (∀ m, active_of st' m
               = if decide (AlarmData.machine_id (h e) = m)
                 then filter (λ x, AlarmData.alarm_id (h x)
                                   ≠ AlarmData.alarm_id (h e))
                        (active_of st (AlarmData.machine_id (h e)))
                      ++ (if AlarmData.resolved (h e) then [] else [e])
                 else active_of st m) as Hact.
  { intros m. unfold active_of at 1. rewrite E8, lookup_insert.
    by case_decide. }
  split_and!.
  - rewrite Hact, decide_True by done.
    rewrite with_id_app, with_id_other. simpl.
    destruct (AlarmData.resolved (h e)); [done|].
    unfold with_id. rewrite filter_cons, decide_True by done. done.
  - intros a Ha. rewrite Hact, decide_True by done. rewrite with_id_app.
    assert (with_id h a (if AlarmData.resolved (h e) then [] else [e]) = [])
      as ->.
    { destruct (AlarmData.resolved (h e)); [done|].
      unfold with_id. by rewrite filter_cons, decide_False. }
    rewrite app_nil_r. unfold with_id. rewrite list_filter_filter.
    apply list_filter_iff. intros x. split; [by intros []|].
    intros Hx. split; [done|]. by rewrite Hx.
  - intros m Hm. rewrite Hact. by rewrite decide_False.
Qed.

Lemma add_alarm_events_with_id n st h mid aid events :
  inv n (st, h) → 0 ≤ n →
  Forall (λ e, AlarmData.machine_id (h e) = mid
               ∧ AlarmData.alarm_id (h e) = aid) events →
  ∃ st', add_alarm_events st h events = Ok st' ∧ inv n (st', h) ∧
    with_id h aid (active_of st' mid)
    = match last events with
      | Some e => if AlarmData.resolved (h e) then [] else [e]
      | None => with_id h aid (active_of st mid)
      end.
Proof.
  intros Hi Hn Hev. revert st Hi.
  induction Hev as [|e events [Hm Ha] _ IH]; intros st Hi; simpl.
  { by exists st. }
  destruct (add_alarm_data_returns st h e) as [st1 Hadd].
  { destruct Hi as (Hmax & _). simpl in Hmax. by rewrite Hmax. }
  rewrite Hadd; simpl.
  pose proof (add_alarm_data_inv n st h e st1 Hi Hadd) as Hi1.
  destruct (IH st1 Hi1) as (st' & Hrun & Hi' & Hw).
  exists st'. split_and!; [done..|]. rewrite Hw.
  destruct (add_alarm_data_with_id n st h e st1 Hi Hadd) as (Hone & _).
  rewrite Hm, Ha in Hone. rewrite last_cons.
  by destruct (last events).
Qed.

Lemma last_filter_snoc {A} (P : A → Prop) `{∀ x, Decision (P x)}
    (l : list A) e :
  last l = Some e → P e → last (filter P l) = Some e.
Proof.
  intros Hl He. apply last_Some in Hl as [l' ->].
  rewrite filter_app, filter_cons, decide_True, filter_nil by done.
  apply last_snoc.
Qed.

(** C1.  In a reachable world of a store with a non-negative capacity,
    ingesting any sequence of alarm events that share (machine_id,
    alarm_id) through [add_alarm_data] succeeds, and afterwards the
    machine's active list holds at most one entry with that alarm_id.
    After a non-empty sequence the entries with that alarm_id are exactly
    the last event when its resolved flag is false, and none when it is
    true (a resolved event removes the entry); hence an entry that is
    present is the last event received whose resolved flag was false, and
    its fields are that event's fields. *)
Theorem alarm_events_one_active_entry (n : Z) (st : DataStore) (h : heap)
    (mid aid : string) (events : list ref) :
  reachable n (st, h) → 0 ≤ n →
  Forall (λ e, AlarmData.machine_id (h e) = mid
               ∧ AlarmData.alarm_id (h e) = aid) events →
  ∃ st', add_alarm_events st h events = Ok st' ∧
    (length (with_id h aid (active_of st' mid)) ≤ 1)%nat ∧
    (∀ e, last events = Some e →
       with_id h aid (active_of st' mid)
       = if AlarmData.resolved (h e) then [] else [e]) ∧
    (∀ r, events ≠ [] → r ∈ with_id h aid (active_of st' mid) →
       last (filter (λ e, AlarmData.resolved (h e) = false) events) = Some r).
Proof.
  intros Hr Hn Hev. apply reachable_inv in Hr.
  destruct (add_alarm_events_with_id n st h mid aid events Hr Hn Hev)
    as (st' & Hrun & Hi' & Hw).
  exists st'. split_and!; [done| | |].
  - apply with_id_length_unique.
    destruct Hi' as (_ & _ & Hu). apply (active_of_NoDup (st', h) mid Hu).
  - intros e He. by rewrite Hw, He.
  - intros r Hne Hin. rewrite Hw in Hin.
    destruct (last events) as [e|] eqn:He.
    + destruct (AlarmData.resolved (h e)) eqn:Hres.
      * by apply elem_of_nil in Hin.
      * apply list_elem_of_singleton in Hin as ->.
        by apply last_filter_snoc.
    + by apply last_None in He.
Qed.

Lemma alarm_events_one_active_entry_witness :
  ∃ st', add_alarm_events (init 1000) example_heap [0; 2; 0; 1]%nat = Ok st' ∧
    (length (with_id example_heap "A1" (active_of st' "M1")) ≤ 1)%nat ∧
    (∀ e, last [0; 2; 0; 1]%nat = Some e →
       with_id example_heap "A1" (active_of st' "M1")
       = if AlarmData.resolved (example_heap e) then [] else [e]) ∧
    (∀ r, [0; 2; 0; 1]%nat ≠ [] →
       r ∈ with_id example_heap "A1" (active_of st' "M1") →
       last (filter (λ e, AlarmData.resolved (example_heap e) = false)
               [0; 2; 0; 1]%nat) = Some r).
Proof.
  apply (alarm_events_one_active_entry 1000 (init 1000) example_heap
           "M1" "A1" [0; 2; 0; 1]%nat).
  - exists example_heap, []. reflexivity.
  - lia.
  - repeat constructor.
Defined.

Lemma resolve_alarm_spec (st : DataStore) (h : heap)
    (machine_id alarm_id user_id : string) (now : datetime) :
  unique_alarm_ids (st, h) →
  let res := resolve_alarm st h machine_id alarm_id user_id now in
  (with_id h alarm_id (active_of st machine_id) = [] →
     res.1.1 = false ∧ res.2 = h ∧
     ∀ m, active_of res.1.2 m = active_of st m) ∧
  (with_id h alarm_id (active_of st machine_id) ≠ [] →
     res.1.1 = true ∧
     with_id res.2 alarm_id (active_of res.1.2 machine_id) = [] ∧
     active_of res.1.2 machine_id
       = filter (λ x, AlarmData.alarm_id (h x) ≠ alarm_id)
           (active_of st machine_id) ∧
     ∀ m, m ≠ machine_id → active_of res.1.2 m = active_of st m).
Proof.
  intros Hu res.
  subst res. rewrite resolve_alarm_eq.
  destruct (find_alarm h alarm_id (active_of st machine_id)) as [r|] eqn:Hf.
  - split.
    { intros Hnil. apply find_alarm_None in Hnil. congruence. }
    intros _. simpl.
    pose proof (active_of_NoDup (st, h) machine_id Hu) as Hnd. simpl in Hnd.
    destruct (resolve_remove h alarm_id now _ r Hf) as (l1 & l2 & Hl & Hrm).
    rewrite Hrm.
    assert (l1 ++ l2 = filter (λ x, AlarmData.alarm_id (h x) ≠ alarm_id)
                         (active_of st machine_id)) as Heq.
    { apply find_alarm_Some in Hf as (_ & _ & _ & Hid & _).
      rewrite Hl in Hnd |- *.
      destruct (NoDup_alarm_ids_with_id _ _ _ _ _ Hnd Hid) as [H1 H2].
      rewrite filter_app, filter_cons, decide_False
        by (intros Hne; by apply Hne).
      by rewrite !filter_other_id_all. }
    rewrite Heq. rewrite !active_of_insert, decide_True by done.
    split_and!; [done| |done|].
    + apply with_id_nil_Forall, Forall_forall. intros x Hx.
      apply list_elem_of_filter in Hx as [Hx _].
      by rewrite set_resolution_id.
    + intros m Hm. rewrite active_of_insert. by rewrite decide_False.
  - split.
    + intros _. simpl. split_and!; [done..|].
      intros m. apply get_machine_alarms_spec.
    + intros Hne. by apply find_alarm_None in Hf.
Qed.

(** C3.  In a reachable world, [resolve_alarm(machine_id, alarm_id,
    user_id)] returns false when the machine's active alarms hold no alarm
    with that identifier, and then the active alarms of every machine and
    every alarm object are as before; when such an alarm is present it
    returns true, the machine's active alarms hold no alarm with that
    identifier afterwards, the machine's other active alarms stay in
    order, and the other machines' are as before. *)
Theorem resolve_alarm_outcome (n : Z) (st : DataStore) (h : heap)
    (machine_id alarm_id user_id : string) (now : datetime) :
  reachable n (st, h) →
  let res := resolve_alarm st h machine_id alarm_id user_id now in
  (with_id h alarm_id (active_of st machine_id) = [] →
     res.1.1 = false ∧ res.2 = h ∧
     ∀ m, active_of res.1.2 m = active_of st m) ∧
  (with_id h alarm_id (active_of st machine_id) ≠ [] →
     res.1.1 = true ∧
     with_id res.2 alarm_id (active_of res.1.2 machine_id) = [] ∧
     active_of res.1.2 machine_id
       = filter (λ x, AlarmData.alarm_id (h x) ≠ alarm_id)
           (active_of st machine_id) ∧
     ∀ m, m ≠ machine_id → active_of res.1.2 m = active_of st m).
Proof.
  intros Hr. apply reachable_inv in Hr as (_ & _ & Hu).
  by apply resolve_alarm_spec.
Qed.

Lemma resolve_alarm_outcome_witness :
  let res := resolve_alarm example_store example_heap "M1" "A1" "op1" 5 in
  (with_id example_heap "A1" (active_of example_store "M1") = [] →
     res.1.1 = false ∧ res.2 = example_heap ∧
     ∀ m, active_of res.1.2 m = active_of example_store m) ∧
  (with_id example_heap "A1" (active_of example_store "M1") ≠ [] →
     res.1.1 = true ∧
     with_id res.2 "A1" (active_of res.1.2 "M1") = [] ∧
     active_of res.1.2 "M1"
       = filter (λ x, AlarmData.alarm_id (example_heap x) ≠ "A1")
           (active_of example_store "M1") ∧
     ∀ m, m ≠ "M1" → active_of res.1.2 m = active_of example_store m).
Proof.
  apply (resolve_alarm_outcome 1000 example_store example_heap
           "M1" "A1" "op1" 5).
  exists example_heap, [AddAlarmData 0%nat]. reflexivity.
Defined.

(** ** Bounded histories *)

Lemma bounded_ok {A} n (d : gmap string (deque A)) :
  map_Forall (λ _, deque_ok n) d → bounded n d.
Proof.
  intros Hd m dq Hm. destruct (Hd m dq Hm) as (Hn & Hmax & Hlen). lia.
Qed.

Lemma history_add_view {A} n st (d : gmap string (deque A)) mid x :
  0 ≤ n → max_history_size st = n → map_Forall (λ _, deque_ok n) d →
  ∃ dq d1, defaultdict_getitem (history_factory st) mid d = Ok (dq, d1) ∧
    fifo_insert n (history_of d)
      (history_of (<[mid := deque_append dq x]> d1)) mid x.
Proof.
  intros Hn Hmax Hd.
  destruct (defaultdict_getitem_history st mid d) as (dq & Hg & Hdq); [lia|].
  eexists _, _. split; [exact Hg|].
  assert (deque_ok n dq ∧ items dq = history_of d mid) as [(_ & Hm & Hl) Hit].
  { subst dq. unfold history_of. destruct (d !! mid) as [dq|] eqn:Hl; simpl.
    - split; [by eapply Hd|done].
    - rewrite Hmax. split; [|done]. split_and!; simpl; [done..|lia]. }
  split.
  - unfold history_of at 1. rewrite lookup_insert_eq. simpl.
    rewrite Hit, Hm, length_app. simpl.
    destruct (Nat.ltb_spec (Z.to_nat n) (length (history_of d mid) + 1));
      case_decide; try lia; done.
  - intros m Hne. unfold history_of. rewrite lookup_insert_ne by done.
    destruct (d !! mid); [done|]. by rewrite lookup_insert_ne.
Qed.

Lemma add_process_data_fifo n st h x :
  inv n (st, h) → 0 ≤ n →
  ∃ st', add_process_data st x = Ok st' ∧
    fifo_insert n (history_of (process_data st))
      (history_of (process_data st')) (ProcessData.machine_id x) x.
Proof.
  intros (Hmax & (Hp & Ha & Hs & Hm & Hc) & _) Hn. simpl in *.
  rewrite Hmax in Hp, Ha, Hs, Hm, Hc.
  destruct (history_add_view n st (process_data st)
              (ProcessData.machine_id x) x Hn Hmax Hp) as (dq & d1 & Hg & Hf).
  unfold add_process_data. rewrite Hg. simpl. by eexists.
Qed.

Lemma add_alarm_data_fifo n st h x :
  inv n (st, h) → 0 ≤ n →
  ∃ st', add_alarm_data st h x = Ok st' ∧
    fifo_insert n (history_of (alarm_data st))
      (history_of (alarm_data st')) (AlarmData.machine_id (h x)) x.
Proof.
  intros (Hmax & (Hp & Ha & Hs & Hm & Hc) & _) Hn. simpl in *.
  rewrite Hmax in Hp, Ha, Hs, Hm, Hc.
  destruct (history_add_view n st (alarm_data st)
              (AlarmData.machine_id (h x)) x Hn Hmax Ha) as (dq & d1 & Hg & Hf).
  destruct (add_alarm_data_returns st h x) as [st' Hadd]; [lia|].
  exists st'. split; [done|].
  apply add_alarm_data_Ok in Hadd
    as (_ & _ & _ & _ & _ & _ & _ & _ & dq' & Hg' & ->).
  rewrite Hg in Hg'. injection Hg' as <- Hd1.
  destruct Hf as [Hf1 Hf2]. split.
  - rewrite <- Hf1. unfold history_of. by rewrite !lookup_insert_eq.
  - intros m Hne. rewrite <- (Hf2 m Hne). unfold history_of.
    rewrite !lookup_insert_ne by done. rewrite Hd1.
    destruct (alarm_data st !! AlarmData.machine_id (h x)); [done|].
    by rewrite lookup_insert_ne.
Qed.

Lemma add_status_data_fifo n st h x :
  inv n (st, h) → 0 ≤ n →
  ∃ st', add_status_data st x = Ok st' ∧
    fifo_insert n (history_of (status_data st))
      (history_of (status_data st')) (StatusData.machine_id x) x.
Proof.
  intros (Hmax & (Hp & Ha & Hs & Hm & Hc) & _) Hn. simpl in *.
  rewrite Hmax in Hp, Ha, Hs, Hm, Hc.
  destruct (history_add_view n st (status_data st)
              (StatusData.machine_id x) x Hn Hmax Hs) as (dq & d1 & Hg & Hf).
  unfold add_status_data. rewrite Hg. simpl. by eexists.
Qed.

Lemma add_ml_alert_fifo n st h x :
  inv n (st, h) → 0 ≤ n →
  ∃ st', add_ml_alert st x = Ok st' ∧
    fifo_insert n (history_of (ml_alerts st))
      (history_of (ml_alerts st')) (MLAlert.machine_id x) x.
Proof.
  intros (Hmax & (Hp & Ha & Hs & Hm & Hc) & _) Hn. simpl in *.
  rewrite Hmax in Hp, Ha, Hs, Hm, Hc.
  destruct (history_add_view n st (ml_alerts st)
              (MLAlert.machine_id x) x Hn Hmax Hm) as (dq & d1 & Hg & Hf).
  unfold add_ml_alert. rewrite Hg. simpl. by eexists.
Qed.

Lemma add_command_fifo n st h x :
  inv n (st, h) → 0 ≤ n →
  ∃ st', add_command st x = Ok st' ∧
    fifo_insert n (history_of (commands st))
      (history_of (commands st')) (ControlCommand.machine_id x) x.
Proof.
  intros (Hmax & (Hp & Ha & Hs & Hm & Hc) & _) Hn. simpl in *.
  rewrite Hmax in Hp, Ha, Hs, Hm, Hc.
  destruct (history_add_view n st (commands st)
              (ControlCommand.machine_id x) x Hn Hmax Hc) as (dq & d1 & Hg & Hf).
  unfold add_command. rewrite Hg. simpl. by eexists.
Qed.

(** C4.  In every world reachable from [DataStore(n)], whatever
    operations were called, no history deque of any machine and of any of
    the five kinds (process, alarm, status, ML alert, command) holds more
    than [n] items; and for [0 ≤ n] each insertion returns and leaves the
    machine's history with the new item appended when it held fewer than
    [n] items, and with the new item appended and the oldest item dropped
    when it held [n]; the items that stay keep their order and the other
    machines' histories are untouched. *)
Theorem history_capacity_fifo (n : Z) (st : DataStore) (h : heap) :
  reachable n (st, h) →
  (bounded n (process_data st) ∧ bounded n (alarm_data st) ∧
   bounded n (status_data st) ∧ bounded n (ml_alerts st) ∧
   bounded n (commands st)) ∧
  (0 ≤ n →
   (∀ x, ∃ st', add_process_data st x = Ok st' ∧
      fifo_insert n (history_of (process_data st))
        (history_of (process_data st')) (ProcessData.machine_id x) x) ∧
   (∀ x, ∃ st', add_alarm_data st h x = Ok st' ∧
      fifo_insert n (history_of (alarm_data st))
        (history_of (alarm_data st')) (AlarmData.machine_id (h x)) x) ∧
   (∀ x, ∃ st', add_status_data st x = Ok st' ∧
      fifo_insert n (history_of (status_data st))
        (history_of (status_data st')) (StatusData.machine_id x) x) ∧
   (∀ x, ∃ st', add_ml_alert st x = Ok st' ∧
      fifo_insert n (history_of (ml_alerts st))
        (history_of (ml_alerts st')) (MLAlert.machine_id x) x) ∧
   (∀ x, ∃ st', add_command st x = Ok st' ∧
      fifo_insert n (history_of (commands st))
        (history_of (commands st')) (ControlCommand.machine_id x) x)).
Proof.
  intros Hr. apply reachable_inv in Hr. split.
  - destruct Hr as (Hmax & (Hp & Ha & Hs & Hm & Hc) & _). simpl in *.
    rewrite Hmax in *. split_and!; by apply bounded_ok.
  - intros Hn. split_and!; intros x.
    + by apply (add_process_data_fifo n st h).
    + by apply add_alarm_data_fifo.
    + by apply (add_status_data_fifo n st h).
    + by apply (add_ml_alert_fifo n st h).
    + by apply (add_command_fifo n st h).
Qed.

Lemma history_capacity_fifo_witness :
  (bounded 1000 (process_data example_store) ∧
   bounded 1000 (alarm_data example_store) ∧
   bounded 1000 (status_data example_store) ∧
   bounded 1000 (ml_alerts example_store) ∧
   bounded 1000 (commands example_store)) ∧
  (0 ≤ 1000 →
   (∀ x, ∃ st', add_process_data example_store x = Ok st' ∧
      fifo_insert 1000 (history_of (process_data example_store))
        (history_of (process_data st')) (ProcessData.machine_id x) x) ∧
   (∀ x, ∃ st', add_alarm_data example_store example_heap x = Ok st' ∧
      fifo_insert 1000 (history_of (alarm_data example_store))
        (history_of (alarm_data st'))
        (AlarmData.machine_id (example_heap x)) x) ∧
   (∀ x, ∃ st', add_status_data example_store x = Ok st' ∧
      fifo_insert 1000 (history_of (status_data example_store))
        (history_of (status_data st')) (StatusData.machine_id x) x) ∧
   (∀ x, ∃ st', add_ml_alert example_store x = Ok st' ∧
      fifo_insert 1000 (history_of (ml_alerts example_store))
        (history_of (ml_alerts st')) (MLAlert.machine_id x) x) ∧
   (∀ x, ∃ st', add_command example_store x = Ok st' ∧
      fifo_insert 1000 (history_of (commands example_store))
        (history_of (commands st')) (ControlCommand.machine_id x) x)).
Proof.
  apply (history_capacity_fifo 1000 example_store example_heap).
  exists example_heap, [AddAlarmData 0%nat]. reflexivity.
Defined.

(** With capacity 1 the second alarm event evicts the first from the
    history; the active list holds the one open alarm. *)
Example history_capacity_one :
  ∃ st', add_alarm_events (init 1) example_heap [0; 1]%nat = Ok st' ∧
    history_of (alarm_data st') "M1" = [1%nat] ∧
    active_of st' "M1" = [1%nat].
Proof. eexists. split; [reflexivity|]. split; reflexivity. Qed.

(** ** The latest-value cache *)

Lemma lastn_snoc_fifo {A} (n : nat) (l : list A) x :
  (length l ≤ n)%nat →
  (if decide (length l < n)%nat then l ++ [x] else drop 1 (l ++ [x]))
  = lastn n (l ++ [x]).
Proof.
  intros Hle. unfold lastn. rewrite length_app; simpl. case_decide.
  - by replace (length l + 1 - n)%nat with 0%nat by lia.
  - by replace (length l + 1 - n)%nat with 1%nat by lia.
Qed.

Lemma lastn_lastn_app {A} (n : nat) (l r : list A) :
  lastn n (lastn n l ++ r) = lastn n (l ++ r).
Proof.
  unfold lastn. rewrite !length_app, length_drop.
  destruct (decide (length l ≤ n)%nat).
  - replace (length l - n)%nat with 0%nat by lia. simpl.
    by rewrite Nat.sub_0_r.
  - replace (length l - (length l - n) + length r - n)%nat
      with (length r) by lia.
    replace (length l + length r - n)%nat
      with ((length l - n) + length r)%nat by lia.
    rewrite <- drop_drop. f_equal.
    rewrite drop_app_le by lia. done.
Qed.

Lemma lastn_length {A} (n : nat) (l : list A) :
  (length (lastn n l) ≤ n)%nat.
Proof. unfold lastn. rewrite length_drop. lia. Qed.

Lemma lastn_all {A} (n : nat) (l : list A) :
  (length l ≤ n)%nat → lastn n l = l.
Proof. intros Hl. unfold lastn. by replace (length l - n)%nat with 0%nat by lia. Qed.

Lemma add_process_data_latest st x st' :
  add_process_data st x = Ok st' →
  latest_process st' = <[ProcessData.machine_id x := x]> (latest_process st).
Proof.
  unfold add_process_data. intros Hadd. open_getitem Hadd.
  by injection Hadd as <-.
Qed.

Lemma history_of_length n st h m :
  inv n (st, h) → 0 ≤ n →
  (length (history_of (process_data st) m) ≤ Z.to_nat n)%nat.
Proof.
  intros (Hmax & (Hp & _) & _) Hn. simpl in *. unfold history_of.
  destruct (process_data st !! m) as [dq|] eqn:Hl; simpl; [|lia].
  destruct (Hp m dq Hl) as (_ & Hm & Hlen). rewrite Hmax in Hm. lia.
Qed.

Lemma add_process_samples_spec n st h samples :
  inv n (st, h) → 0 ≤ n →
  ∃ st', add_process_samples st samples = Ok st' ∧ inv n (st', h) ∧
    ∀ m,
      latest_process st' !! m
      = match last (filter (λ d, ProcessData.machine_id d = m) samples) with
        | Some d => Some d
        | None => latest_process st !! m
        end ∧
      history_of (process_data st') m
      = lastn (Z.to_nat n)
          (history_of (process_data st) m
           ++ filter (λ d, ProcessData.machine_id d = m) samples).
Proof.
  intros Hi Hn. revert st Hi.
  induction samples as [|x samples IH]; intros st Hi; simpl.
  { exists st. split_and!; [done..|]. intros m. split; [done|].
    rewrite filter_nil, app_nil_r, lastn_all; [done|].
    by eapply history_of_length. }
  destruct (add_process_data_fifo n st h x Hi Hn) as (st1 & Hadd & Hf1 & Hf2).
  rewrite Hadd; simpl.
  pose proof (add_process_data_inv n st h x st1 Hi Hadd) as Hi1.
  destruct (IH st1 Hi1) as (st' & Hrun & Hi' & Hspec).
  exists st'. split_and!; [done..|]. intros m.
  destruct (Hspec m) as [Hlat Hhist]. rewrite Hlat, Hhist.
  rewrite (add_process_data_latest st x st1 Hadd), filter_cons.
  destruct (decide (ProcessData.machine_id x = m)) as [<-|Hne].
  - rewrite lookup_insert_eq, last_cons. split.
    + by destruct (last _).
    + rewrite Hf1.
      replace (if decide (Z.of_nat (length (history_of (process_data st)
                                              (ProcessData.machine_id x))) < n)
               then history_of (process_data st) (ProcessData.machine_id x) ++ [x]
               else drop 1 (history_of (process_data st)
                              (ProcessData.machine_id x) ++ [x]))
        with (lastn (Z.to_nat n)
                (history_of (process_data st) (ProcessData.machine_id x) ++ [x])).
      * rewrite lastn_lastn_app. by rewrite <- app_assoc.
      * rewrite <- lastn_snoc_fifo by by eapply history_of_length.
        destruct (decide (length (history_of (process_data st)
                                    (ProcessData.machine_id x))
                          < Z.to_nat n)%nat); case_decide; try lia; done.
  - rewrite lookup_insert_ne by done. by rewrite Hf2.
Qed.

(** C5.  In a reachable world of a store with capacity [0 ≤ n], any
    sequence of [add_process_data] calls returns, and afterwards the
    latest-value cache of every machine that received a sample is the
    last sample ingested for it (the other machines keep theirs), while
    the machine's history is the last [n] items of its former history
    followed by its new samples; so the cached sample need not be in the
    history (never for [n = 0]).  In particular a store of capacity 1 that
    ingests a sample with temperature 72 and then one with temperature 75
    for M1 has the history [[the 75 sample]] and the latest value
    [the 75 sample]. *)
Theorem latest_process_is_last_sample (n : Z) (st : DataStore) (h : heap)
    (samples : list ProcessData.t) :
  reachable n (st, h) → 0 ≤ n →
  (∃ st', add_process_samples st samples = Ok st' ∧
     ∀ m,
       get_machine_process_data st' m
       = match last (filter (λ d, ProcessData.machine_id d = m) samples) with
         | Some d => Some d
         | None => get_machine_process_data st m
         end ∧
       history_of (process_data st') m
       = lastn (Z.to_nat n)
           (history_of (process_data st) m
            ++ filter (λ d, ProcessData.machine_id d = m) samples)) ∧
  (∀ t1 t2, ∃ st2,
     add_process_samples (init 1) [sample_M1 (72 # 1) t1; sample_M1 (75 # 1) t2]
       = Ok st2 ∧
     get_process_history st2 "M1" 100 = Ok ([sample_M1 (75 # 1) t2], st2) ∧
     get_machine_process_data st2 "M1" = Some (sample_M1 (75 # 1) t2) ∧
     get_latest_process_data st2 !! "M1" = Some (sample_M1 (75 # 1) t2)).
Proof.
  intros Hr Hn. apply reachable_inv in Hr. split.
  - destruct (add_process_samples_spec n st h samples Hr Hn)
      as (st' & Hrun & _ & Hspec).
    exists st'. split; [done|]. intros m. apply Hspec.
  - intros t1 t2. eexists. split; [reflexivity|].
    split; [reflexivity|]. split; reflexivity.
Qed.

Lemma latest_process_is_last_sample_witness :
  ∃ st', add_process_samples (init 0) [sample_M1 (72 # 1) 1; sample_M1 (75 # 1) 2]
         = Ok st' ∧
    get_machine_process_data st' "M1" = Some (sample_M1 (75 # 1) 2) ∧
    history_of (process_data st') "M1" = [].
Proof.
  destruct (latest_process_is_last_sample 0 (init 0) example_heap
              [sample_M1 (72 # 1) 1; sample_M1 (75 # 1) 2]) as [(st' & Hrun & Hs) _].
  - exists example_heap, []. reflexivity.
  - lia.
  - exists st'. split; [exact Hrun|]. destruct (Hs "M1") as [Hl Hh].
    split; [exact Hl|exact Hh].
Defined.

(** ** Acknowledgment *)

Lemma get_machine_alarms_vivified st mid :
  (get_machine_alarms st mid).2 = vivified st mid.
Proof.
  unfold get_machine_alarms, active_getitem, vivified.
  by destruct (active_alarms st !! mid).
Qed.

Lemma vivified_present st mid :
  is_Some (active_alarms st !! mid) → vivified st mid = st.
Proof. intros [l Hl]. unfold vivified. rewrite Hl. by destruct st. Qed.

Lemma vivified_active_of st mid m :
  active_of (vivified st mid) m = active_of st m.
Proof.
  rewrite <- get_machine_alarms_vivified. apply get_machine_alarms_spec.
Qed.

Lemma vivified_idem st mid : vivified (vivified st mid) mid = vivified st mid.
Proof.
  apply vivified_present. unfold vivified; simpl.
  destruct (active_alarms st !! mid) eqn:Hl; [by rewrite Hl|].
  rewrite lookup_insert_eq. by eexists.
Qed.

(** C6, the claim as stated fails: on a store that has no registry entry
    for M1, [acknowledge_alarm] returns false and yet the store is not the
    one it was: M1 has gained an (empty) entry, which [get_active_alarms]
    then lists. *)
Lemma acknowledge_absent_changes_store :
  ¬ acknowledge_absent_changes_nothing (init 1000) example_heap
      "M1" "A1" "op1" 5.
Proof.
  unfold acknowledge_absent_changes_nothing. intros Hclaim.
  specialize (Hclaim eq_refl).
  assert (get_active_alarms
            (acknowledge_alarm (init 1000) example_heap "M1" "A1" "op1" 5).1.2
          !! "M1" = Some []) as Hnew by reflexivity.
  rewrite Hclaim in Hnew. discriminate Hnew.
Qed.

(** C6, amended.  [acknowledge_alarm] returns true exactly when the
    machine's active alarms hold an alarm with that identifier.  In that
    case the acknowledged, acknowledged_by and acknowledged_at fields of
    that alarm (the first such in the list) are overwritten with true, the
    actor and the time of the call, and no other object and no other field
    changes; a later call overwrites them again, so that the state after
    two calls is the state after the second one alone (last write wins;
    repeating a call with the same actor and time changes nothing more).
    When there is no such alarm it returns false and no alarm object
    changes.  In both cases no machine's active list changes, and the store
    is the one before the call except that a machine_id without registry
    entry has gained an empty one. *)
Theorem acknowledge_alarm_outcome (st : DataStore) (h : heap)
    (machine_id alarm_id user_id : string) (now : datetime) :
  let res := acknowledge_alarm st h machine_id alarm_id user_id now in
  res.1.1 = bool_decide (with_id h alarm_id (active_of st machine_id) ≠ []) ∧
  res.1.2 = vivified st machine_id ∧
  (is_Some (active_alarms st !! machine_id) → res.1.2 = st) ∧
  (∀ m, active_of res.1.2 m = active_of st m) ∧
  (with_id h alarm_id (active_of st machine_id) = [] → res.2 = h) ∧
  (∀ r, head (with_id h alarm_id (active_of st machine_id)) = Some r →
     res.2 r = AlarmData.set_acknowledgment (h r) user_id now ∧
     ∀ x, x ≠ r → res.2 x = h x) ∧
  (∀ user2 now2,
     let twice := acknowledge_alarm res.1.2 res.2 machine_id alarm_id user2 now2 in
     let once := acknowledge_alarm st h machine_id alarm_id user2 now2 in
     twice.1.1 = once.1.1 ∧ twice.1.2 = once.1.2 ∧ ∀ x, twice.2 x = once.2 x).
Proof.
  assert (Hhead : ∀ (g : heap) l,
            head (with_id g alarm_id l) = find_alarm g alarm_id l).
  { intros g l. unfold with_id. induction l as [|x l IH]; simpl; [done|].
    rewrite filter_cons. case_bool_decide.
    - by rewrite decide_True.
    - by rewrite decide_False. }
  intros res. subst res. rewrite acknowledge_alarm_eq.
  rewrite get_machine_alarms_vivified.
  destruct (find_alarm h alarm_id (active_of st machine_id)) as [r|] eqn:Hf;
    simpl.
  - assert (with_id h alarm_id (active_of st machine_id) ≠ []) as Hne.
    { intros Hnil. apply find_alarm_None in Hnil. congruence. }
    split_and!.
    + by rewrite bool_decide_eq_true_2.
    + done.
    + apply vivified_present.
    + apply vivified_active_of.
    + done.
    + intros r'. rewrite Hhead, Hf. intros [= <-]. split.
      * by rewrite fn_lookup_insert.
      * intros x Hx. by rewrite fn_lookup_insert_ne.
    + intros user2 now2. rewrite !acknowledge_alarm_eq.
      rewrite !get_machine_alarms_vivified, vivified_idem, vivified_active_of.
      rewrite (find_alarm_ext h) by (intros x; apply set_acknowledgment_id).
      rewrite Hf. simpl. split_and!; [done..|]. intros x.
      destruct (decide (r = x)) as [<-|Hx].
      * by rewrite !fn_lookup_insert.
      * by rewrite !fn_lookup_insert_ne.
  - assert (with_id h alarm_id (active_of st machine_id) = []) as Hnil
      by by apply find_alarm_None.
    split_and!.
    + by rewrite bool_decide_eq_false_2 by (intros Hne; by apply Hne).
    + done.
    + apply vivified_present.
    + apply vivified_active_of.
    + done.
    + intros r. by rewrite Hnil.
    + intros user2 now2. rewrite !acknowledge_alarm_eq.
      rewrite !get_machine_alarms_vivified, vivified_idem, vivified_active_of.
      by rewrite Hf.
Qed.

(** ** Acknowledge, then resolve *)

Lemma resolve_alarm_history st h m a u now :
  alarm_data (resolve_alarm st h m a u now).1.2 = alarm_data st ∧
  alarm_data (acknowledge_alarm st h m a u now).1.2 = alarm_data st.
Proof.
  rewrite resolve_alarm_eq, acknowledge_alarm_eq, get_machine_alarms_vivified.
  by destruct (find_alarm h a (active_of st m)).
Qed.

(** What the two calls do to the active list, to the histories and to
    the alarm object. *)
Lemma acknowledge_then_resolve_object (n : Z) (st : DataStore) (h : heap)
    (m a actor : string) (t1 t2 : datetime) (r : ref) :
  reachable n (st, h) →
  head (with_id h a (active_of st m)) = Some r →
  let w1 := acknowledge_alarm st h m a actor t1 in
  let w2 := resolve_alarm w1.1.2 w1.2 m a actor t2 in
  w1.1.1 = true ∧ w2.1.1 = true ∧
  with_id w2.2 a (active_of w2.1.2 m) = [] ∧
  (r ∉ active_of w2.1.2 m) ∧
  alarm_data w2.1.2 = alarm_data st ∧
  (r ∈ history_of (alarm_data st) m → r ∈ history_of (alarm_data w2.1.2) m) ∧
  (w2.2) r = AlarmData.set_resolution
               (AlarmData.set_acknowledgment (h r) actor t1) t2 ∧
  AlarmData.acknowledged_by (w2.2 r) = Some actor ∧
  AlarmData.resolved_at (w2.2 r) = Some t2.
Proof.
  intros Hr Hhead w1 w2.
  pose proof (reachable_inv _ _ Hr) as Hi.
  pose proof (acknowledge_alarm_inv n st h m a actor t1 Hi) as Hi1.
  fold w1 in Hi1.
  assert (Hf : find_alarm h a (active_of st m) = Some r).
  { revert Hhead. unfold with_id. generalize (active_of st m).
    induction l as [|x l IH]; simpl; [done|].
    rewrite filter_cons. case_bool_decide.
    - by rewrite decide_True.
    - by rewrite decide_False. }
  assert (Hw1 : w1 = (true, vivified st m,
                      <[r := AlarmData.set_acknowledgment (h r) actor t1]> h)).
  { subst w1. by rewrite acknowledge_alarm_eq, Hf, get_machine_alarms_vivified. }
  assert (Hf1 : find_alarm w1.2 a (active_of w1.1.2 m) = Some r).
  { rewrite Hw1; simpl. rewrite vivified_active_of.
    rewrite (find_alarm_ext h) by (intros x; apply set_acknowledgment_id).
    done. }
  assert (Hne1 : with_id w1.2 a (active_of w1.1.2 m) ≠ []).
  { intros Hnil. apply find_alarm_None in Hnil. congruence. }
  destruct Hi1 as (_ & _ & Hu1).
  destruct (resolve_alarm_spec w1.1.2 w1.2 m a actor t2) as [_ Hres].
  { by destruct w1 as [[? ?] ?]. }
  destruct (Hres Hne1) as (Hb & Hgone & Hact & _). fold w2 in Hb, Hgone, Hact.
  assert (Hw2 : w2.2 = <[r := AlarmData.set_resolution (w1.2 r) t2]> w1.2).
  { subst w2. by rewrite resolve_alarm_eq, Hf1. }
  assert (Hhist : alarm_data w2.1.2 = alarm_data st).
  { subst w2. destruct (resolve_alarm_history w1.1.2 w1.2 m a actor t2) as [-> _].
    subst w1. by destruct (resolve_alarm_history st h m a actor t1) as [_ ->]. }
  assert (Hobj : w2.2 r = AlarmData.set_resolution
                            (AlarmData.set_acknowledgment (h r) actor t1) t2).
  { rewrite Hw2, fn_lookup_insert. rewrite Hw1; simpl.
    by rewrite fn_lookup_insert. }
  split_and!.
  - by rewrite Hw1.
  - done.
  - done.
  - rewrite Hact. intros Hin. apply list_elem_of_filter in Hin as [Hid _].
    apply Hid. apply find_alarm_Some in Hf1 as (_ & _ & _ & ? & _). done.
  - done.
  - by rewrite Hhist.
  - done.
  - by rewrite Hobj.
  - by rewrite Hobj.
Qed.

(** The scenario from an empty store: alarm A1 of M1 is opened, then
    acknowledged and resolved by op1.  The active list is empty, the
    history still holds the record, and reading the record through the
    history shows the acknowledgment and the resolution. *)
Example acknowledge_then_resolve_scenario :
  let w := run [AddAlarmData 0%nat;
                AcknowledgeAlarm "M1" "A1" "op1" 10;
                ResolveAlarm "M1" "A1" "op1" 20] (init 1000, example_heap) in
  active_of w.1 "M1" = [] ∧
  match get_alarm_history w.1 "M1" 100 with
  | Ok (history, _) =>
      (λ r, (AlarmData.acknowledged_by (w.2 r), AlarmData.resolved_at (w.2 r)))
        <$> history
      = [(Some "op1", Some 20)]
  | Raise _ => False
  end.
Proof. split; reflexivity. Qed.

(** ** Auto-vivification of the active-alarm registry *)

(** C9.  When [machine_id] has no entry in the active-alarm registry,
    each of [acknowledge_alarm], [resolve_alarm] and [get_machine_alarms]
    (which return false, false and the empty list) leaves a store in
    which [get_active_alarms] lists [machine_id] with an empty alarm
    list, and nothing else of the store or of the alarm objects changes. *)
Theorem registry_auto_vivification (st : DataStore) (h : heap)
    (machine_id alarm_id user_id : string) (now : datetime) :
  get_active_alarms st !! machine_id = None →
  let ack := acknowledge_alarm st h machine_id alarm_id user_id now in
  let res := resolve_alarm st h machine_id alarm_id user_id now in
  let get := get_machine_alarms st machine_id in
  ack = (false, vivified st machine_id, h) ∧
  res = (false, vivified st machine_id, h) ∧
  get = ([], vivified st machine_id) ∧
  vivified st machine_id
    = set_active_alarms st (<[machine_id := []]> (active_alarms st)) ∧
  get_active_alarms (vivified st machine_id) !! machine_id = Some [] ∧
  machine_id ∈ dom (get_active_alarms (vivified st machine_id)) ∧
  machine_id ∉ dom (get_active_alarms st).
Proof.
  intros Hnone ack res get. unfold get_active_alarms in *.
  assert (Hact : active_of st machine_id = [])
    by (unfold active_of; by rewrite Hnone).
  subst ack res get.
  rewrite acknowledge_alarm_eq, resolve_alarm_eq, Hact. simpl.
  rewrite get_machine_alarms_vivified.
  assert (Hv : vivified st machine_id
               = set_active_alarms st (<[machine_id := []]> (active_alarms st)))
    by (unfold vivified; by rewrite Hnone).
  split_and!; try done.
  - destruct (get_machine_alarms_spec st machine_id) as [H1 _].
    rewrite <- get_machine_alarms_vivified, <- Hact, <- H1.
    by destruct (get_machine_alarms st machine_id).
  - rewrite Hnone. apply lookup_insert_eq.
  - rewrite Hnone. apply elem_of_dom. rewrite lookup_insert_eq. by eexists.
  - by apply not_elem_of_dom.
Qed.

Lemma registry_auto_vivification_witness :
  let ack := acknowledge_alarm example_store example_heap "M2" "A1" "op1" 5 in
  let res := resolve_alarm example_store example_heap "M2" "A1" "op1" 5 in
  let get := get_machine_alarms example_store "M2" in
  ack = (false, vivified example_store "M2", example_heap) ∧
  res = (false, vivified example_store "M2", example_heap) ∧
  get = ([], vivified example_store "M2") ∧
  vivified example_store "M2"
    = set_active_alarms example_store
        (<["M2" := []]> (active_alarms example_store)) ∧
  get_active_alarms (vivified example_store "M2") !! "M2" = Some [] ∧
  "M2" ∈ dom (get_active_alarms (vivified example_store "M2")) ∧
  "M2" ∉ dom (get_active_alarms example_store).
Proof.
  apply (registry_auto_vivification example_store example_heap
           "M2" "A1" "op1" 5).
  reflexivity.
Defined.

(** ** The history accessors and their limit *)

Lemma last_limit_spec {A} (limit : Z) (l : list A) :
  last_limit limit l
  = if decide (limit = 0) then l
    else if decide (0 < limit)
         then lastn (Z.to_nat limit `min` length l) l
         else drop (Z.to_nat (- limit)) l.
Proof.
  unfold last_limit, slice_from, lastn.
  destruct (Z.eqb_spec limit 0); case_decide; try done.
  case_decide.
  - destruct (Z.ltb_spec (- limit) 0); [|lia]. f_equal. lia.
  - destruct (Z.ltb_spec (- limit) 0); [lia|]. done.
Qed.

Lemma get_history_getitem {A} st mid (d : gmap string (deque A)) :
  0 ≤ max_history_size st →
  ∃ dq d1, defaultdict_getitem (history_factory st) mid d = Ok (dq, d1) ∧
    items dq = history_of d mid ∧
    d1 = match d !! mid with
         | Some _ => d
         | None => <[mid := mk_deque [] (Z.to_nat (max_history_size st))]> d
         end.
Proof.
  intros Hn.
  destruct (defaultdict_getitem_history st mid d Hn) as (dq & Hg & Hdq).
  eexists _, _. split; [exact Hg|]. subst dq. unfold history_of.
  by destruct (d !! mid).
Qed.

(** C10.  On a store with a non-negative capacity, [get_process_history]
    and [get_alarm_history] called with a positive limit return the last
    min(limit, length) items of the machine's history, in the order of
    the history (which is the order of insertion); called with limit 0
    they return the whole history, not the empty list. *)
Theorem history_limit (st : DataStore) (machine_id : string) (limit : Z) :
  0 ≤ max_history_size st →
  let process := history_of (process_data st) machine_id in
  let alarms := history_of (alarm_data st) machine_id in
  (∃ st', get_process_history st machine_id limit
          = Ok (if decide (limit = 0) then process
                else if decide (0 < limit)
                     then lastn (Z.to_nat limit `min` length process) process
                     else drop (Z.to_nat (- limit)) process, st')) ∧
  (∃ st', get_alarm_history st machine_id limit
          = Ok (if decide (limit = 0) then alarms
                else if decide (0 < limit)
                     then lastn (Z.to_nat limit `min` length alarms) alarms
                     else drop (Z.to_nat (- limit)) alarms, st')) ∧
  (0 < limit →
     (∃ st', get_process_history st machine_id limit
             = Ok (lastn (Z.to_nat limit `min` length process) process, st')) ∧
     (∃ st', get_alarm_history st machine_id limit
             = Ok (lastn (Z.to_nat limit `min` length alarms) alarms, st'))) ∧
  (limit = 0 →
     (∃ st', get_process_history st machine_id limit = Ok (process, st')) ∧
     (∃ st', get_alarm_history st machine_id limit = Ok (alarms, st'))).
Proof.
  intros Hn process alarms.
  destruct (get_history_getitem st machine_id (process_data st) Hn)
    as (dq1 & d1 & Hg1 & Hi1 & _).
  destruct (get_history_getitem st machine_id (alarm_data st) Hn)
    as (dq2 & d2 & Hg2 & Hi2 & _).
  assert (Hp : ∃ st', get_process_history st machine_id limit
                      = Ok (last_limit limit process, st')).
  { unfold get_process_history. rewrite Hg1; simpl. rewrite Hi1. by eexists. }
  assert (Ha : ∃ st', get_alarm_history st machine_id limit
                      = Ok (last_limit limit alarms, st')).
  { unfold get_alarm_history. rewrite Hg2; simpl. rewrite Hi2. by eexists. }
  rewrite last_limit_spec in Hp. rewrite last_limit_spec in Ha.
  split_and!; [done..| |].
  - intros Hpos. repeat case_decide; try lia. done.
  - intros Hz. repeat case_decide; try lia. done.
Qed.

Lemma history_limit_witness :
  let process := history_of (process_data example_store) "M1" in
  let alarms := history_of (alarm_data example_store) "M1" in
  (∃ st', get_process_history example_store "M1" 0
          = Ok (if decide (0 = 0) then process
                else if decide (0 < 0)
                     then lastn (Z.to_nat 0 `min` length process) process
                     else drop (Z.to_nat (- 0)) process, st')) ∧
  (∃ st', get_alarm_history example_store "M1" 0
          = Ok (if decide (0 = 0) then alarms
                else if decide (0 < 0)
                     then lastn (Z.to_nat 0 `min` length alarms) alarms
                     else drop (Z.to_nat (- 0)) alarms, st')) ∧
  (0 < 0 →
     (∃ st', get_process_history example_store "M1" 0
             = Ok (lastn (Z.to_nat 0 `min` length process) process, st')) ∧
     (∃ st', get_alarm_history example_store "M1" 0
             = Ok (lastn (Z.to_nat 0 `min` length alarms) alarms, st'))) ∧
  (0 = 0 →
     (∃ st', get_process_history example_store "M1" 0 = Ok (process, st')) ∧
     (∃ st', get_alarm_history example_store "M1" 0 = Ok (alarms, st'))).
Proof.
  apply (history_limit example_store "M1" 0).
  change (0 ≤ 1000). lia.
Defined.

(** Limit 0 returns the whole history, limit 1 its last item. *)
Example history_limit_zero_and_one :
  ∃ st', add_alarm_events (init 1000) example_heap [0; 1; 2]%nat = Ok st' ∧
    (∃ s, get_alarm_history st' "M1" 0 = Ok ([0; 1; 2]%nat, s)) ∧
    (∃ s, get_alarm_history st' "M1" 1 = Ok ([2]%nat, s)) ∧
    (∃ s, get_alarm_history st' "M1" 2 = Ok ([1; 2]%nat, s)) ∧
    (∃ s, get_alarm_history st' "M1" 100 = Ok ([0; 1; 2]%nat, s)).
Proof.
  eexists. split; [reflexivity|]. split_and!; eexists; reflexivity.
Qed.

(** ** Broadcast *)

Section Broadcast.
Variable json_dumps : gmap string string → result string.
Variable send_text : nat → string → result unit.
Variable msg : gmap string string.
Variable now : datetime.

Let ok (c : nat) : Prop := WS.delivers json_dumps send_text msg c = true.

Lemma deliver_spec (s : WS.delivery) (c : nat) :
  WS.deliver json_dumps send_text msg now s c
  = Ok (if decide (ok c)
        then WS.mk_delivery
               (match WS.d_info s !! c with
                | Some i => <[c := WS.touch now i]> (WS.d_info s)
                | None => WS.d_info s
                end)
               (WS.d_out s ++ WS.delivered_to json_dumps send_text msg [c])
               (WS.disconnected_connections s)
        else WS.mk_delivery (WS.d_info s) (WS.d_out s)
               (WS.disconnected_connections s ++ [c])).
Proof.
  unfold ok, WS.deliver, WS.delivered_to, WS.delivers, WS.try_except.
  destruct (json_dumps msg) as [text|e]; simpl; [|done].
  rewrite filter_cons, filter_nil.
  destruct (send_text c text) as [[]|e]; simpl; repeat case_decide; done.
Qed.

Lemma delivered_to_cons (c : nat) (l : list nat) :
  WS.delivered_to json_dumps send_text msg (c :: l)
  = WS.delivered_to json_dumps send_text msg [c]
    ++ WS.delivered_to json_dumps send_text msg l.
Proof.
  unfold WS.delivered_to. destruct (json_dumps msg); [|done].
  rewrite !filter_cons, filter_nil. by case_decide.
Qed.

(** The delivery loop returns; it has written to every connection that
    can be written to and has listed the others. *)
Lemma deliver_all_spec (l : list nat) (s : WS.delivery) :
  ∃ s', WS.deliver_all json_dumps send_text msg now s l = Ok s' ∧
    WS.d_out s' = WS.d_out s ++ WS.delivered_to json_dumps send_text msg l ∧
    WS.disconnected_connections s'
      = WS.disconnected_connections s ++ filter (λ c, ¬ ok c) l ∧
    ∀ c, WS.d_info s' !! c
         = if decide (c ∈ l ∧ ok c) then WS.touch now <$> WS.d_info s !! c
           else WS.d_info s !! c.
Proof.
  revert s. induction l as [|x l IH]; intros s; cbn [WS.deliver_all].
  { exists s. split_and!; [done| | |].
    - unfold WS.delivered_to. destruct (json_dumps msg); by rewrite app_nil_r.
    - by rewrite filter_nil, app_nil_r.
    - intros c. rewrite decide_False; [done|]. intros [Hin _].
      by apply elem_of_nil in Hin. }
  rewrite deliver_spec; cbn [rbind].
  rewrite (delivered_to_cons x l), filter_cons.
  assert (Hother : ∀ c, ¬ (c ∈ l ∧ ok c) → c ≠ x ∨ ¬ ok x →
            ¬ (c ∈ x :: l ∧ ok c)).
  { intros c Hn Hx [Hin Hc]. apply Hn. split; [|done].
    apply elem_of_cons in Hin as [->|Hin]; [|done]. by destruct Hx. }
  destruct (decide (ok x)) as [Hx|Hx].
  - destruct (IH (WS.mk_delivery
                    (match WS.d_info s !! x with
                     | Some i => <[x := WS.touch now i]> (WS.d_info s)
                     | None => WS.d_info s
                     end)
                    (WS.d_out s ++ WS.delivered_to json_dumps send_text msg [x])
                    (WS.disconnected_connections s)))
      as (s' & Hrun & Hout & Hdis & Hinfo).
    cbn [WS.d_info WS.d_out WS.disconnected_connections] in Hout, Hdis, Hinfo.
    exists s'. split; [done|]. rewrite Hout, Hdis.
    rewrite decide_False by (intros Hn; by apply Hn).
    split_and!; [by rewrite app_assoc|done|].
    intros c. rewrite Hinfo.
    destruct (decide (c = x)) as [->|Hne].
    + rewrite (decide_True (P := x ∈ x :: l ∧ ok x)) by (split; [left|done]).
      destruct (WS.d_info s !! x) as [i|] eqn:Hl.
      * rewrite lookup_insert_eq. by case_decide.
      * rewrite Hl. by case_decide.
    + assert (match WS.d_info s !! x with
              | Some i => <[x := WS.touch now i]> (WS.d_info s)
              | None => WS.d_info s
              end !! c = WS.d_info s !! c) as ->.
      { destruct (WS.d_info s !! x); [|done]. by rewrite lookup_insert_ne. }
      destruct (decide (c ∈ l ∧ ok c)) as [[Hin Hc]|Hn].
      * rewrite decide_True; [done|]. split; [by right|done].
      * rewrite decide_False; [done|]. apply Hother; [done|by left].
  - destruct (IH (WS.mk_delivery (WS.d_info s) (WS.d_out s)
                    (WS.disconnected_connections s ++ [x])))
      as (s' & Hrun & Hout & Hdis & Hinfo).
    cbn [WS.d_info WS.d_out WS.disconnected_connections] in Hout, Hdis, Hinfo.
    exists s'. split; [done|]. rewrite Hout, Hdis.
    rewrite decide_True by done.
    assert (WS.delivered_to json_dumps send_text msg [x] = []) as ->.
    { unfold WS.delivered_to. destruct (json_dumps msg); [|done].
      by rewrite filter_cons, decide_False, filter_nil. }
    split_and!; [done|by rewrite <- app_assoc|].
    intros c. rewrite Hinfo.
    destruct (decide (c ∈ l ∧ ok c)) as [[Hin Hc]|Hn].
    + rewrite decide_True; [done|]. split; [by right|done].
    + rewrite decide_False; [done|]. apply Hother; [done|by right].
Qed.
Lemma disconnect_all_connections (rs : list nat) (self : WS.WebSocketManager) :
  WS.active_connections (foldl WS.disconnect self rs)
  = foldl (λ l c, if bool_decide (c ∈ l) then list_remove WS.ws_eqb c l else l)
      (WS.active_connections self) rs.
Proof.
  revert self. induction rs as [|r rs IH]; intros self; simpl; [done|].
  by rewrite IH.
Qed.

Lemma disconnect_all_info (rs : list nat) (self : WS.WebSocketManager) c :
  WS.connection_info (foldl WS.disconnect self rs) !! c
  = if decide (c ∈ rs) then None else WS.connection_info self !! c.
Proof.
  revert self. induction rs as [|r rs IH]; intros self; cbn [foldl].
  { rewrite decide_False; [done|]. apply not_elem_of_nil. }
  rewrite IH. unfold WS.disconnect at 1. cbn [WS.connection_info].
  destruct (decide (c ∈ rs)) as [Hin|Hn].
  - rewrite decide_True; [done|]. by right.
  - destruct (decide (c = r)) as [->|Hne].
    + rewrite lookup_delete_eq. rewrite decide_True; [done|]. left.
    + rewrite lookup_delete_ne by done. rewrite decide_False; [done|].
      intros Hin. apply elem_of_cons in Hin as [?|?]; done.
Qed.

Lemma list_remove_first_failing (p q : list nat) x :
  Forall ok p → ¬ ok x →
  list_remove WS.ws_eqb x (p ++ x :: q) = p ++ q.
Proof.
  intros Hp Hx. induction Hp as [|y p Hy _ IH]; simpl.
  - unfold WS.ws_eqb. by rewrite bool_decide_eq_true_2.
  - unfold WS.ws_eqb at 1. rewrite bool_decide_eq_false_2 by (intros ->; done).
    by rewrite IH.
Qed.

(** Removing, one after the other, the connections whose delivery failed
    leaves the connections whose delivery succeeded, in their order. *)
Lemma remove_failing (p q : list nat) :
  Forall ok p →
  foldl (λ l c, if bool_decide (c ∈ l) then list_remove WS.ws_eqb c l else l)
    (p ++ q) (filter (λ c, ¬ ok c) q)
  = p ++ filter ok q.
Proof.
  revert p. induction q as [|x q IH]; intros p Hp.
  { by rewrite !filter_nil. }
  rewrite !filter_cons. destruct (decide (ok x)) as [Hx|Hx].
  - rewrite decide_False by (intros Hn; by apply Hn).
    replace (p ++ x :: q) with ((p ++ [x]) ++ q) by by rewrite <- app_assoc.
    rewrite IH by (apply Forall_app; split; [done|by constructor]).
    by rewrite <- app_assoc.
  - rewrite decide_True by done. simpl.
    rewrite bool_decide_eq_true_2
      by (apply elem_of_app; right; left).
    rewrite list_remove_first_failing by done. by apply IH.
Qed.

(** C2.  Whatever the transport does ([json.dumps] and every
    [send_text] may raise), [broadcast] returns normally.  One delivery
    is attempted for each connection registered when the call starts, in
    order: each connection whose attempt succeeds has received the text
    (whatever happened to the others) and stays registered, with its
    last-ping time refreshed; each connection whose attempt fails is
    removed from the registry and from the connection info; nothing else
    of the registry changes. *)
Theorem broadcast_isolates_failures (self : WS.WebSocketManager)
    (out : list (nat * string)) :
  ∃ self' out',
    WS.broadcast json_dumps send_text self out msg now = Ok (self', out') ∧
    WS.active_connections self'
      = filter (λ c, WS.delivers json_dumps send_text msg c = true)
          (WS.active_connections self) ∧
    out' = out ++ WS.delivered_to json_dumps send_text msg
                    (WS.active_connections self) ∧
    (∀ c, c ∈ WS.active_connections self →
       if WS.delivers json_dumps send_text msg c
       then c ∈ WS.active_connections self' ∧
            (∃ text, json_dumps msg = Ok text ∧ (c, text) ∈ out') ∧
            WS.connection_info self' !! c
              = WS.touch now <$> WS.connection_info self !! c
       else (c ∉ WS.active_connections self') ∧
            WS.connection_info self' !! c = None) ∧
    (∀ c, c ∉ WS.active_connections self →
       (c ∉ WS.active_connections self') ∧
       WS.connection_info self' !! c = WS.connection_info self !! c).
Proof.
  unfold WS.broadcast. case_bool_decide as Hempty.
  { exists self, out. rewrite Hempty. split; [done|].
    split; [by rewrite filter_nil|]. split.
    { unfold WS.delivered_to. destruct (json_dumps msg);
        by rewrite ?filter_nil, app_nil_r. }
    split; [intros c Hc; by apply elem_of_nil in Hc|].
    intros c _. split; [apply not_elem_of_nil|done]. }
  destruct (deliver_all_spec (WS.active_connections self)
              (WS.mk_delivery (WS.connection_info self) out []))
    as (s' & -> & Hout & Hdis & Hinfo).
  cbn [rbind WS.d_info WS.d_out WS.disconnected_connections] in *.
  rewrite app_nil_l in Hdis.
  eexists _, _. split; [reflexivity|].
  assert (Hact : WS.active_connections
                   (foldl WS.disconnect
                      (WS.mk_manager (WS.active_connections self) (WS.d_info s'))
                      (WS.disconnected_connections s'))
                 = filter ok (WS.active_connections self)).
  { rewrite disconnect_all_connections, Hdis. simpl.
    apply (remove_failing [] (WS.active_connections self)). constructor. }
  split; [exact Hact|]. split; [exact Hout|].
  split.
  - intros c Hc. rewrite Hact, Hout, disconnect_all_info, Hdis. simpl.
    destruct (WS.delivers json_dumps send_text msg c) eqn:Hd.
    + assert (ok c) as Hok by exact Hd. split_and!.
      * by apply list_elem_of_filter.
      * unfold WS.delivered_to. unfold WS.delivers in Hd.
        destruct (json_dumps msg) as [text|]; [|done].
        exists text. split; [done|]. apply elem_of_app. right.
        apply list_elem_of_fmap. exists c. split; [done|].
        apply list_elem_of_filter. split; [exact Hok|done].
      * rewrite decide_False.
        -- rewrite Hinfo. by rewrite decide_True.
        -- intros Hin. apply list_elem_of_filter in Hin as [Hn _]. by apply Hn.
    + assert (¬ ok c) as Hn by (unfold ok; by rewrite Hd). split.
      * intros Hin. by apply list_elem_of_filter in Hin as [? _].
      * rewrite decide_True; [done|]. by apply list_elem_of_filter.
  - intros c Hc. rewrite Hact, disconnect_all_info, Hdis. simpl. split.
    + intros Hin. by apply list_elem_of_filter in Hin as [_ ?].
    + rewrite decide_False.
      * rewrite Hinfo. rewrite decide_False; [done|]. by intros [? _].
      * intros Hin. by apply list_elem_of_filter in Hin as [_ ?].
Qed.
End Broadcast.

(** The scenario: clients 1, 2 and 3 are registered (each has received
    its welcome message); a broadcast of an alarm event finds the
    connection of client 2 closed.  Clients 1 and 3 receive the event,
    client 2 is removed, and the call returns. *)
Example broadcast_three_clients :
  ∃ m out, WS.three_clients = Ok (m, out) ∧
    WS.active_connections m = [1; 2; 3]%nat ∧
    ∃ m', WS.broadcast WS.dumps_ok (WS.send_unless_closed true) m out
            {[ "type" := "alarm" ]} 10
          = Ok (m', out ++ [(1%nat, "alarm"); (3%nat, "alarm")]) ∧
      WS.active_connections m' = [1; 3]%nat ∧
      (λ c, WS.connection_info m' !! c) <$> [1; 2; 3]%nat
      = [Some (WS.mk_info 1 10); None; Some (WS.mk_info 3 10)].
Proof.
  eexists _, _. split; [reflexivity|]. split; [reflexivity|].
  eexists. split; [reflexivity|]. split; reflexivity.
Qed.

(** ** Snapshot accessors and the identity of what they return *)

Module PyFacts.
Import Py.

Lemma agree_same_data h h2 : agree h h2 → same_data h h2.
Proof. intros Ha l o Hl _. by apply Ha. Qed.

Lemma read_process_stable : stable read_process.
Proof.
  intros h h2 l v Hs. unfold read_process.
  destruct (cells h !! l) as [[]|] eqn:Hl; try done.
  intros [= <-]. by rewrite (Hs _ _ Hl).
Qed.

Lemma read_alarm_stable : stable read_alarm.
Proof.
  intros h h2 l v Hs. unfold read_alarm.
  destruct (cells h !! l) as [[]|] eqn:Hl; try done.
  intros [= <-]. by rewrite (Hs _ _ Hl).
Qed.

Lemma mapM_stable {A} (rd : pyheap → nat → option A) h h2 items v :
  stable rd → same_data h h2 →
  mapM (rd h) items = Some v → mapM (rd h2) items = Some v.
Proof.
  intros Hrd Hs. rewrite !mapM_Some. intros Hall.
  eapply Forall2_impl; [exact Hall|]. intros x y Hx. by eapply Hrd.
Qed.

Lemma read_items_stable {A} (rd : pyheap → nat → option A) :
  stable rd → stable (read_items rd).
Proof.
  intros Hrd h h2 l v Hs. unfold read_items.
  destruct (cells h !! l) as [[]|] eqn:Hl; try done;
    rewrite (Hs _ _ Hl) by done; by apply mapM_stable.
Qed.

Lemma dict_at_stable {A} (rd : pyheap → nat → option A) h h2 root k v :
  stable rd → same_data h h2 → cells h2 !! root = cells h !! root →
  dict_at rd h root k = Some v → dict_at rd h2 root k = Some v.
Proof.
  intros Hrd Hs Hroot. unfold dict_at. rewrite Hroot.
  destruct (cells h !! root) as [[]|]; try done.
  destruct (d !! k) as [l|]; [|done].
  destruct (rd h l) as [x|] eqn:Hx; [|done].
  by rewrite (Hrd _ _ _ _ Hs Hx).
Qed.

Lemma state_at_Some self h k st :
  state_at self h k = Some st ↔
  dict_at read_process h (latest_process self) k = Some (s_latest st) ∧
  dict_at (read_items read_process) h (process_data self) k
    = Some (s_process st) ∧
  dict_at (read_items read_alarm) h (alarm_data self) k = Some (s_alarms st) ∧
  dict_at (read_items read_alarm) h (active_alarms self) k
    = Some (s_active st).
Proof.
  unfold state_at. destruct st as [a b c d]; simpl.
  destruct (dict_at read_process h (latest_process self) k); simpl;
    [|by split; [|intros []]].
  destruct (dict_at (read_items read_process) h (process_data self) k); simpl;
    [|by split; [|intros (? & ? & _)]].
  destruct (dict_at (read_items read_alarm) h (alarm_data self) k); simpl;
    [|by split; [|intros (? & ? & ? & _)]].
  destruct (dict_at (read_items read_alarm) h (active_alarms self) k); simpl;
    [|by split; [|intros (? & ? & ? & ?)]].
  split.
  - by intros [= -> -> -> ->].
  - by intros ([= ->] & [= ->] & [= ->] & [= ->]).
Qed.

(** The state read from a heap is the state read from any heap that has
    all its cells. *)
Lemma state_at_agree self h h2 k :
  is_Some (state_at self h k) → agree h h2 →
  state_at self h2 k = state_at self h k.
Proof.
  intros [st Hst] Ha. rewrite Hst. apply state_at_Some in Hst
    as (H1 & H2 & H3 & H4).
  pose proof (agree_same_data _ _ Ha) as Hs.
  assert (Hroot : ∀ {A} (rd : pyheap → nat → option A) root v,
            dict_at rd h root k = Some v → cells h2 !! root = cells h !! root).
  { intros A rd root v. unfold dict_at.
    destruct (cells h !! root) as [o|] eqn:Hl; [|done]. intros _.
    by rewrite (Ha _ _ Hl). }
  apply state_at_Some. split_and!.
  - eapply dict_at_stable; eauto using read_process_stable.
  - eapply dict_at_stable; eauto using read_items_stable, read_process_stable.
  - eapply dict_at_stable; eauto using read_items_stable, read_alarm_stable.
  - eapply dict_at_stable; eauto using read_items_stable, read_alarm_stable.
Qed.

Lemma agree_refl h : agree h h.
Proof. by intros l o. Qed.

Lemma agree_trans h1 h2 h3 : agree h1 h2 → agree h2 h3 → agree h1 h3.
Proof. intros H1 H2 l o Hl. by apply H2, H1. Qed.

Lemma agree_alloc h o : heap_ok h → agree h (alloc h o).2.
Proof.
  intros Hok l x Hl. simpl. rewrite lookup_insert_ne; [done|].
  intros <-. specialize (Hok (next h)). rewrite Hl in Hok.
  specialize (Hok (ltac:(by eexists))). lia.
Qed.

Lemma alloc_ok h o : heap_ok h → heap_ok (alloc h o).2.
Proof.
  intros Hok l. simpl. rewrite lookup_insert. case_decide; [lia|].
  intros Hl. specialize (Hok l Hl). lia.
Qed.

(** Writing to a location that was not yet allocated in [h1] keeps all
    the cells of [h1]. *)
Lemma agree_set_fresh h1 h' l o :
  heap_ok h1 → agree h1 h' → (next h1 ≤ l)%nat → agree h1 (set_cell h' l o).
Proof.
  intros Hok Ha Hl x y Hx. simpl. rewrite lookup_insert_ne; [by apply Ha|].
  intros <-. specialize (Hok l). rewrite Hx in Hok.
  specialize (Hok (ltac:(by eexists))). lia.
Qed.

(** The heart of the matter: a heap that extends a well-formed one holds
    the same store, and stays so when cells allocated later are written. *)
Lemma wf_agree self h1 h' :
  wf self h1 → agree h1 h' → heap_ok h' →
  wf self h' ∧
  ∀ l o k, (next h1 ≤ l)%nat →
    state_at self (set_cell h' l o) k = state_at self h' k.
Proof.
  intros (Hok & Hnd & Hst) Ha Hok'. split.
  - split_and!; [done..|].
    intros k. rewrite (state_at_agree self h1 h') by done. done.
  - intros l o k Hl.
    rewrite (state_at_agree self h1 (set_cell h' l o)),
            (state_at_agree self h1 h'); try done.
    by apply agree_set_fresh.
Qed.

(** *** Indexing a defaultdict of the store *)

Lemma dict_at_inv {A} (rd : pyheap → nat → option A) h root k v :
  dict_at rd h root k = Some v →
  ∃ d, cells h !! root = Some (ODict d) ∧
    match d !! k with
    | Some l => ∃ x, rd h l = Some x ∧ v = Some x
    | None => v = None
    end.
Proof.
  unfold dict_at. destruct (cells h !! root) as [[]|]; try done.
  intros Hv. eexists. split; [done|].
  destruct (d !! k) as [l|]; [|by injection Hv].
  destruct (rd h l) as [x|]; [|done]. injection Hv as <-. by eexists.
Qed.

Lemma read_items_get_items {A} (rd : pyheap → nat → option A) h l v :
  read_items rd h l = Some v → ∃ items, get_items h l = Ok items.
Proof.
  unfold read_items, get_items.
  destruct (cells h !! l) as [[]|]; try done; by eexists.
Qed.

Lemma read_items_empty {A} (rd : pyheap → nat → option A) h l o :
  cells h !! l = Some o → empty_container o → read_items rd h l = Some [].
Proof.
  intros Hl [->|[n ->]]; unfold read_items; by rewrite Hl.
Qed.

(** The dicts of a well-formed store, and the lists they hold. *)
Lemma wf_dicts self h k :
  wf self h →
  ∃ dp da dl dc,
    cells h !! process_data self = Some (ODict dp) ∧
    cells h !! alarm_data self = Some (ODict da) ∧
    cells h !! latest_process self = Some (ODict dl) ∧
    cells h !! active_alarms self = Some (ODict dc) ∧
    (∀ l, dp !! k = Some l → ∃ v, read_items read_process h l = Some v) ∧
    (∀ l, da !! k = Some l → ∃ v, read_items read_alarm h l = Some v) ∧
    (∀ l, dl !! k = Some l → ∃ v, read_process h l = Some v) ∧
    (∀ l, dc !! k = Some l → ∃ v, read_items read_alarm h l = Some v).
Proof.
  intros (_ & _ & Hst). destruct (Hst k) as [st Hk].
  apply state_at_Some in Hk as (H1 & H2 & H3 & H4).
  apply dict_at_inv in H1 as (dl & Hdl & H1).
  apply dict_at_inv in H2 as (dp & Hdp & H2).
  apply dict_at_inv in H3 as (da & Hda & H3).
  apply dict_at_inv in H4 as (dc & Hdc & H4).
  exists dp, da, dl, dc. split_and!; try done.
  - intros l Hl. rewrite Hl in H2. destruct H2 as (x & ? & _). by eexists.
  - intros l Hl. rewrite Hl in H3. destruct H3 as (x & ? & _). by eexists.
  - intros l Hl. rewrite Hl in H1. destruct H1 as (x & ? & _). by eexists.
  - intros l Hl. rewrite Hl in H4. destruct H4 as (x & ? & _). by eexists.
Qed.

Section Vivify.
Variables (self : store) (h : pyheap) (root : nat) (k : string)
          (d : gmap string nat) (o : obj).
Hypothesis Hwf : wf self h.
Hypothesis Hroot : cells h !! root = Some (ODict d).
Hypothesis Hk : d !! k = None.
Hypothesis Ho : empty_container o.

Let h1 : pyheap := set_cell (alloc h o).2 root (ODict (<[k := next h]> d)).

Lemma vivify_root_lt : (root < next h)%nat.
Proof. destruct Hwf as (Hok & _). apply Hok. by eexists. Qed.

Lemma vivify_same_data : same_data h h1.
Proof.
  intros l x Hl Hnd. subst h1; simpl.
  destruct Hwf as (Hok & _).
  rewrite lookup_insert_ne.
  - rewrite lookup_insert_ne; [done|]. intros <-.
    specialize (Hok (next h) ltac:(by eexists)). lia.
  - intros <-. rewrite Hroot in Hl. injection Hl as <-. by eapply Hnd.
Qed.

Lemma vivify_new_cell : cells h1 !! next h = Some o.
Proof.
  subst h1; simpl. pose proof vivify_root_lt.
  rewrite lookup_insert_ne by lia. apply lookup_insert_eq.
Qed.

Lemma vivify_heap_ok : heap_ok h1.
Proof.
  destruct Hwf as (Hok & _). intros l. subst h1; simpl.
  pose proof vivify_root_lt.
  rewrite !lookup_insert. repeat case_decide; try lia.
  intros Hl. specialize (Hok l Hl). lia.
Qed.

Lemma vivify_dict_at {A} (rd : pyheap → nat → option A) root' k' v :
  stable rd → dict_at rd h root' k' = Some v →
  (root' = root → is_Some (rd h1 (next h))) →
  is_Some (dict_at rd h1 root' k').
Proof.
  intros Hrd Hv Hnew. destruct (decide (root' = root)) as [->|Hne].
  - apply dict_at_inv in Hv as (d' & Hd' & Hv).
    rewrite Hroot in Hd'. injection Hd' as <-.
    unfold dict_at. replace (cells h1 !! root)
      with (Some (ODict (<[k := next h]> d)))
      by (subst h1; simpl; by rewrite lookup_insert_eq).
    rewrite lookup_insert. case_decide as Hkk.
    + destruct (Hnew eq_refl) as [x ->]. by eexists.
    + destruct (d !! k') as [l|]; [|by eexists].
      destruct Hv as (x & Hx & _).
      rewrite (Hrd _ _ _ _ vivify_same_data Hx). by eexists.
  - exists v. eapply dict_at_stable; [done|apply vivify_same_data| |done].
    apply dict_at_inv in Hv as (d' & Hd' & _).
    destruct Hwf as (Hok & _).
    subst h1; simpl. rewrite lookup_insert_ne by done.
    rewrite lookup_insert_ne; [done|]. intros <-.
    specialize (Hok (next h) ltac:(by eexists)). lia.
Qed.

Lemma vivify_wf :
  root ∈ [process_data self; alarm_data self; active_alarms self] →
  wf self h1.
Proof.
  intros Hin. pose proof Hwf as (Hok & Hnd & Hst).
  split_and!; [apply vivify_heap_ok|done|].
  assert (Hlatest : latest_process self ≠ root).
  { apply NoDup_cons in Hnd as [H1 Hnd]. apply NoDup_cons in Hnd as [H2 Hnd].
    apply NoDup_cons in Hnd as [H3 _].
    set_unfold. intros Heq.
    destruct Hin as [E|[E|E]]; intuition congruence. }
  assert (Hnew : ∀ {A} (rd : pyheap → nat → option A),
            is_Some (read_items rd h1 (next h))).
  { intros A rd. exists []. eapply read_items_empty; [apply vivify_new_cell|done]. }
  intros k'. destruct (Hst k') as [st Hk'].
  apply state_at_Some in Hk' as (H1 & H2 & H3 & H4).
  destruct (vivify_dict_at read_process _ _ _ read_process_stable H1) as [a Ha];
    [done|].
  destruct (vivify_dict_at (read_items read_process) _ _ _
              (read_items_stable _ read_process_stable) H2) as [b Hb];
    [intros _; apply Hnew|].
  destruct (vivify_dict_at (read_items read_alarm) _ _ _
              (read_items_stable _ read_alarm_stable) H3) as [c Hc];
    [intros _; apply Hnew|].
  destruct (vivify_dict_at (read_items read_alarm) _ _ _
              (read_items_stable _ read_alarm_stable) H4) as [e He];
    [intros _; apply Hnew|].
  exists (mk_state a b c e). by apply state_at_Some.
Qed.
End Vivify.

(** [d[k]] on one of the three defaultdicts whose values are lists or
    deques returns, keeps the store well formed, and yields a list or
    deque; every location allocated before stays below [next]. *)
Lemma getitem_wf self h factory root k o :
  wf self h → factory = Ok o → empty_container o →
  root ∈ [process_data self; alarm_data self; active_alarms self] →
  ∃ l h1 items,
    defaultdict_getitem factory root k h = Ok (l, h1) ∧ wf self h1 ∧
    get_items h1 l = Ok items ∧ items = items_at h1 root k ∧
    (next h ≤ next h1)%nat.
Proof.
  intros Hwf -> Ho Hin.
  destruct (wf_dicts self h k Hwf)
    as (dp & da & dl & dc & Hdp & Hda & Hdl & Hdc & Lp & La & _ & Lc).
  assert (∃ d, cells h !! root = Some (ODict d) ∧
               ∀ l, d !! k = Some l → ∃ items, get_items h l = Ok items)
    as (d & Hd & Hl).
  { set_unfold. destruct Hin as [-> | [-> | [-> | []]]]; eexists;
      (split; [done|]);
      intros l Hl.
    - destruct (Lp l Hl) as [v Hv]. by eapply read_items_get_items.
    - destruct (La l Hl) as [v Hv]. by eapply read_items_get_items.
    - destruct (Lc l Hl) as [v Hv]. by eapply read_items_get_items. }
  unfold defaultdict_getitem, get_dict. rewrite Hd. cbn [rbind].
  destruct (d !! k) as [l|] eqn:Hk.
  - destruct (Hl l eq_refl) as [items Hitems].
    exists l, h, items. split_and!; [done..| |done].
    unfold items_at, get_dict. by rewrite Hd, Hk, Hitems.
  - cbn [rbind alloc].
    pose proof (vivify_wf self h root k d o Hwf Hd Hk Ho Hin) as Hwf1.
    pose proof (vivify_new_cell self h root k d o Hwf Hd) as Hnew.
    simpl in Hnew.
    eexists _, _, []. split_and!; [done|exact Hwf1| | |simpl; lia].
    + unfold get_items. simpl. rewrite Hnew. by destruct Ho as [->|[n ->]].
    + unfold items_at, get_dict. simpl. rewrite lookup_insert_eq.
      rewrite lookup_insert_eq. unfold get_items.
      simpl. rewrite Hnew. by destruct Ho as [->|[n ->]].
Qed.

(** *** The accessors *)

Lemma get_items_agree h h' l items :
  agree h h' → get_items h l = Ok items → get_items h' l = Ok items.
Proof.
  intros Ha. unfold get_items.
  destruct (cells h !! l) as [o|] eqn:Hl; [|done].
  rewrite (Ha _ _ Hl). done.
Qed.

Lemma get_dict_agree h h' l d :
  agree h h' → get_dict h l = Ok d → get_dict h' l = Ok d.
Proof.
  intros Ha. unfold get_dict.
  destruct (cells h !! l) as [o|] eqn:Hl; [|done].
  rewrite (Ha _ _ Hl). done.
Qed.

Lemma wf_items_at self h root k :
  wf self h →
  root ∈ [process_data self; alarm_data self; active_alarms self] →
  ∃ d, get_dict h root = Ok d ∧
    match d !! k with
    | Some l => get_items h l = Ok (items_at h root k)
    | None => items_at h root k = []
    end.
Proof.
  intros Hwf Hin.
  destruct (wf_dicts self h k Hwf)
    as (dp & da & dl & dc & Hdp & Hda & Hdl & Hdc & Lp & La & _ & Lc).
  assert (∃ d, cells h !! root = Some (ODict d) ∧
               ∀ l, d !! k = Some l → ∃ items, get_items h l = Ok items)
    as (d & Hd & Hl).
  { set_unfold. destruct Hin as [-> | [-> | [-> | []]]]; eexists;
      (split; [done|]); intros l Hl.
    - destruct (Lp l Hl) as [v Hv]. by eapply read_items_get_items.
    - destruct (La l Hl) as [v Hv]. by eapply read_items_get_items.
    - destruct (Lc l Hl) as [v Hv]. by eapply read_items_get_items. }
  exists d. unfold items_at, get_dict. rewrite Hd. split; [done|].
  destruct (d !! k) as [l|]; [|done].
  destruct (Hl l eq_refl) as [items Hi]. by rewrite Hi.
Qed.

Lemma items_at_agree self h h' root k :
  wf self h →
  root ∈ [process_data self; alarm_data self; active_alarms self] →
  agree h h' → items_at h' root k = items_at h root k.
Proof.
  intros Hwf Hin Ha.
  destruct (wf_items_at self h root k Hwf Hin) as (d & Hd & Hk).
  unfold items_at at 1. rewrite (get_dict_agree _ _ _ _ Ha Hd).
  destruct (d !! k) as [l|]; [|done].
  by rewrite (get_items_agree _ _ _ _ Ha Hk).
Qed.

Lemma containers_of_list h res items :
  cells h !! res = Some (OList items) → containers_of h res = [res].
Proof. intros Hl. unfold containers_of. by rewrite Hl. Qed.

(** What an accessor that copies one list leaves: the new list [res]
    holds [items]; the store is as after the indexing. *)
Lemma copy_list_spec self h1 items :
  wf self h1 →
  let res := (alloc h1 (OList items)).1 in
  let h' := (alloc h1 (OList items)).2 in
  wf self h' ∧ independent_containers self h' res ∧ agree h1 h' ∧
  get_items h' res = Ok items ∧ cells h1 !! res = None.
Proof.
  intros Hwf res h'. pose proof Hwf as (Hok & _).
  pose proof (agree_alloc h1 (OList items) Hok) as Ha. fold h' in Ha.
  pose proof (alloc_ok h1 (OList items) Hok) as Hok'. fold h' in Hok'.
  destruct (wf_agree self h1 h' Hwf Ha Hok') as [Hwf' Hmut].
  assert (Hres : cells h' !! res = Some (OList items))
    by (subst h' res; simpl; apply lookup_insert_eq).
  split_and!; [done| |done| |].
  - intros l o k Hl. rewrite (containers_of_list _ _ _ Hres) in Hl.
    apply list_elem_of_singleton in Hl as ->. apply Hmut. subst res. simpl. lia.
  - unfold get_items. by rewrite Hres.
  - subst res; simpl. destruct (cells h1 !! next h1) eqn:Hl; [|done].
    specialize (Hok (next h1) ltac:(by eexists)). lia.
Qed.

Lemma py_get_machine_alarms_spec self h machine_id :
  wf self h →
  ∃ res h', get_machine_alarms self h machine_id = Ok (res, h') ∧
    wf self h' ∧ independent_containers self h' res ∧
    cells h !! res = None ∧
    get_items h' res = Ok (items_at h' (active_alarms self) machine_id).
Proof.
  intros Hwf.
  destruct (getitem_wf self h list_factory (active_alarms self) machine_id
              (OList []) Hwf eq_refl)
    as (l & h1 & items & Hg & Hwf1 & Hitems & Heq & Hnext).
  { by left. }
  { set_unfold. tauto. }
  unfold get_machine_alarms. rewrite Hg. cbn [rbind]. rewrite Hitems.
  cbn [rbind].
  destruct (copy_list_spec self h1 items Hwf1) as (Hwf' & Hind & Ha & Hres & Hnone).
  eexists _, _. split; [by rewrite (surjective_pairing (alloc h1 _))|].
  split_and!; [done..| |].
  - destruct (cells h !! (alloc h1 (OList items)).1) eqn:Hl; [|done].
    destruct Hwf as (Hok & _). specialize (Hok _ ltac:(by eexists)).
    simpl in Hok. lia.
  - rewrite Hres. f_equal. rewrite Heq at 1. symmetry.
    eapply items_at_agree; [done| |done]. set_unfold. tauto.
Qed.

Lemma py_get_history_spec self h root machine_id limit :
  wf self h → 0 ≤ max_history_size self →
  root ∈ [process_data self; alarm_data self] →
  ∃ res h', get_history (deque_factory self) root h machine_id limit
            = Ok (res, h') ∧
    wf self h' ∧ independent_containers self h' res ∧
    cells h !! res = None ∧
    get_items h' res = Ok (last_limit limit (items_at h' root machine_id)).
Proof.
  intros Hwf Hn Hin.
  assert (deque_factory self
          = Ok (ODeque [] (Z.to_nat (max_history_size self)))) as Hf.
  { unfold deque_factory. destruct (Z.ltb_spec (max_history_size self) 0);
      [lia|done]. }
  assert (Hin3 : root ∈ [process_data self; alarm_data self;
                         active_alarms self]) by (set_unfold; tauto).
  destruct (getitem_wf self h (deque_factory self) root machine_id _ Hwf Hf)
    as (l & h1 & items & Hg & Hwf1 & Hitems & Heq & Hnext);
    [right; by eexists|done|].
  unfold get_history. rewrite Hg. cbn [rbind]. rewrite Hitems. cbn [rbind].
  destruct (copy_list_spec self h1 items Hwf1)
    as (Hwf2 & Hind2 & Ha2 & Hres2 & Hnone2).
  rewrite (surjective_pairing (alloc h1 (OList items))).
  set (h2 := (alloc h1 (OList items)).2) in *.
  assert (Hold : ∀ l', (next h1 ≤ l')%nat → cells h !! l' = None).
  { intros l' Hl'. destruct (cells h !! l') eqn:Hc; [|done].
    destruct Hwf as (Hok & _). specialize (Hok _ ltac:(by eexists)). lia. }
  unfold last_limit. destruct (Z.eqb_spec limit 0) as [Hz|Hz].
  - eexists _, _. split; [done|]. split_and!; [done..| |].
    + apply Hold. simpl. lia.
    + rewrite Hres2. f_equal. rewrite Heq at 1. symmetry.
      by eapply items_at_agree.
  - destruct (copy_list_spec self h2 (slice_from (- limit) items) Hwf2)
      as (Hwf3 & Hind3 & Ha3 & Hres3 & Hnone3).
    eexists _, _. split; [by rewrite (surjective_pairing (alloc h2 _))|].
    split_and!; [done..| |].
    + apply Hold. simpl. lia.
    + rewrite Hres3. do 2 f_equal. rewrite Heq at 1. symmetry.
      eapply items_at_agree; [done..|]. by eapply agree_trans.
Qed.

Lemma py_get_latest_process_data_spec self h :
  wf self h →
  ∃ res h' d, get_latest_process_data self h = Ok (res, h') ∧
    wf self h' ∧ independent_containers self h' res ∧
    cells h !! res = None ∧
    get_dict h' res = Ok d ∧ get_dict h' (latest_process self) = Ok d.
Proof.
  intros Hwf. pose proof Hwf as (Hok & _).
  assert (∃ d, cells h !! latest_process self = Some (ODict d) ∧
               ∀ k l, d !! k = Some l → ∃ v, read_process h l = Some v)
    as (d & Hd & Hvals).
  { destruct (wf_dicts self h "" Hwf) as (_ & _ & dl & _ & _ & _ & Hdl & _).
    exists dl. split; [done|]. intros k l Hl.
    destruct (wf_dicts self h k Hwf)
      as (_ & _ & dl' & _ & _ & _ & Hdl' & _ & _ & _ & Lk & _).
    rewrite Hdl in Hdl'. injection Hdl' as <-. by apply Lk. }
  unfold get_latest_process_data, get_dict. rewrite Hd. cbn [rbind].
  pose proof (agree_alloc h (ODict d) Hok) as Ha.
  pose proof (alloc_ok h (ODict d) Hok) as Hok'.
  destruct (wf_agree self h _ Hwf Ha Hok') as [Hwf' Hmut].
  assert (Hres : cells (alloc h (ODict d)).2 !! (alloc h (ODict d)).1
                 = Some (ODict d)) by (simpl; apply lookup_insert_eq).
  eexists _, _, d. split; [by rewrite (surjective_pairing (alloc h _))|].
  split_and!; [done| | | |].
  - intros l o k Hl. unfold containers_of in Hl. rewrite Hres in Hl.
    apply elem_of_cons in Hl as [->|Hl]; [apply Hmut; simpl; lia|].
    apply list_elem_of_filter in Hl as [Hlist Hl].
    apply list_elem_of_fmap in Hl as ([k' l'] & -> & Hl). simpl in *.
    apply elem_of_map_to_list in Hl.
    destruct (Hvals k' l' Hl) as [v Hv]. unfold read_process in Hv.
    destruct (cells h !! l') as [x|] eqn:Hx; [|done].
    pose proof (Ha _ _ Hx) as Hx'. simpl in Hx'. rewrite Hx' in Hlist.
    by destruct x.
  - simpl. destruct (cells h !! next h) eqn:Hl; [|done].
    specialize (Hok _ ltac:(by eexists)). lia.
  - by rewrite Hres.
  - by rewrite (Ha _ _ Hd).
Qed.

Lemma py_get_machine_process_data_spec self h machine_id :
  wf self h →
  ∃ d, get_dict h (latest_process self) = Ok d ∧
    get_machine_process_data self h machine_id = Ok (d !! machine_id, h).
Proof.
  intros Hwf.
  destruct (wf_dicts self h machine_id Hwf) as (_ & _ & dl & _ & _ & _ & Hdl & _).
  exists dl. unfold get_machine_process_data, get_dict. by rewrite Hdl.
Qed.

(** The copies made for [get_active_alarms]: one new list for each value,
    with the items of that value. *)
Lemma copy_values_spec kvs h :
  heap_ok h →
  (∀ k v, (k, v) ∈ kvs → ∃ items, get_items h v = Ok items) →
  ∃ copies h', copy_values kvs h = Ok (copies, h') ∧
    agree h h' ∧ heap_ok h' ∧ (next h ≤ next h')%nat ∧
    Forall2 (λ kv kc, kv.1 = kc.1 ∧ (next h ≤ kc.2)%nat ∧
                      ∃ items, get_items h' kv.2 = Ok items ∧
                               cells h' !! kc.2 = Some (OList items))
      kvs copies.
Proof.
  revert h. induction kvs as [|[k v] kvs IH]; intros h Hok Hvals; simpl.
  { exists [], h. split_and!; [done|apply agree_refl|done|lia|constructor]. }
  destruct (Hvals k v) as [items Hitems]; [left|].
  rewrite Hitems. cbn [rbind].
  pose proof (agree_alloc h (OList items) Hok) as Ha.
  pose proof (alloc_ok h (OList items) Hok) as Hok1.
  destruct (IH (mk_heap (<[next h := OList items]> (cells h)) (S (next h))))
    as (copies & h' & Hrun & Ha' & Hok' & Hnext & Hall).
  { exact Hok1. }
  { intros k' v' Hin. destruct (Hvals k' v') as [it Hit]; [by right|].
    exists it. by eapply get_items_agree. }
  rewrite Hrun. cbn [rbind].
  eexists _, _. split; [done|]. simpl in Hnext.
  split_and!; [by eapply agree_trans|done|lia|].
  constructor.
  - simpl. split_and!; [done..|]. exists items. split.
    + eapply get_items_agree; [|exact Hitems]. by eapply agree_trans.
    + apply Ha'. simpl. apply lookup_insert_eq.
  - eapply Forall2_impl; [exact Hall|]. simpl.
    intros [k1 v1] [k2 c2] (Hk & Hc & it & Hit & Hcell). simpl in *.
    split_and!; [done|lia|]. by exists it.
Qed.

Lemma py_get_active_alarms_spec self h :
  wf self h →
  ∃ res h' copies d, get_active_alarms self h = Ok (res, h') ∧
    wf self h' ∧ independent_containers self h' res ∧
    cells h !! res = None ∧
    get_dict h' res = Ok copies ∧
    get_dict h' (active_alarms self) = Ok d ∧
    dom copies = dom d ∧
    ∀ k, items_at h' res k = items_at h' (active_alarms self) k.
Proof.
  intros Hwf. pose proof Hwf as (Hok & _).
  assert (∃ d, cells h !! active_alarms self = Some (ODict d) ∧
               ∀ k l, d !! k = Some l → ∃ items, get_items h l = Ok items)
    as (d & Hd & Hvals).
  { destruct (wf_dicts self h "" Hwf) as (_ & _ & _ & dc & _ & _ & _ & Hdc & _).
    exists dc. split; [done|]. intros k l Hl.
    destruct (wf_dicts self h k Hwf)
      as (_ & _ & _ & dc' & _ & _ & _ & Hdc' & _ & _ & _ & Lk).
    rewrite Hdc in Hdc'. injection Hdc' as <-.
    destruct (Lk l Hl) as [v Hv]. by eapply read_items_get_items. }
  unfold get_active_alarms, get_dict at 1. rewrite Hd. cbn [rbind].
  destruct (copy_values_spec (map_to_list d) h Hok)
    as (copies & h1 & Hrun & Ha1 & Hok1 & Hnext1 & Hall).
  { intros k v Hin. apply elem_of_map_to_list in Hin. by eapply Hvals. }
  rewrite Hrun. cbn [rbind].
  pose proof (agree_alloc h1 (ODict (list_to_map copies)) Hok1) as Ha2.
  pose proof (alloc_ok h1 (ODict (list_to_map copies)) Hok1) as Hok2.
  set (h' := (alloc h1 (ODict (list_to_map copies))).2) in *.
  assert (Ha : agree h h') by by eapply agree_trans.
  destruct (wf_agree self h h' Hwf Ha Hok2) as [Hwf' Hmut].
  assert (Hres : cells h' !! next h1 = Some (ODict (list_to_map copies)))
    by (subst h'; simpl; apply lookup_insert_eq).
  assert (Hkeys : copies.*1 = (map_to_list d).*1).
  { clear -Hall. induction Hall as [|kv kc l1 l2 (Hk & _) _ IH]; [done|].
    rewrite !fmap_cons. by rewrite IH, Hk. }
  assert (Hnd : NoDup copies.*1)
    by (rewrite Hkeys; apply NoDup_fst_map_to_list).
  assert (Hcopy : ∀ k c, (list_to_map copies : gmap string nat) !! k = Some c →
            (next h ≤ c)%nat ∧
            ∃ v items, d !! k = Some v ∧ get_items h' v = Ok items ∧
                       cells h' !! c = Some (OList items)).
  { intros k c Hkc. apply elem_of_list_to_map in Hkc; [|done].
    apply list_elem_of_lookup in Hkc as [i Hi].
    destruct (Forall2_lookup_r _ _ _ _ _ Hall Hi)
      as ([k1 v1] & Hkv & Hk & Hc & items & Hit & Hcell).
    simpl in Hk, Hc, Hit, Hcell. subst k1.
    split; [done|]. exists v1, items. split_and!.
    - apply elem_of_map_to_list, list_elem_of_lookup. by exists i.
    - exact (get_items_agree _ _ _ _ Ha2 Hit).
    - by apply Ha2. }
  assert (Hdom : dom (list_to_map copies : gmap string nat) = dom d).
  { rewrite dom_list_to_map_L, Hkeys, <- dom_list_to_map_L.
    by rewrite list_to_map_to_list. }
  exists (next h1), h', (list_to_map copies), d.
  split; [done|]. split_and!; [done| | | | | |].
  - intros l o k Hl. apply Hmut. unfold containers_of in Hl.
    rewrite Hres in Hl. apply elem_of_cons in Hl as [->|Hl]; [lia|].
    apply list_elem_of_filter in Hl as [_ Hl].
    apply list_elem_of_fmap in Hl as ([k' c] & -> & Hl). simpl.
    apply elem_of_map_to_list in Hl. by destruct (Hcopy k' c Hl).
  - destruct (cells h !! next h1) eqn:Hl; [|done].
    specialize (Hok _ ltac:(by eexists)). lia.
  - unfold get_dict. by rewrite Hres.
  - unfold get_dict. by rewrite (Ha _ _ Hd).
  - exact Hdom.
  - intros k. unfold items_at, get_dict. rewrite Hres, (Ha _ _ Hd).
    destruct ((list_to_map copies : gmap string nat) !! k) as [c|] eqn:Hc.
    + destruct (Hcopy k c Hc) as (_ & v & items & Hv & Hit & Hcell).
      rewrite Hv, Hit. unfold get_items. by rewrite Hcell.
    + apply not_elem_of_dom in Hc. rewrite Hdom in Hc.
      apply not_elem_of_dom in Hc. by rewrite Hc.
Qed.

End PyFacts.

Lemma py_example_wf : Py.wf Py.example_store Py.example_heap.
Proof.
  split_and!.
  - intros l [o Hl]. unfold Py.example_heap in Hl. simpl in Hl.
    repeat (rewrite lookup_insert in Hl; case_decide; [subst; simpl; lia|]).
    by rewrite lookup_empty in Hl.
  - simpl. apply NoDup_ListNoDup. repeat constructor; simpl; lia.
  - intros k.
    assert (Py.cells Py.example_heap !! 0%nat = Some (Py.ODict {[ "M1" := 6%nat ]}))
      as H0 by reflexivity.
    assert (Py.cells Py.example_heap !! 1%nat = Some (Py.ODict {[ "M1" := 7%nat ]}))
      as H1 by reflexivity.
    assert (Py.cells Py.example_heap !! 2%nat = Some (Py.ODict {[ "M1" := 4%nat ]}))
      as H2 by reflexivity.
    assert (Py.cells Py.example_heap !! 3%nat = Some (Py.ODict {[ "M1" := 8%nat ]}))
      as H3 by reflexivity.
    destruct (decide (k = "M1")) as [->|Hne]; [by eexists|].
    unfold Py.state_at, Py.dict_at. simpl Py.latest_process.
    simpl Py.process_data. simpl Py.alarm_data. simpl Py.active_alarms.
    rewrite H0, H1, H2, H3, !lookup_singleton_ne by done. by eexists.
Qed.

(** C8, the claim as stated fails: the list that [get_machine_alarms]
    returns for M1 holds the very alarm object of the store's active
    list, and an assignment to a field of that object changes what the
    store holds for M1. *)
Lemma returned_alarm_is_shared :
  ∃ res h',
    Py.get_machine_alarms Py.example_store Py.example_heap "M1" = Ok (res, h') ∧
    ¬ Py.independent_copy Py.example_store h' res.
Proof.
  eexists _, _. split; [reflexivity|]. intros Hcopy.
  specialize (Hcopy 5%nat
                (Py.OAlarm (AlarmData.set_acknowledgment
                              (alarm_A1 CRITICAL "overheating" false) "caller" 7))
                "M1").
  assert (Hdiff : Py.s_active <$> Py.state_at Py.example_store
                    (Py.set_cell
                       (Py.alloc Py.example_heap (Py.OList [5%nat])).2 5%nat
                       (Py.OAlarm (AlarmData.set_acknowledgment
                          (alarm_A1 CRITICAL "overheating" false) "caller" 7)))
                    "M1"
                  ≠ Py.s_active <$> Py.state_at Py.example_store
                      (Py.alloc Py.example_heap (Py.OList [5%nat])).2 "M1")
    by (vm_compute; discriminate).
  apply Hdiff. f_equal. apply Hcopy.
  right; right. exists 9%nat, [5%nat]. split_and!.
  - left.
  - reflexivity.
  - left.
Qed.

(** C8, amended.  On a heap that holds a store of non-negative capacity,
    every snapshot accessor that returns a collection
    ([get_latest_process_data], [get_process_history], [get_alarm_history],
    [get_active_alarms], [get_machine_alarms]) returns; what it returns is
    a newly allocated dict or list (for [get_active_alarms] a new dict of
    new lists), and no change made to these new containers changes the
    state of the store.  The copy is shallow: the new containers hold the
    locations of the store's own samples and alarms (the items of the
    machine's list or history, cut to the limit; the values of the latest
    cache), and [get_machine_process_data] returns the location of the
    stored sample itself. *)
Theorem snapshot_accessors_copy_containers (self : Py.store) (h : Py.pyheap)
    (machine_id : string) (limit : Z) :
  Py.wf self h → 0 ≤ Py.max_history_size self →
  (∃ res h' d, Py.get_latest_process_data self h = Ok (res, h') ∧
     Py.wf self h' ∧ Py.independent_containers self h' res ∧
     Py.cells h !! res = None ∧
     Py.get_dict h' res = Ok d ∧
     Py.get_dict h' (Py.latest_process self) = Ok d) ∧
  (∃ d, Py.get_dict h (Py.latest_process self) = Ok d ∧
     Py.get_machine_process_data self h machine_id
     = Ok (d !! machine_id, h)) ∧
  (∃ res h', Py.get_process_history self h machine_id limit = Ok (res, h') ∧
     Py.wf self h' ∧ Py.independent_containers self h' res ∧
     Py.cells h !! res = None ∧
     Py.get_items h' res
     = Ok (last_limit limit
             (Py.items_at h' (Py.process_data self) machine_id))) ∧
  (∃ res h', Py.get_alarm_history self h machine_id limit = Ok (res, h') ∧
     Py.wf self h' ∧ Py.independent_containers self h' res ∧
     Py.cells h !! res = None ∧
     Py.get_items h' res
     = Ok (last_limit limit
             (Py.items_at h' (Py.alarm_data self) machine_id))) ∧
  (∃ res h' copies d, Py.get_active_alarms self h = Ok (res, h') ∧
     Py.wf self h' ∧ Py.independent_containers self h' res ∧
     Py.cells h !! res = None ∧
     Py.get_dict h' res = Ok copies ∧
     Py.get_dict h' (Py.active_alarms self) = Ok d ∧
     dom copies = dom d ∧
     ∀ k, Py.items_at h' res k = Py.items_at h' (Py.active_alarms self) k) ∧
  (∃ res h', Py.get_machine_alarms self h machine_id = Ok (res, h') ∧
     Py.wf self h' ∧ Py.independent_containers self h' res ∧
     Py.cells h !! res = None ∧
     Py.get_items h' res
     = Ok (Py.items_at h' (Py.active_alarms self) machine_id)).
Proof.
  intros Hwf Hn. split_and!.
  - by apply PyFacts.py_get_latest_process_data_spec.
  - by apply PyFacts.py_get_machine_process_data_spec.
  - apply PyFacts.py_get_history_spec; [done..|]. set_unfold. tauto.
  - apply PyFacts.py_get_history_spec; [done..|]. set_unfold. tauto.
  - by apply PyFacts.py_get_active_alarms_spec.
  - by apply PyFacts.py_get_machine_alarms_spec.
Qed.

Lemma snapshot_accessors_copy_containers_witness :
  (∃ res h' d,
     Py.get_latest_process_data Py.example_store Py.example_heap
     = Ok (res, h') ∧
     Py.wf Py.example_store h' ∧
     Py.independent_containers Py.example_store h' res ∧
     Py.cells Py.example_heap !! res = None ∧
     Py.get_dict h' res = Ok d ∧
     Py.get_dict h' (Py.latest_process Py.example_store) = Ok d) ∧
  (∃ d, Py.get_dict Py.example_heap (Py.latest_process Py.example_store)
        = Ok d ∧
     Py.get_machine_process_data Py.example_store Py.example_heap "M1"
     = Ok (d !! "M1", Py.example_heap)) ∧
  (∃ res h',
     Py.get_process_history Py.example_store Py.example_heap "M1" 100
     = Ok (res, h') ∧
     Py.wf Py.example_store h' ∧
     Py.independent_containers Py.example_store h' res ∧
     Py.cells Py.example_heap !! res = None ∧
     Py.get_items h' res
     = Ok (last_limit 100
             (Py.items_at h' (Py.process_data Py.example_store) "M1"))) ∧
  (∃ res h',
     Py.get_alarm_history Py.example_store Py.example_heap "M1" 100
     = Ok (res, h') ∧
     Py.wf Py.example_store h' ∧
     Py.independent_containers Py.example_store h' res ∧
     Py.cells Py.example_heap !! res = None ∧
     Py.get_items h' res
     = Ok (last_limit 100
             (Py.items_at h' (Py.alarm_data Py.example_store) "M1"))) ∧
  (∃ res h' copies d,
     Py.get_active_alarms Py.example_store Py.example_heap = Ok (res, h') ∧
     Py.wf Py.example_store h' ∧
     Py.independent_containers Py.example_store h' res ∧
     Py.cells Py.example_heap !! res = None ∧
     Py.get_dict h' res = Ok copies ∧
     Py.get_dict h' (Py.active_alarms Py.example_store) = Ok d ∧
     dom copies = dom d ∧
     ∀ k, Py.items_at h' res k
          = Py.items_at h' (Py.active_alarms Py.example_store) k) ∧
  (∃ res h',
     Py.get_machine_alarms Py.example_store Py.example_heap "M1"
     = Ok (res, h') ∧
     Py.wf Py.example_store h' ∧
     Py.independent_containers Py.example_store h' res ∧
     Py.cells Py.example_heap !! res = None ∧
     Py.get_items h' res
     = Ok (Py.items_at h' (Py.active_alarms Py.example_store) "M1")).
Proof.
  apply (snapshot_accessors_copy_containers Py.example_store Py.example_heap
           "M1" 100).
  - exact py_example_wf.
  - simpl. lia.
Defined.

(** On the example: [get_active_alarms] returns the new dict 10 whose
    value for M1 is the new list 9, and that list holds the alarm 5 that
    the store's own list 8 holds. *)
Example get_active_alarms_shallow :
  ∃ h', Py.get_active_alarms Py.example_store Py.example_heap = Ok (10%nat, h') ∧
    Py.cells h' !! 10%nat = Some (Py.ODict {[ "M1" := 9%nat ]}) ∧
    Py.cells h' !! 9%nat = Some (Py.OList [5%nat]) ∧
    Py.cells h' !! 8%nat = Some (Py.OList [5%nat]).
Proof. eexists. split; [reflexivity|]. split_and!; reflexivity. Qed.

(* ===================================================================== *)
(** * Further properties *)
(* ===================================================================== *)

(** ** What each operation does to the store *)

Lemma history_of_insert {A} (d : gmap string (deque A)) mid dq m :
  history_of (<[mid := dq]> d) m
  = if decide (mid = m) then items dq else history_of d m.
Proof.
  unfold history_of. rewrite lookup_insert. by case_decide.
Qed.

(** [d[k]] on a history dict: the deque it yields holds the machine's
    items, and the dict shows the same histories as before. *)
Lemma getitem_view {A} st mid (d d' : gmap string (deque A)) dq :
  defaultdict_getitem (history_factory st) mid d = Ok (dq, d') →
  items dq = history_of d mid ∧
  (∀ m, history_of d' m = history_of d m) ∧
  (d' !! mid = Some dq) ∧
  (d !! mid = None → 0 ≤ max_history_size st
                     ∧ maxlen dq = Z.to_nat (max_history_size st)) ∧
  ∀ x, <[mid := deque_append dq x]> d' = <[mid := deque_append dq x]> d.
Proof.
  unfold defaultdict_getitem, history_factory, deque_new, history_of.
  destruct (d !! mid) as [dq0|] eqn:Hl.
  - intros [= <- <-]. rewrite Hl. by split_and!.
  - destruct (Z.ltb_spec (max_history_size st) 0); simpl; [done|].
    intros [= <- <-]. split_and!; simpl; [done| | |done|].
    + intros m. rewrite lookup_insert. case_decide; [subst|done].
      by rewrite Hl.
    + apply lookup_insert_eq.
    + intros x. apply insert_insert_eq.
Qed.

Lemma add_process_data_Ok st x st' :
  add_process_data st x = Ok st' →
  ∃ dq, items dq = history_of (process_data st) (ProcessData.machine_id x) ∧
    (process_data st !! ProcessData.machine_id x = None →
       maxlen dq = Z.to_nat (max_history_size st)) ∧
    (∀ dq0, process_data st !! ProcessData.machine_id x = Some dq0 → dq = dq0) ∧
    st' = set_latest_process
            (set_process_data st
               (<[ProcessData.machine_id x := deque_append dq x]>
                  (process_data st)))
            (<[ProcessData.machine_id x := x]> (latest_process st)).
Proof.
  unfold add_process_data. intros Hadd. open_getitem Hadd.
  injection Hadd as <-.
  destruct (getitem_view _ _ _ _ _ Hg) as (Hi & _ & Hl & Hn & Hins).
  exists dq. split_and!; [done| | |by rewrite Hins].
  - intros Hnone. by apply Hn.
  - intros dq0 Hsome. unfold defaultdict_getitem in Hg. rewrite Hsome in Hg.
    by injection Hg as <- _.
Qed.

Lemma add_status_data_Ok st x st' :
  add_status_data st x = Ok st' →
  ∃ dq, items dq = history_of (status_data st) (StatusData.machine_id x) ∧
    (status_data st !! StatusData.machine_id x = None →
       maxlen dq = Z.to_nat (max_history_size st)) ∧
    (∀ dq0, status_data st !! StatusData.machine_id x = Some dq0 → dq = dq0) ∧
    st' = set_latest_status
            (set_status_data st
               (<[StatusData.machine_id x := deque_append dq x]>
                  (status_data st)))
            (<[StatusData.machine_id x := x]> (latest_status st)).
Proof.
  unfold add_status_data. intros Hadd. open_getitem Hadd.
  injection Hadd as <-.
  destruct (getitem_view _ _ _ _ _ Hg) as (Hi & _ & Hl & Hn & Hins).
  exists dq. split_and!; [done| | |by rewrite Hins].
  - intros Hnone. by apply Hn.
  - intros dq0 Hsome. unfold defaultdict_getitem in Hg. rewrite Hsome in Hg.
    by injection Hg as <- _.
Qed.

Lemma add_ml_alert_Ok st x st' :
  add_ml_alert st x = Ok st' →
  ∃ dq, items dq = history_of (ml_alerts st) (MLAlert.machine_id x) ∧
    st' = set_ml_alerts st
            (<[MLAlert.machine_id x := deque_append dq x]> (ml_alerts st)).
Proof.
  unfold add_ml_alert. intros Hadd. open_getitem Hadd.
  injection Hadd as <-.
  destruct (getitem_view _ _ _ _ _ Hg) as (Hi & _ & Hl & Hn & Hins).
  exists dq. split; [done|]. by rewrite Hins.
Qed.

Lemma add_command_Ok st x st' :
  add_command st x = Ok st' →
  ∃ dq, items dq = history_of (commands st) (ControlCommand.machine_id x) ∧
    st' = set_commands st
            (<[ControlCommand.machine_id x := deque_append dq x]> (commands st)).
Proof.
  unfold add_command. intros Hadd. open_getitem Hadd.
  injection Hadd as <-.
  destruct (getitem_view _ _ _ _ _ Hg) as (Hi & _ & Hl & Hn & Hins).
  exists dq. split; [done|]. by rewrite Hins.
Qed.

(** The accessors that index a history dict leave every history, hence
    every view of the store, as it was. *)
Lemma get_history_views st :
  (∀ m k r, get_process_history st m k = Ok r →
     ∃ d, r.2 = set_process_data st d ∧
          ∀ m', history_of d m' = history_of (process_data st) m') ∧
  (∀ m k r, get_alarm_history st m k = Ok r →
     ∃ d, r.2 = set_alarm_data st d ∧
          ∀ m', history_of d m' = history_of (alarm_data st) m') ∧
  (∀ m k r, get_machine_ml_alerts st m k = Ok r →
     ∃ d, r.2 = set_ml_alerts st d ∧
          ∀ m', history_of d m' = history_of (ml_alerts st) m') ∧
  (∀ m st', get_machine_details_touch st m = Ok st' →
     ∃ d1 d2, st' = set_ml_alerts (set_alarm_data st d1) d2 ∧
          (∀ m', history_of d1 m' = history_of (alarm_data st) m') ∧
          (∀ m', history_of d2 m' = history_of (ml_alerts st) m')).
Proof.
  split_and!.
  - intros m k r Hget. unfold get_process_history in Hget. open_getitem Hget.
    injection Hget as <-. eexists. split; [done|].
    by destruct (getitem_view _ _ _ _ _ Hg) as (_ & ? & _).
  - intros m k r Hget. unfold get_alarm_history in Hget. open_getitem Hget.
    injection Hget as <-. eexists. split; [done|].
    by destruct (getitem_view _ _ _ _ _ Hg) as (_ & ? & _).
  - intros m k r Hget. unfold get_machine_ml_alerts in Hget. open_getitem Hget.
    injection Hget as <-. eexists. split; [done|].
    by destruct (getitem_view _ _ _ _ _ Hg) as (_ & ? & _).
  - intros m st' Hget. unfold get_machine_details_touch in Hget.
    open_getitem Hget. simpl in Hget. open_getitem Hget.
    injection Hget as <-. eexists _, _. split; [done|].
    destruct (getitem_view _ _ _ _ _ Hg) as (_ & ? & _).
    unfold history_factory in Hg0. simpl in Hg0.
    change (deque_new (max_history_size st))
      with (history_factory (A := MLAlert.t) st) in Hg0.
    by destruct (getitem_view _ _ _ _ _ Hg0) as (_ & ? & _).
Qed.

(** ** The latest-value caches and the histories *)

Lemma deque_append_last {A} (d : deque A) x :
  (0 < maxlen d)%nat → last (items (deque_append d x)) = Some x.
Proof.
  intros Hm. rewrite deque_append_items. case_decide.
  - apply last_snoc.
  - destruct (items d) as [|y l] eqn:Hl; simpl in *; [lia|].
    rewrite drop_0. apply last_snoc.
Qed.

Lemma acknowledge_resolve_store st h m a u now :
  (∃ aa, (acknowledge_alarm st h m a u now).1.2 = set_active_alarms st aa) ∧
  (∃ aa, (resolve_alarm st h m a u now).1.2 = set_active_alarms st aa) ∧
  (∃ aa, (get_machine_alarms st m).2 = set_active_alarms st aa).
Proof.
  rewrite acknowledge_alarm_eq, resolve_alarm_eq.
  assert (∃ aa, (get_machine_alarms st m).2 = set_active_alarms st aa) as Hg.
  { unfold get_machine_alarms. destruct (active_getitem st m). by eexists. }
  destruct (find_alarm h a (active_of st m)); simpl; split_and!;
    try done; by eexists.
Qed.

Lemma maxlen_of_inv {A} n st (d : gmap string (deque A)) mid dq :
  max_history_size st = n → 0 < n → map_Forall (λ _, deque_ok n) d →
  (d !! mid = None → maxlen dq = Z.to_nat (max_history_size st)) →
  (∀ dq0, d !! mid = Some dq0 → dq = dq0) →
  (0 < maxlen dq)%nat.
Proof.
  intros Hmax Hn Hd Hnew Hold. destruct (d !! mid) as [dq0|] eqn:Hl.
  - rewrite (Hold dq0 eq_refl). destruct (Hd mid dq0 Hl) as (_ & -> & _). lia.
  - rewrite Hnew by done. lia.
Qed.

Lemma exec_latest_ok n o w w' :
  inv n w → 0 < n → latest_ok w.1 → exec o w = Ok w' → latest_ok w'.1.
Proof.
  destruct w as [st h]. intros (Hmax & (Hp & Ha & Hs & Hm & Hc) & Hu) Hn Hl Hex.
  simpl in *. rewrite Hmax in Hp, Hs.
  destruct (get_history_views st) as (G1 & G2 & G3 & G4).
  destruct o; simpl in Hex.
  - destruct (add_process_data st data) eqn:E; simpl in Hex; [|done].
    injection Hex as <-. simpl.
    apply add_process_data_Ok in E as (dq & Hit & Hnew & Hold & ->).
    pose proof (maxlen_of_inv n st _ _ dq Hmax Hn Hp Hnew Hold) as Hpos.
    intros m. destruct (Hl m) as [H1 H2]. simpl.
    rewrite history_of_insert, lookup_insert. split; [|done].
    case_decide; [|done]. by apply deque_append_last.
  - destruct (add_alarm_data st h data) eqn:E; simpl in Hex; [|done].
    injection Hex as <-. simpl.
    apply add_alarm_data_Ok in E as (_ & E2 & E3 & _ & _ & E6 & E7 & _).
    intros m. unfold latest_ok in Hl. by rewrite E2, E3, E6, E7.
  - destruct (add_status_data st data) eqn:E; simpl in Hex; [|done].
    injection Hex as <-. simpl.
    apply add_status_data_Ok in E as (dq & Hit & Hnew & Hold & ->).
    pose proof (maxlen_of_inv n st _ _ dq Hmax Hn Hs Hnew Hold) as Hpos.
    intros m. destruct (Hl m) as [H1 H2]. simpl.
    rewrite history_of_insert, lookup_insert. split; [done|].
    case_decide; [|done]. by apply deque_append_last.
  - destruct (add_ml_alert st alert) eqn:E; simpl in Hex; [|done].
    injection Hex as <-. simpl.
    by apply add_ml_alert_Ok in E as (dq & _ & ->).
  - destruct (add_command st command) eqn:E; simpl in Hex; [|done].
    injection Hex as <-. simpl.
    by apply add_command_Ok in E as (dq & _ & ->).
  - destruct (get_process_history st machine_id limit) eqn:E; simpl in Hex; [|done].
    injection Hex as <-. simpl. destruct (G1 _ _ _ E) as (d & -> & Hd).
    intros m. simpl. rewrite Hd. apply Hl.
  - injection Hex as <-. simpl.
    destruct (acknowledge_resolve_store st h machine_id "" "" 0)
      as (_ & _ & aa & ->). done.
  - destruct (get_alarm_history st machine_id limit) eqn:E; simpl in Hex; [|done].
    injection Hex as <-. simpl. by destruct (G2 _ _ _ E) as (d & -> & Hd).
  - destruct (get_machine_ml_alerts st machine_id now) eqn:E; simpl in Hex; [|done].
    injection Hex as <-. simpl. by destruct (G3 _ _ _ E) as (d & -> & Hd).
  - destruct (get_machine_details_touch st machine_id) eqn:E; simpl in Hex; [|done].
    injection Hex as <-. simpl. by destruct (G4 _ _ E) as (d1 & d2 & -> & _).
  - destruct (acknowledge_resolve_store st h machine_id alarm_id user_id now)
      as ((aa & Haa) & _).
    destruct (acknowledge_alarm st h machine_id alarm_id user_id now)
      as [[b st1] h1]. injection Hex as <-. simpl in *. by subst st1.
  - destruct (acknowledge_resolve_store st h machine_id alarm_id user_id now)
      as (_ & (aa & Haa) & _).
    destruct (resolve_alarm st h machine_id alarm_id user_id now)
      as [[b st1] h1]. injection Hex as <-. simpl in *. by subst st1.
  - destruct (cleanup_old_data st now max_age_hours) eqn:E; simpl in Hex; [|done].
    injection Hex as <-. simpl. unfold cleanup_old_data in E.
    case_bool_decide; [by injection E as <-|].
    destruct (deque_new (max_history_size st)); simpl in E; [|done].
    by injection E as <-.
Qed.

(** A property that holds initially and that every returning operation
    preserves on worlds satisfying the invariants holds in every reachable
    world. *)
Lemma reachable_induction (P : world → Prop) n :
  (∀ h, P (init n, h)) →
  (∀ o w w', inv n w → P w → exec o w = Ok w' → P w') →
  ∀ w, reachable n w → P w.
Proof.
  intros Hinit Hstep w (h0 & ops & ->).
  assert (∀ w0, inv n w0 → P w0 → P (run ops w0)) as Hrun.
  { unfold run. induction ops as [|o ops IH]; intros w0 Hi Hp; simpl; [done|].
    apply IH; [by apply step_inv|].
    unfold step. destruct (exec o w0) eqn:E; [|done]. by eapply Hstep. }
  apply Hrun; [apply init_inv|apply Hinit].
Qed.

(** X1.  In every world reachable from a store of positive capacity,
    whatever operations were called, the latest process sample of a
    machine is the newest item of its process history, and its latest
    status the newest item of its status history (a machine has neither
    or both). *)
Theorem latest_is_newest_history_item (n : Z) (st : DataStore) (h : heap)
    (machine_id : string) :
  reachable n (st, h) → 0 < n →
  get_machine_process_data st machine_id
    = last (history_of (process_data st) machine_id) ∧
  get_machine_status st machine_id
    = last (history_of (status_data st) machine_id).
Proof.
  intros Hr Hn.
  assert (latest_ok st) as Hl.
  { refine (reachable_induction (λ w, latest_ok w.1) n _ _ (st, h) Hr).
    - intros h0 m. by split.
    - intros o w w' Hi Hp Hex. by eapply exec_latest_ok. }
  destruct (Hl machine_id) as [-> ->]. done.
Qed.

Lemma latest_is_newest_history_item_witness :
  get_machine_process_data busy_world.1 "M1"
    = last (history_of (process_data busy_world.1) "M1") ∧
  get_machine_status busy_world.1 "M1"
    = last (history_of (status_data busy_world.1) "M1").
Proof.
  apply (latest_is_newest_history_item 2 busy_world.1 busy_world.2 "M1").
  - exists example_heap, busy_ops. unfold busy_world.
    by destruct (run busy_ops (init 2, example_heap)).
  - lia.
Defined.

(** ** Where the items of the store come from *)

Lemma elem_of_deque_append {A} (d : deque A) x y :
  y ∈ items (deque_append d x) → y ∈ items d ∨ y = x.
Proof.
  rewrite deque_append_items. case_decide.
  - rewrite elem_of_app, list_elem_of_singleton. tauto.
  - intros Hy. apply (subseteq_drop _ _ _) in Hy.
    rewrite elem_of_app, list_elem_of_singleton in Hy. tauto.
Qed.

Lemma elem_of_foldl_deque_append {A} (l : list A) (d : deque A) y :
  y ∈ items (foldl deque_append d l) → y ∈ items d ∨ y ∈ l.
Proof.
  revert d. induction l as [|x l IH]; intros d; simpl; [tauto|].
  intros Hy. destruct (IH _ Hy) as [Hd|Hl].
  - apply elem_of_deque_append in Hd as [? | ->]; [by left|right; left].
  - right. by right.
Qed.

Lemma elem_of_list_remove {A} (eqb : A → A → bool) v (l : list A) y :
  y ∈ list_remove eqb v l → y ∈ l.
Proof.
  induction l as [|x l IH]; simpl; [done|].
  destruct (eqb x v).
  - intros Hy. by right.
  - intros Hy. apply elem_of_cons in Hy as [-> | Hy]; [left|right; by apply IH].
Qed.

Lemma elem_of_ingest_active (h : heap) data (l : list ref) y :
  y ∈ ingest_active h data l →
  y ∈ l ∨ (y = data ∧ AlarmData.resolved (h data) = false).
Proof.
  unfold ingest_active. destruct (AlarmData.resolved (h data)); simpl.
  - intros Hy. apply list_elem_of_filter in Hy as [_ Hy]. by left.
  - rewrite elem_of_app, list_elem_of_singleton. intros [Hy | ->]; [left|by right].
    destruct (find_alarm h (AlarmData.alarm_id (h data)) l); [|done].
    by eapply elem_of_list_remove.
Qed.

Lemma elem_of_history_insert {A} (d : gmap string (deque A)) mid dq x m y :
  items dq = history_of d mid →
  y ∈ history_of (<[mid := deque_append dq x]> d) m →
  y ∈ history_of d m ∨ (y = x ∧ mid = m).
Proof.
  intros Hit. rewrite history_of_insert. case_decide as Hm; [|by left].
  subst m. intros Hy. apply elem_of_deque_append in Hy as [Hy | ->].
  - left. by rewrite <- Hit.
  - by right.
Qed.

Lemma elem_of_active_insert (aa : gmap string (list ref)) mid l m (y : ref) :
  y ∈ default [] (<[mid := l]> aa !! m) →
  (mid = m ∧ y ∈ l) ∨ (mid ≠ m ∧ y ∈ default [] (aa !! m)).
Proof.
  rewrite lookup_insert. case_decide; simpl; [by left|by right].
Qed.

(** What a returning operation leaves in the store was there before, or
    is the record the operation adds, filed under the record's machine. *)
Lemma exec_provenance n o st h st' h' :
  inv n (st, h) → exec o (st, h) = Ok (st', h') →
  (∀ m x, x ∈ history_of (process_data st') m →
     x ∈ history_of (process_data st) m
     ∨ (o = AddProcessData x ∧ ProcessData.machine_id x = m)) ∧
  (∀ m r, r ∈ history_of (alarm_data st') m →
     r ∈ history_of (alarm_data st) m
     ∨ (o = AddAlarmData r ∧ AlarmData.machine_id (h r) = m)) ∧
  (∀ m x, x ∈ history_of (status_data st') m →
     x ∈ history_of (status_data st) m
     ∨ (o = AddStatusData x ∧ StatusData.machine_id x = m)) ∧
  (∀ m x, x ∈ history_of (ml_alerts st') m →
     x ∈ history_of (ml_alerts st) m
     ∨ (o = AddMlAlert x ∧ MLAlert.machine_id x = m)) ∧
  (∀ m x, x ∈ history_of (commands st') m →
     x ∈ history_of (commands st) m
     ∨ (o = AddCommand x ∧ ControlCommand.machine_id x = m)) ∧
  (∀ m x, latest_process st' !! m = Some x →
     latest_process st !! m = Some x
     ∨ (o = AddProcessData x ∧ ProcessData.machine_id x = m)) ∧
  (∀ m x, latest_status st' !! m = Some x →
     latest_status st !! m = Some x
     ∨ (o = AddStatusData x ∧ StatusData.machine_id x = m)) ∧
  (∀ m r, r ∈ active_of st' m →
     r ∈ active_of st m
     ∨ (o = AddAlarmData r ∧ AlarmData.machine_id (h r) = m
        ∧ AlarmData.resolved (h r) = false)) ∧
  (∀ r, AlarmData.machine_id (h' r) = AlarmData.machine_id (h r)) ∧
  (∀ r, AlarmData.resolved (h' r) = AlarmData.resolved (h r)
        ∨ ∃ m a u now, o = ResolveAlarm m a u now
            ∧ find_alarm h a (active_of st m) = Some r
            ∧ active_of st' m
              = filter (λ x, AlarmData.alarm_id (h x) ≠ a) (active_of st m)).
Proof.
  intros Hi Hex.
  destruct (get_history_views st) as (G1 & G2 & G3 & G4).
  destruct o; simpl in Hex.
  - destruct (add_process_data st data) eqn:E; simpl in Hex; [|done].
    injection Hex as <- <-.
    apply add_process_data_Ok in E as (dq & Hit & _ & _ & ->). simpl.
    split_and!; auto.
    + intros m x Hx. apply elem_of_history_insert in Hx as [? | [-> ->]]; auto.
    + intros m x. rewrite lookup_insert. case_decide; [|auto].
      intros [= <-]. subst m. auto.
  - destruct (add_alarm_data st h data) eqn:E; simpl in Hex; [|done].
    injection Hex as <- <-.
    apply add_alarm_data_Ok in E
      as (_ & E2 & E3 & E4 & E5 & E6 & E7 & E8 & dq & Hg & E9).
    rewrite E2, E3, E4, E5, E6, E7. unfold active_of. rewrite E8, E9.
    split_and!; auto.
    + intros m x Hx. apply elem_of_history_insert in Hx as [? | [-> ->]]; auto.
      unfold defaultdict_getitem, history_factory, deque_new, history_of in *.
      destruct (alarm_data st !! AlarmData.machine_id (h data)); simpl in *.
      * by injection Hg as <-.
      * destruct (max_history_size st <? 0); simpl in Hg; [done|].
        by injection Hg as <-.
    + intros m r Hr. apply elem_of_active_insert in Hr as [[<- Hr] | [_ Hr]]; auto.
      apply elem_of_ingest_active in Hr as [? | [-> ?]]; auto.
  - destruct (add_status_data st data) eqn:E; simpl in Hex; [|done].
    injection Hex as <- <-.
    apply add_status_data_Ok in E as (dq & Hit & _ & _ & ->). simpl.
    split_and!; auto.
    + intros m x Hx. apply elem_of_history_insert in Hx as [? | [-> ->]]; auto.
    + intros m x. rewrite lookup_insert. case_decide; [|auto].
      intros [= <-]. subst m. auto.
  - destruct (add_ml_alert st alert) eqn:E; simpl in Hex; [|done].
    injection Hex as <- <-.
    apply add_ml_alert_Ok in E as (dq & Hit & ->). simpl.
    split_and!; auto.
    intros m x Hx. apply elem_of_history_insert in Hx as [? | [-> ->]]; auto.
  - destruct (add_command st command) eqn:E; simpl in Hex; [|done].
    injection Hex as <- <-.
    apply add_command_Ok in E as (dq & Hit & ->). simpl.
    split_and!; auto.
    intros m x Hx. apply elem_of_history_insert in Hx as [? | [-> ->]]; auto.
  - destruct (get_process_history st machine_id limit) eqn:E; simpl in Hex; [|done].
    injection Hex as <- <-. destruct (G1 _ _ _ E) as (d & -> & Hd). simpl.
    split_and!; auto. intros m x. rewrite Hd. auto.
  - injection Hex as <- <-.
    rewrite get_machine_alarms_vivified. unfold vivified.
    split_and!; auto; destruct (active_alarms st !! machine_id) eqn:El; auto.
    intros m r. unfold active_of. simpl. rewrite lookup_insert.
    case_decide; auto. set_solver.
  - destruct (get_alarm_history st machine_id limit) eqn:E; simpl in Hex; [|done].
    injection Hex as <- <-. destruct (G2 _ _ _ E) as (d & -> & Hd). simpl.
    split_and!; auto. intros m x. rewrite Hd. auto.
  - destruct (get_machine_ml_alerts st machine_id now) eqn:E; simpl in Hex; [|done].
    injection Hex as <- <-. destruct (G3 _ _ _ E) as (d & -> & Hd). simpl.
    split_and!; auto. intros m x. rewrite Hd. auto.
  - destruct (get_machine_details_touch st machine_id) eqn:E; simpl in Hex; [|done].
    injection Hex as <- <-. destruct (G4 _ _ E) as (d1 & d2 & -> & Hd1 & Hd2). simpl.
    split_and!; auto.
    + intros m x. rewrite Hd1. auto.
    + intros m x. rewrite Hd2. auto.
  - rewrite acknowledge_alarm_eq, get_machine_alarms_vivified in Hex.
    assert (∀ m r, r ∈ active_of (vivified st machine_id) m → r ∈ active_of st m)
      as Hv by (intros m r; by rewrite vivified_active_of).
    destruct (find_alarm h alarm_id (active_of st machine_id)) as [r0|];
      injection Hex as <- <-; split_and!; auto.
    + intros r. destruct (decide (r0 = r)) as [-> | Hne].
      * by rewrite fn_lookup_insert.
      * by rewrite fn_lookup_insert_ne.
    + intros r. left. destruct (decide (r0 = r)) as [-> | Hne].
      * by rewrite fn_lookup_insert.
      * by rewrite fn_lookup_insert_ne.
  - destruct Hi as (_ & _ & Hu).
    pose proof (resolve_alarm_spec st h machine_id alarm_id user_id now Hu)
      as [Hnone Hsome].
    pose proof (resolve_alarm_eq st h machine_id alarm_id user_id now) as Heq.
    destruct (resolve_alarm st h machine_id alarm_id user_id now)
      as [[b st1] h1]. injection Hex as -> ->. simpl in Hnone, Hsome.
    destruct (find_alarm h alarm_id (active_of st machine_id)) as [r0|] eqn:Hf.
    + destruct Hsome as (_ & _ & Hm & Ho).
      { intros Hnil. apply find_alarm_None in Hnil. congruence. }
      injection Heq as _ Hst Hh. subst h'.
      assert (∀ m r, r ∈ active_of st' m → r ∈ active_of st m) as Hsub.
      { intros m r. destruct (decide (m = machine_id)) as [-> | Hne].
        - rewrite Hm. intros Hr. by apply list_elem_of_filter in Hr as [_ ?].
        - by rewrite Ho. }
      assert (process_data st' = process_data st
              ∧ alarm_data st' = alarm_data st
              ∧ status_data st' = status_data st
              ∧ ml_alerts st' = ml_alerts st
              ∧ commands st' = commands st
              ∧ latest_process st' = latest_process st
              ∧ latest_status st' = latest_status st)
        as (-> & -> & -> & -> & -> & -> & ->) by by rewrite Hst.
      split_and!; auto.
      * intros r. destruct (decide (r0 = r)) as [-> | Hne].
        -- by rewrite fn_lookup_insert.
        -- by rewrite fn_lookup_insert_ne.
      * intros r. destruct (decide (r0 = r)) as [-> | Hne].
        -- right. by exists machine_id, alarm_id, user_id, now.
        -- left. by rewrite fn_lookup_insert_ne.
    + injection Heq as _ -> ->. rewrite get_machine_alarms_vivified.
      split_and!; auto. intros m r. rewrite vivified_active_of. auto.
  - destruct (cleanup_old_data st now max_age_hours) eqn:E; simpl in Hex; [|done].
    injection Hex as <- <-. unfold cleanup_old_data in E.
    case_bool_decide; [injection E as <-; split_and!; by auto|].
    destruct (deque_new (max_history_size st)) as [empty|] eqn:En;
      simpl in E; [|done].
    injection E as <-. simpl. split_and!; auto.
    intros m x. unfold history_of. rewrite lookup_fmap.
    destruct (ml_alerts st !! m) as [dq|]; simpl; [|by intros ?%elem_of_nil].
    unfold deque_of_list. rewrite En. simpl. intros Hx.
    apply elem_of_foldl_deque_append in Hx as [Hx | Hx].
    + unfold deque_new in En. destruct (max_history_size st <? 0); [done|].
      injection En as <-. simpl in Hx. by apply elem_of_nil in Hx.
    + left. by apply list_elem_of_filter in Hx as [_ ?].
Qed.

Lemma exec_keys_unresolved n o w w' :
  inv n w → keys_ok w ∧ active_unresolved w → exec o w = Ok w' →
  keys_ok w' ∧ active_unresolved w'.
Proof.
  destruct w as [st h], w' as [st' h'].
  intros Hi [(K1 & K2 & K3 & K4 & K5 & K6 & K7 & K8) Hun] Hex. simpl in *.
  destruct (exec_provenance n o st h st' h' Hi Hex)
    as (P1 & P2 & P3 & P4 & P5 & P6 & P7 & P8 & Pm & Pr).
  split; [split_and!; simpl|].
  - intros m x Hx. destruct (P1 m x Hx) as [? | [_ ?]]; auto.
  - intros m r Hr. rewrite Pm. destruct (P2 m r Hr) as [? | [_ ?]]; auto.
  - intros m x Hx. destruct (P3 m x Hx) as [? | [_ ?]]; auto.
  - intros m x Hx. destruct (P4 m x Hx) as [? | [_ ?]]; auto.
  - intros m x Hx. destruct (P5 m x Hx) as [? | [_ ?]]; auto.
  - intros m x Hx. destruct (P6 m x Hx) as [? | [_ ?]]; auto.
  - intros m x Hx. destruct (P7 m x Hx) as [? | [_ ?]]; auto.
  - intros m r Hr. rewrite Pm. destruct (P8 m r Hr) as [? | (_ & ? & _)]; auto.
  - intros m r Hr. simpl in *.
    destruct (Pr r) as [-> | (m0 & a & u & now & -> & Hf & Hact)].
    + destruct (P8 m r Hr) as [? | (_ & _ & ?)]; eauto.
    + exfalso. destruct (P8 m r Hr) as [Hold | [[=] _]].
      apply find_alarm_Some in Hf as (l1 & l2 & Hl & Hid & _).
      assert (r ∈ active_of st m0) as Hin by (rewrite Hl; set_solver).
      assert (m = m0) as -> by (by rewrite <- (K8 m r Hold), <- (K8 m0 r Hin)).
      rewrite Hact in Hr. by apply list_elem_of_filter in Hr as [? _].
Qed.

Lemma reachable_keys_unresolved n w :
  reachable n w → keys_ok w ∧ active_unresolved w.
Proof.
  refine (reachable_induction (λ w, keys_ok w ∧ active_unresolved w) n _ _ w).
  - intros h. split; [split_and!|]; simpl; intros m x;
      unfold history_of, active_of; simpl; rewrite ?lookup_empty; simpl;
      try (by intros ?%elem_of_nil); done.
  - intros o w0 w1 Hi Hp Hex. by eapply exec_keys_unresolved.
Qed.

Lemma busy_world_reachable : reachable 2 (busy_world.1, busy_world.2).
Proof.
  exists example_heap, busy_ops. unfold busy_world.
  by destruct (run busy_ops (init 2, example_heap)).
Qed.

(** X2.  Whatever operations were called on a store, every record it
    holds is filed under the machine the record names: the items of the
    five histories of machine [m] and its two latest values all carry
    [machine_id = m]. *)
Theorem records_filed_under_own_machine (n : Z) (st : DataStore) (h : heap)
    (m : string) :
  reachable n (st, h) →
  Forall (λ x, ProcessData.machine_id x = m) (history_of (process_data st) m) ∧
  Forall (λ r, AlarmData.machine_id (h r) = m) (history_of (alarm_data st) m) ∧
  Forall (λ x, StatusData.machine_id x = m) (history_of (status_data st) m) ∧
  Forall (λ x, MLAlert.machine_id x = m) (history_of (ml_alerts st) m) ∧
  Forall (λ x, ControlCommand.machine_id x = m) (history_of (commands st) m) ∧
  (∀ x, get_machine_process_data st m = Some x → ProcessData.machine_id x = m) ∧
  (∀ x, get_machine_status st m = Some x → StatusData.machine_id x = m).
Proof.
  intros Hr.
  destruct (reachable_keys_unresolved n _ Hr)
    as [(K1 & K2 & K3 & K4 & K5 & K6 & K7 & K8) _].
  simpl in *. rewrite !Forall_forall. split_and!; auto.
Qed.

Lemma records_filed_under_own_machine_witness :
  Forall (λ x, ProcessData.machine_id x = "M1")
    (history_of (process_data busy_world.1) "M1") ∧
  Forall (λ r, AlarmData.machine_id (busy_world.2 r) = "M1")
    (history_of (alarm_data busy_world.1) "M1") ∧
  Forall (λ x, StatusData.machine_id x = "M1")
    (history_of (status_data busy_world.1) "M1") ∧
  Forall (λ x, MLAlert.machine_id x = "M1")
    (history_of (ml_alerts busy_world.1) "M1") ∧
  Forall (λ x, ControlCommand.machine_id x = "M1")
    (history_of (commands busy_world.1) "M1") ∧
  (∀ x, get_machine_process_data busy_world.1 "M1" = Some x
        → ProcessData.machine_id x = "M1") ∧
  (∀ x, get_machine_status busy_world.1 "M1" = Some x
        → StatusData.machine_id x = "M1").
Proof.
  apply (records_filed_under_own_machine 2 busy_world.1 busy_world.2 "M1").
  exact busy_world_reachable.
Defined.

(** X3.  Whatever operations were called on a store, every alarm that
    [get_machine_alarms] returns for a machine is unresolved and belongs
    to that machine. *)
Theorem active_alarms_are_unresolved (n : Z) (st : DataStore) (h : heap)
    (machine_id : string) (r : ref) :
  reachable n (st, h) →
  r ∈ (get_machine_alarms st machine_id).1 →
  AlarmData.resolved (h r) = false ∧ AlarmData.machine_id (h r) = machine_id.
Proof.
  intros Hr Hin.
  destruct (reachable_keys_unresolved n _ Hr)
    as [(_ & _ & _ & _ & _ & _ & _ & K8) Hun].
  destruct (get_machine_alarms_spec st machine_id) as [Heq _].
  rewrite Heq in Hin. split; [by eapply Hun|by apply K8].
Qed.

Lemma active_alarms_are_unresolved_witness :
  AlarmData.resolved (busy_world.2 0%nat) = false
  ∧ AlarmData.machine_id (busy_world.2 0%nat) = "M1".
Proof.
  apply (active_alarms_are_unresolved 2 busy_world.1 busy_world.2 "M1" 0%nat).
  - exact busy_world_reachable.
  - vm_compute. left.
Defined.

(** ** The system status *)

Lemma status_counts_partition (l : list StatusData.t) :
  let count s := length (filter (λ x, StatusData.status x = s) l) in
  (count RUNNING + count IDLE + count MAINTENANCE + count ERROR
   + count OFFLINE = length l)%nat.
Proof.
  induction l as [|x l IH]; simpl; [done|].
  rewrite !filter_cons. simpl in IH.
  destruct (StatusData.status x); repeat case_decide; try done; simpl; lia.
Qed.

Lemma severity_counts_bound (h : heap) (l : list ref) :
  (length (filter (λ r, AlarmData.severity (h r) = CRITICAL) l)
   + length (filter (λ r, AlarmData.severity (h r) = WARNING) l)
   ≤ length l)%nat.
Proof.
  induction l as [|x l IH]; simpl; [done|].
  rewrite !filter_cons.
  destruct (AlarmData.severity (h x)); repeat case_decide; try done; simpl; lia.
Qed.

Lemma sum_list_length_concat {A} (ls : list (list A)) :
  sum_list (length <$> ls) = length (concat ls).
Proof.
  induction ls as [|l ls IH]; simpl; [done|]. rewrite length_app. by f_equal.
Qed.

(** X4.  In the status that [get_system_status] computes, the five
    per-state machine counts add up to [total_machines], and the critical
    and warning alarms together are at most [total_alarms]. *)
Theorem system_status_counts (st : DataStore) (h : heap) (now : datetime) :
  let s := get_system_status st h now in
  (SystemStatus.running_machines s + SystemStatus.idle_machines s
   + SystemStatus.maintenance_machines s + SystemStatus.error_machines s
   + SystemStatus.offline_machines s = SystemStatus.total_machines s)%nat ∧
  (SystemStatus.critical_alarms s + SystemStatus.warning_alarms s
   ≤ SystemStatus.total_alarms s)%nat.
Proof.
  unfold get_system_status. simpl. split.
  - rewrite status_counts_partition, length_fmap. apply length_map_to_list.
  - rewrite sum_list_length_concat. apply severity_counts_bound.
Qed.

(** ** The ML alerts *)

Lemma get_ml_alerts_lookup st now m :
  get_ml_alerts st now !! m
  = match filter (λ a, recent now a = true) (history_of (ml_alerts st) m) with
    | [] => None
    | l => Some l
    end.
Proof.
  unfold get_ml_alerts, history_of. rewrite lookup_omap.
  destruct (ml_alerts st !! m) as [dq|]; simpl; [|done].
  by destruct (filter _ (items dq)).
Qed.

(** X5.  [get_machine_ml_alerts] returns for a machine exactly what the
    dict of [get_ml_alerts] holds for it at the same time (the empty list
    when the machine is not a key), every alert returned is less than 24
    hours old, and the key that the call may create in [ml_alerts] does
    not show in [get_ml_alerts], which never holds an empty list. *)
Theorem ml_alert_views_agree (st st' : DataStore) (machine_id : string)
    (now : datetime) (alerts : list MLAlert.t) :
  get_machine_ml_alerts st machine_id now = Ok (alerts, st') →
  dict_get (get_ml_alerts st now) machine_id [] = alerts ∧
  Forall (λ a, now - MLAlert.timestamp a < timedelta_hours 24) alerts ∧
  get_ml_alerts st' now = get_ml_alerts st now ∧
  ∀ m l, get_ml_alerts st now !! m = Some l → l ≠ [].
Proof.
  intros Hget. unfold get_machine_ml_alerts in Hget. open_getitem Hget.
  injection Hget as <- <-.
  destruct (getitem_view _ _ _ _ _ Hg) as (Hit & Hv & _).
  split_and!.
  - unfold dict_get. rewrite get_ml_alerts_lookup, Hit.
    by destruct (filter _ (history_of (ml_alerts st) machine_id)).
  - apply Forall_forall. intros a Ha. apply list_elem_of_filter in Ha as [Ha _].
    unfold recent in Ha. apply bool_decide_eq_true in Ha. lia.
  - apply map_eq. intros m. rewrite !get_ml_alerts_lookup. simpl. by rewrite Hv.
  - intros m l. rewrite get_ml_alerts_lookup.
    destruct (filter _ (history_of (ml_alerts st) m)); [done|].
    by intros [= <-].
Qed.

Lemma ml_alert_views_agree_witness :
  dict_get (get_ml_alerts busy_world.1 7) "M1" []
    = [alert_M1 HIGH 5; alert_M1 LOW 6] ∧
  Forall (λ a, 7 - MLAlert.timestamp a < timedelta_hours 24)
    [alert_M1 HIGH 5; alert_M1 LOW 6] ∧
  get_ml_alerts busy_world.1 7 = get_ml_alerts busy_world.1 7 ∧
  ∀ m l, get_ml_alerts busy_world.1 7 !! m = Some l → l ≠ [].
Proof.
  apply (ml_alert_views_agree busy_world.1 busy_world.1 "M1" 7).
  vm_compute. reflexivity.
Defined.

Lemma foldl_deque_append_fits {A} (l : list A) (d : deque A) :
  (length (items d) + length l ≤ maxlen d)%nat →
  items (foldl deque_append d l) = items d ++ l.
Proof.
  revert d. induction l as [|x l IH]; intros d Hlen; simpl in *.
  - by rewrite app_nil_r.
  - rewrite IH.
    + rewrite deque_append_items. case_decide; [|lia]. by rewrite <- app_assoc.
    + rewrite deque_append_maxlen, deque_append_items.
      case_decide; [|lia]. rewrite length_app. simpl. lia.
Qed.

(** The deque that [cleanup_old_data] builds for a machine. *)
Lemma cleanup_old_data_view n st h now k :
  inv n (st, h) →
  ∃ st', cleanup_old_data st now k = Ok st' ∧
    st' = set_ml_alerts st (ml_alerts st') ∧
    dom (ml_alerts st') = dom (ml_alerts st) ∧
    ∀ m, history_of (ml_alerts st') m
         = filter (λ a, MLAlert.timestamp a > now - timedelta_hours k)
             (history_of (ml_alerts st) m).
Proof.
  intros (Hn & (_ & _ & _ & Hm & _) & _). simpl in *.
  unfold cleanup_old_data. case_bool_decide as He.
  { exists st. split_and!; [done|by destruct st|done|].
    intros m. unfold history_of. rewrite He, lookup_empty. done. }
  destruct (map_choose _ He) as (m0 & dq0 & H0).
  destruct (Hm m0 dq0 H0) as (Hpos & _ & _).
  unfold deque_of_list, deque_new. rewrite Hn in *.
  destruct (Z.ltb_spec n 0) as [|_]; [lia|]. simpl.
  eexists. split_and!; [done|done|simpl; apply dom_fmap_L|].
  intros m. simpl. unfold history_of. rewrite lookup_fmap.
  destruct (ml_alerts st !! m) as [dq|] eqn:Hl; simpl; [|done].
  destruct (Hm m dq Hl) as (_ & Hmax & Hlen).
  rewrite foldl_deque_append_fits; [done|]. simpl.
  pose proof (length_filter
    (λ a, MLAlert.timestamp a > now - timedelta_hours k) (items dq)). lia.
Qed.



(** X7.  A cleanup with a maximal age of 24 hours or more (24 is the
    default) removes nothing that [get_ml_alerts] shows at that time or
    later: the dict it returns is the same with and without the cleanup. *)
Theorem cleanup_preserves_recent_alerts (n : Z) (st st' : DataStore)
    (h : heap) (now later : datetime) (max_age_hours : Z) :
  reachable n (st, h) → 24 ≤ max_age_hours → now ≤ later →
  cleanup_old_data st now max_age_hours = Ok st' →
  get_ml_alerts st' later = get_ml_alerts st later.
Proof.
  intros Hr Hk Hlater Hcl.
  destruct (cleanup_old_data_view n st h now max_age_hours
              (reachable_inv _ _ Hr)) as (st1 & Hcl1 & _ & _ & Hv).
  rewrite Hcl in Hcl1. injection Hcl1 as <-.
  apply map_eq. intros m. rewrite !get_ml_alerts_lookup, Hv.
  rewrite list_filter_filter.
  replace (filter (λ a, recent later a = true
                        ∧ MLAlert.timestamp a
                          > now - timedelta_hours max_age_hours)
             (history_of (ml_alerts st) m))
    with (filter (λ a, recent later a = true) (history_of (ml_alerts st) m));
    [done|].
  apply list_filter_iff. intros a. unfold recent, timedelta_hours.
  rewrite bool_decide_eq_true. lia.
Qed.

Lemma cleanup_preserves_recent_alerts_witness :
  get_ml_alerts (run [CleanupOldData 6 24] busy_world).1 7
  = get_ml_alerts busy_world.1 7.
Proof.
  apply (cleanup_preserves_recent_alerts 2 busy_world.1
           (run [CleanupOldData 6 24] busy_world).1 busy_world.2 6 7 24).
  - exact busy_world_reachable.
  - lia.
  - lia.
  - vm_compute. reflexivity.
Defined.

(** ** The details and the overview of the machines *)










(** ** The active alarms and the capacity *)

Lemma alarm_history_length n st h m :
  inv n (st, h) → 0 ≤ n →
  (length (history_of (alarm_data st) m) ≤ Z.to_nat n)%nat.
Proof.
  intros (Hmax & (_ & Ha & _) & _) Hn. simpl in *. unfold history_of.
  destruct (alarm_data st !! m) as [dq|] eqn:Hl; simpl; [|lia].
  destruct (Ha m dq Hl) as (_ & Hm & Hlen). rewrite Hmax in Hm. lia.
Qed.

Lemma add_alarm_events_distinct n st h m events :
  inv n (st, h) → 0 ≤ n →
  Forall (λ e, AlarmData.machine_id (h e) = m
               ∧ AlarmData.resolved (h e) = false) events →
  NoDup (alarm_ids h (active_of st m ++ events)) →
  ∃ st', add_alarm_events st h events = Ok st' ∧
    active_of st' m = active_of st m ++ events ∧
    history_of (alarm_data st') m
    = lastn (Z.to_nat n) (history_of (alarm_data st) m ++ events).
Proof.
  intros Hi Hn Hev. revert st Hi.
  induction Hev as [|e events [Hm Hres] _ IH]; intros st Hi Hnd; simpl.
  { exists st. split_and!; [done|by rewrite app_nil_r|].
    rewrite app_nil_r, lastn_all; [done|]. by eapply alarm_history_length. }
  destruct (add_alarm_data_fifo n st h e Hi Hn) as (st1 & Hadd & Hf1 & _).
  rewrite Hadd; simpl.
  pose proof (add_alarm_data_inv n st h e st1 Hi Hadd) as Hi1.
  pose proof Hi as (_ & _ & Hu).
  assert (active_of st1 m = active_of st m ++ [e]) as Hact.
  { apply add_alarm_data_Ok in Hadd as (_ & _ & _ & _ & _ & _ & _ & E8 & _).
    unfold active_of at 1. rewrite E8, Hm, lookup_insert_eq. simpl.
    rewrite ingest_active_unique by apply (active_of_NoDup (st, h)), Hu.
    rewrite Hres. f_equal. apply filter_other_id_all, with_id_nil_Forall.
    apply Forall_forall. intros x Hx Heq.
    unfold alarm_ids in Hnd. rewrite fmap_app, fmap_cons in Hnd.
    apply NoDup_app in Hnd as (_ & Hdis & _).
    apply (Hdis (AlarmData.alarm_id (h x))).
    - apply list_elem_of_fmap. by exists x.
    - rewrite Heq. left. }
  destruct (IH st1 Hi1) as (st' & Hrun & Hact' & Hhist').
  { rewrite Hact, <- app_assoc. done. }
  exists st'. split_and!; [done| |].
  - rewrite Hact', Hact, <- app_assoc. done.
  - rewrite Hhist'. rewrite Hm in Hf1. rewrite Hf1.
    replace (if decide (Z.of_nat (length (history_of (alarm_data st) m)) < n)
             then history_of (alarm_data st) m ++ [e]
             else drop 1 (history_of (alarm_data st) m ++ [e]))
      with (lastn (Z.to_nat n) (history_of (alarm_data st) m ++ [e])).
    + rewrite lastn_lastn_app. by rewrite <- app_assoc.
    + rewrite <- lastn_snoc_fifo by by eapply alarm_history_length.
      destruct (decide (length (history_of (alarm_data st) m)
                        < Z.to_nat n)%nat); case_decide; try lia; done.
Qed.

(** X11.  The capacity bounds the alarm history but not the active
    alarms: when unresolved alarms of one machine with identifiers that
    are pairwise distinct, and distinct from those already active, are
    ingested, every one of them is added to the machine's active alarms,
    in order and with none dropped, while the alarm history keeps the last
    [max_history_size] items only. *)
Theorem active_alarms_outgrow_history (n : Z) (st : DataStore) (h : heap)
    (machine_id : string) (events : list ref) :
  reachable n (st, h) → 0 ≤ n →
  Forall (λ e, AlarmData.machine_id (h e) = machine_id
               ∧ AlarmData.resolved (h e) = false) events →
  NoDup (alarm_ids h ((get_machine_alarms st machine_id).1 ++ events)) →
  ∃ st', add_alarm_events st h events = Ok st' ∧
    (get_machine_alarms st' machine_id).1
      = (get_machine_alarms st machine_id).1 ++ events ∧
    history_of (alarm_data st') machine_id
      = lastn (Z.to_nat n) (history_of (alarm_data st) machine_id ++ events).
Proof.
  intros Hr Hn Hev Hnd.
  destruct (get_machine_alarms_spec st machine_id) as [Heq _].
  rewrite Heq in *.
  destruct (add_alarm_events_distinct n st h machine_id events
              (reachable_inv _ _ Hr) Hn Hev Hnd) as (st' & Hrun & Hact & Hhist).
  exists st'. split_and!; [done| |done].
  destruct (get_machine_alarms_spec st' machine_id) as [-> _]. done.
Qed.

Lemma active_alarms_outgrow_history_witness :
  ∃ st', add_alarm_events (init 1) numbered_heap [1; 2; 3]%nat = Ok st' ∧
    (get_machine_alarms st' "M1").1
      = (get_machine_alarms (init 1) "M1").1 ++ [1; 2; 3]%nat ∧
    history_of (alarm_data st') "M1"
      = lastn (Z.to_nat 1) (history_of (alarm_data (init 1)) "M1"
                            ++ [1; 2; 3]%nat).
Proof.
  apply (active_alarms_outgrow_history 1 (init 1) numbered_heap "M1"
           [1; 2; 3]%nat).
  - by exists numbered_heap, [].
  - lia.
  - repeat constructor.
  - apply (bool_decide_unpack _). by vm_compute.
Defined.

(** ** The registry of the WebSocket manager *)

Lemma filter_all {A} (P : A → Prop) `{∀ x, Decision (P x)} (l : list A) :
  Forall P l → filter P l = l.
Proof.
  induction 1 as [|x l Hx _ IH]; [done|].
  rewrite filter_cons, decide_True by done. by rewrite IH.
Qed.

Lemma list_remove_NoDup (c : nat) (l : list nat) :
  NoDup l → c ∈ l → list_remove WS.ws_eqb c l = filter (λ x, x ≠ c) l.
Proof.
  induction l as [|x l IH]; intros Hnd Hin; [by apply elem_of_nil in Hin|].
  apply NoDup_cons in Hnd as [Hx Hnd]. simpl. unfold WS.ws_eqb at 1.
  rewrite filter_cons. case_bool_decide as Hxc.
  - subst x. rewrite decide_False by (intros Hn; by apply Hn).
    symmetry. apply filter_all, Forall_forall.
    intros y Hy ->. done.
  - rewrite decide_True by done. f_equal. apply IH; [done|].
    apply elem_of_cons in Hin as [-> | Hin]; done.
Qed.

Lemma filter_absent (c : nat) (l : list nat) :
  c ∉ l → filter (λ x, x ≠ c) l = l.
Proof.
  intros Hc. apply filter_all, Forall_forall. intros y Hy ->. done.
Qed.

Lemma disconnect_spec (self : WS.WebSocketManager) (c : nat) :
  NoDup (WS.active_connections self) →
  WS.disconnect self c
  = WS.mk_manager (filter (λ x, x ≠ c) (WS.active_connections self))
      (delete c (WS.connection_info self)).
Proof.
  intros Hnd. unfold WS.disconnect. f_equal. case_bool_decide.
  - by apply list_remove_NoDup.
  - by rewrite filter_absent.
Qed.

Lemma disconnect_registry_ok (self : WS.WebSocketManager) (c : nat) :
  registry_ok self → registry_ok (WS.disconnect self c).
Proof.
  intros [Hnd Hdom]. rewrite disconnect_spec by done. split; simpl.
  - by apply NoDup_filter.
  - intros x. rewrite list_elem_of_filter, Hdom.
    destruct (decide (x = c)) as [-> | Hne].
    + rewrite lookup_delete_eq. split; [by intros [? _]|by intros [? ?]].
    + rewrite lookup_delete_ne by done. tauto.
Qed.

(** X12.  [disconnect] on a manager whose two containers agree: the
    connection is gone from both, every other connection stays where it
    was, the containers still agree, and a second [disconnect] of the same
    connection (or one of a connection that is not registered) changes
    nothing. *)
Theorem disconnect_unregisters (self : WS.WebSocketManager) (websocket : nat) :
  registry_ok self →
  let self' := WS.disconnect self websocket in
  registry_ok self' ∧
  WS.active_connections self'
    = filter (λ c, c ≠ websocket) (WS.active_connections self) ∧
  WS.connection_info self' = delete websocket (WS.connection_info self) ∧
  WS.disconnect self' websocket = self' ∧
  (websocket ∉ WS.active_connections self → self' = self).
Proof.
  intros Hok self'. subst self'.
  pose proof (disconnect_registry_ok self websocket Hok) as Hok'.
  destruct Hok as [Hnd Hdom].
  split_and!; [done|by rewrite disconnect_spec|done| |].
  - rewrite (disconnect_spec (WS.disconnect self websocket))
      by apply Hok'.
    rewrite disconnect_spec by done. simpl. f_equal.
    + rewrite list_filter_filter. apply list_filter_iff. tauto.
    + apply delete_delete_eq.
  - intros Hnot. rewrite disconnect_spec by done. destruct self as [l i].
    simpl in *. f_equal; [by apply filter_absent|].
    apply delete_id. destruct (i !! websocket) eqn:Hl; [|done].
    exfalso. apply Hnot, Hdom. by eexists.
Qed.

Lemma three_registered_ok : registry_ok three_registered.
Proof.
  split.
  - apply (bool_decide_unpack _). by vm_compute.
  - intros c. rewrite <- elem_of_dom.
    rewrite <- (elem_of_list_to_set (C := gset nat)).
    replace (dom (WS.connection_info three_registered))
      with (list_to_set (C := gset nat) (WS.active_connections three_registered));
      [done|].
    apply (bool_decide_unpack _). by vm_compute.
Qed.

Lemma disconnect_unregisters_witness :
  let self' := WS.disconnect three_registered 2%nat in
  registry_ok self' ∧
  WS.active_connections self'
    = filter (λ c, c ≠ 2%nat) (WS.active_connections three_registered) ∧
  WS.connection_info self' = delete 2%nat (WS.connection_info three_registered) ∧
  WS.disconnect self' 2%nat = self' ∧
  (2%nat ∉ WS.active_connections three_registered → self' = three_registered).
Proof.
  apply (disconnect_unregisters three_registered 2%nat).
  exact three_registered_ok.
Defined.

(** X13.  [connect] of a connection that is not registered yet.  When
    [accept] raises, so does [connect].  When the welcome message is
    delivered, the connection is registered last, with both its times set
    to the time of the call, and has received the message.  When the
    welcome message cannot be delivered, [connect] returns normally and
    the connection is not registered: the manager is as it was. *)
Theorem connect_outcome (json_dumps : gmap string string → result string)
    (accept : nat → result unit) (send_text : nat → string → result unit)
    (self : WS.WebSocketManager) (out : list (nat * string))
    (websocket : nat) (now : datetime) :
  registry_ok self → websocket ∉ WS.active_connections self →
  match accept websocket with
  | Raise e =>
      WS.connect json_dumps accept send_text self out websocket now = Raise e
  | Ok _ =>
      if WS.delivers json_dumps send_text
           (WS.welcome_message websocket now) websocket
      then
        ∃ text self',
          json_dumps (WS.welcome_message websocket now) = Ok text ∧
          WS.connect json_dumps accept send_text self out websocket now
            = Ok (self', out ++ [(websocket, text)]) ∧
          WS.active_connections self'
            = WS.active_connections self ++ [websocket] ∧
          WS.connection_info self'
            = <[websocket := WS.mk_info now now]> (WS.connection_info self) ∧
          registry_ok self'
      else
        WS.connect json_dumps accept send_text self out websocket now
          = Ok (self, out)
  end.
Proof.
  intros [Hnd Hdom] Hnew. unfold WS.connect.
  destruct (accept websocket) as [[]|e]; simpl; [|done].
  unfold WS.delivers, WS.send_personal_message, WS.try_except.
  assert (WS.connection_info self !! websocket = None) as Hnone.
  { destruct (WS.connection_info self !! websocket) eqn:Hl; [|done].
    exfalso. apply Hnew, Hdom. by eexists. }
  assert (NoDup (WS.active_connections self ++ [websocket])) as Hnd'.
  { apply NoDup_app. split_and!; [done| |apply NoDup_singleton].
    intros x Hx ->%list_elem_of_singleton. done. }
  assert (WS.disconnect
            (WS.mk_manager (WS.active_connections self ++ [websocket])
               (<[websocket := WS.mk_info now now]> (WS.connection_info self)))
            websocket = self) as Hback.
  { rewrite disconnect_spec by done. simpl. destruct self as [l i]. simpl in *.
    f_equal.
    - rewrite filter_app, filter_absent by done.
      rewrite filter_cons, decide_False by (intros Hn; by apply Hn).
      by rewrite filter_nil, app_nil_r.
    - rewrite delete_insert_eq. by apply delete_id. }
  destruct (json_dumps (WS.welcome_message websocket now)) as [text|e];
    simpl; [|by rewrite Hback].
  destruct (send_text websocket text) as [[]|e]; simpl; [|by rewrite Hback].
  eexists text, _. split_and!; [done|done|done|done|].
  split; simpl; [done|]. intros c.
  rewrite elem_of_app, list_elem_of_singleton, Hdom.
  destruct (decide (c = websocket)) as [-> | Hne].
  - rewrite lookup_insert_eq. split; [by eexists|by right].
  - rewrite lookup_insert_ne by done. split; [intros [? | ?]; done|by left].
Qed.

Lemma connect_outcome_witness :
  ∃ text self',
    WS.dumps_ok (WS.welcome_message 4%nat 9) = Ok text ∧
    WS.connect WS.dumps_ok WS.accept_ok (WS.send_unless_closed false)
      three_registered [] 4%nat 9
      = Ok (self', [] ++ [(4%nat, text)]) ∧
    WS.active_connections self'
      = WS.active_connections three_registered ++ [4%nat] ∧
    WS.connection_info self'
      = <[4%nat := WS.mk_info 9 9]> (WS.connection_info three_registered) ∧
    registry_ok self'.
Proof.
  apply (connect_outcome WS.dumps_ok WS.accept_ok (WS.send_unless_closed false)
           three_registered [] 4%nat 9).
  - exact three_registered_ok.
  - vm_compute. intros Hin. repeat (apply elem_of_cons in Hin as [[=] | Hin]).
    by apply elem_of_nil in Hin.
Defined.

Lemma disconnect_all_spec (rs : list nat) (self : WS.WebSocketManager) :
  registry_ok self →
  registry_ok (foldl WS.disconnect self rs) ∧
  WS.active_connections (foldl WS.disconnect self rs)
    = filter (λ c, c ∉ rs) (WS.active_connections self).
Proof.
  revert self. induction rs as [|r rs IH]; intros self Hok; simpl.
  { split; [done|]. symmetry. apply filter_all, Forall_forall.
    intros x _. apply not_elem_of_nil. }
  destruct (IH (WS.disconnect self r) (disconnect_registry_ok self r Hok))
    as [Hok' ->].
  split; [done|]. rewrite disconnect_spec by apply Hok. simpl.
  rewrite list_filter_filter. apply list_filter_iff. intros x.
  rewrite not_elem_of_cons. tauto.
Qed.

Lemma cleanup_stale_fold (close : nat → result unit) (rs : list nat)
    (self : WS.WebSocketManager) (closed : list nat) :
  foldl (λ s websocket,
           (WS.disconnect s.1 websocket,
            match close websocket with
            | Ok _ => s.2 ++ [websocket]
            | Raise _ => s.2
            end)) (self, closed) rs
  = (foldl WS.disconnect self rs,
     closed ++ filter (λ c, is_Ok (close c) = true) rs).
Proof.
  revert self closed. induction rs as [|r rs IH]; intros self closed; simpl.
  { by rewrite app_nil_r. }
  rewrite IH. f_equal. rewrite filter_cons.
  destruct (close r) as [[]|e]; simpl; repeat case_decide; try done.
  by rewrite <- app_assoc.
Qed.

Lemma elem_of_stale_connections idle_longer self now k c :
  c ∈ stale_connections idle_longer self now k
  ↔ ∃ i, WS.connection_info self !! c = Some i
         ∧ idle_longer now (WS.last_ping i) k = true.
Proof.
  unfold stale_connections. rewrite list_elem_of_fmap. split.
  - intros ([c' i] & -> & Hin). apply list_elem_of_filter in Hin as [Hst Hin].
    apply elem_of_map_to_list in Hin. by exists i.
  - intros (i & Hl & Hst). exists (c, i). split; [done|].
    apply list_elem_of_filter. split; [done|]. by apply elem_of_map_to_list.
Qed.

(** X14.  [cleanup_stale_connections] on a manager whose two containers
    agree: exactly the connections that the idle test selects are removed
    from both containers, whether their [close()] raises or not; the
    others stay, in their order and with their times; the containers
    still agree.  [close()] has returned for the selected connections on
    which it does not raise, and for no other. *)
Theorem cleanup_removes_stale (close : nat → result unit)
    (idle_longer : datetime → datetime → Z → bool)
    (self : WS.WebSocketManager) (closed : list nat) (now : datetime)
    (max_idle_minutes : Z) :
  registry_ok self →
  let stale c :=
    ∃ i, WS.connection_info self !! c = Some i
         ∧ idle_longer now (WS.last_ping i) max_idle_minutes = true in
  let res :=
    cleanup_stale_connections close idle_longer self closed now
      max_idle_minutes in
  registry_ok res.1 ∧
  (∀ c, c ∈ WS.active_connections res.1
        ↔ c ∈ WS.active_connections self ∧ ¬ stale c) ∧
  WS.active_connections res.1
    = filter (λ c, c ∉ stale_connections idle_longer self now max_idle_minutes)
        (WS.active_connections self) ∧
  (∀ c, WS.connection_info res.1 !! c
        = match WS.connection_info self !! c with
          | Some i =>
              if idle_longer now (WS.last_ping i) max_idle_minutes then None
              else Some i
          | None => None
          end) ∧
  (∀ c, c ∈ res.2 ↔ c ∈ closed ∨ (stale c ∧ is_Ok (close c) = true)).
Proof.
  intros Hok stale res. subst res. unfold cleanup_stale_connections.
  rewrite cleanup_stale_fold. simpl.
  destruct (disconnect_all_spec
              (stale_connections idle_longer self now max_idle_minutes)
              self Hok) as [Hok' Hact].
  split_and!; [done| |done| |].
  - intros c. rewrite Hact, list_elem_of_filter, elem_of_stale_connections.
    subst stale. simpl. tauto.
  - intros c. rewrite disconnect_all_info. case_decide as Hst.
    + apply elem_of_stale_connections in Hst as (i & -> & ->). done.
    + destruct (WS.connection_info self !! c) as [i|] eqn:Hl; [|done].
      destruct (idle_longer now (WS.last_ping i) max_idle_minutes) eqn:Hi;
        [|done].
      exfalso. apply Hst, elem_of_stale_connections. by exists i.
  - intros c. rewrite elem_of_app, list_elem_of_filter,
      elem_of_stale_connections. subst stale. simpl. tauto.
Qed.

Lemma cleanup_removes_stale_witness :
  let stale c :=
    ∃ i, WS.connection_info three_registered !! c = Some i
         ∧ idle_minutes_exceed 1800000010 (WS.last_ping i) 30 = true in
  let res :=
    cleanup_stale_connections (λ c, if bool_decide (c = 1%nat)
                                    then Raise SendFailure else Ok tt)
      idle_minutes_exceed three_registered [] 1800000010 30 in
  registry_ok res.1 ∧
  (∀ c, c ∈ WS.active_connections res.1
        ↔ c ∈ WS.active_connections three_registered ∧ ¬ stale c) ∧
  WS.active_connections res.1
    = filter (λ c, c ∉ stale_connections idle_minutes_exceed three_registered
                         1800000010 30)
        (WS.active_connections three_registered) ∧
  (∀ c, WS.connection_info res.1 !! c
        = match WS.connection_info three_registered !! c with
          | Some i =>
              if idle_minutes_exceed 1800000010 (WS.last_ping i) 30 then None
              else Some i
          | None => None
          end) ∧
  (∀ c, c ∈ res.2
        ↔ c ∈ [] ∨ (stale c ∧ is_Ok (if bool_decide (c = 1%nat)
                                     then Raise SendFailure else Ok tt)
                              = true)).
Proof.
  apply (cleanup_removes_stale
           (λ c, if bool_decide (c = 1%nat) then Raise SendFailure else Ok tt)
           idle_minutes_exceed three_registered [] 1800000010 30).
  exact three_registered_ok.
Defined.

(** The run of the example: connections 1 and 3 are stale and removed,
    connection 2 stays; [close()] has raised on connection 1. *)
Example cleanup_stale_three :
  let res :=
    cleanup_stale_connections (λ c, if bool_decide (c = 1%nat)
                                    then Raise SendFailure else Ok tt)
      idle_minutes_exceed three_registered [] 1800000010 30 in
  WS.active_connections res.1 = [2%nat] ∧ res.2 = [3%nat].
Proof. by vm_compute. Qed.

(** ** Acknowledge, then resolve: the archived record *)

Lemma add_alarm_data_Ok_capacity n st h x st' :
  inv n (st, h) → add_alarm_data st h x = Ok st' → 0 ≤ n.
Proof.
  intros (Hmax & (_ & Ha & _) & _) Hadd. simpl in *.
  apply add_alarm_data_Ok in Hadd
    as (_ & _ & _ & _ & _ & _ & _ & _ & dq & Hg & _).
  destruct (alarm_data st !! AlarmData.machine_id (h x)) as [dq0|] eqn:Hl.
  - destruct (Ha _ _ Hl) as (Hn & _). lia.
  - apply getitem_view in Hg as (_ & _ & _ & Hn & _).
    destruct (Hn Hl) as [Hpos _]. lia.
Qed.

(** Only [add_alarm_data] changes an alarm history. *)
Lemma exec_alarm_history o st h st' h' :
  exec o (st, h) = Ok (st', h') →
  (∃ r, o = AddAlarmData r) ∨
  ∀ m, history_of (alarm_data st') m = history_of (alarm_data st) m.
Proof.
  intros Hex.
  destruct (get_history_views st) as (G1 & G2 & G3 & G4).
  destruct o; simpl in Hex; [|by left; eexists|..]; right.
  - destruct (add_process_data st data) eqn:E; simpl in Hex; [|done].
    injection Hex as <- <-.
    by apply add_process_data_Ok in E as (dq & _ & _ & _ & ->).
  - destruct (add_status_data st data) eqn:E; simpl in Hex; [|done].
    injection Hex as <- <-.
    by apply add_status_data_Ok in E as (dq & _ & _ & _ & ->).
  - destruct (add_ml_alert st alert) eqn:E; simpl in Hex; [|done].
    injection Hex as <- <-. by apply add_ml_alert_Ok in E as (dq & _ & ->).
  - destruct (add_command st command) eqn:E; simpl in Hex; [|done].
    injection Hex as <- <-. by apply add_command_Ok in E as (dq & _ & ->).
  - destruct (get_process_history st machine_id limit) eqn:E; simpl in Hex; [|done].
    injection Hex as <- <-. by destruct (G1 _ _ _ E) as (d & -> & _).
  - injection Hex as <- <-. by rewrite get_machine_alarms_vivified.
  - destruct (get_alarm_history st machine_id limit) eqn:E; simpl in Hex; [|done].
    injection Hex as <- <-. by destruct (G2 _ _ _ E) as (d & -> & Hd).
  - destruct (get_machine_ml_alerts st machine_id now) eqn:E; simpl in Hex; [|done].
    injection Hex as <- <-. by destruct (G3 _ _ _ E) as (d & -> & _).
  - destruct (get_machine_details_touch st machine_id) eqn:E; simpl in Hex; [|done].
    injection Hex as <- <-. by destruct (G4 _ _ E) as (d1 & d2 & -> & Hd & _).
  - destruct (resolve_alarm_history st h machine_id alarm_id user_id now)
      as [_ Heq].
    destruct (acknowledge_alarm st h machine_id alarm_id user_id now)
      as [[b st1] h1]. injection Hex as <- <-. simpl in Heq. by rewrite Heq.
  - destruct (resolve_alarm_history st h machine_id alarm_id user_id now)
      as [Heq _].
    destruct (resolve_alarm st h machine_id alarm_id user_id now)
      as [[b st1] h1]. injection Hex as <- <-. simpl in Heq. by rewrite Heq.
  - destruct (cleanup_old_data st now max_age_hours) eqn:E; simpl in Hex; [|done].
    injection Hex as <- <-. unfold cleanup_old_data in E.
    case_bool_decide; [by injection E as <-|].
    destruct (deque_new (max_history_size st)); simpl in E; [|done].
    by injection E as <-.
Qed.

Lemma exec_active_archived n o w w' :
  inv n w → active_archived n w → exec o w = Ok w' → active_archived n w'.
Proof.
  destruct w as [st h], w' as [st' h']. intros Hi Harch Hex m r. simpl.
  destruct (exec_provenance n o st h st' h' Hi Hex)
    as (_ & _ & _ & _ & _ & _ & _ & P8 & _).
  destruct (exec_alarm_history o st h st' h' Hex) as [[x ->] | Hsame].
  - simpl in Hex.
    destruct (add_alarm_data st h x) as [st1|] eqn:Hadd; simpl in Hex; [|done].
    injection Hex as <- <-.
    pose proof (add_alarm_data_Ok_capacity n st h x st1 Hi Hadd) as Hn.
    destruct (add_alarm_data_fifo n st h x Hi Hn) as (st2 & Hadd2 & Hf1 & Hf2).
    rewrite Hadd in Hadd2. injection Hadd2 as <-.
    destruct (decide (m = AlarmData.machine_id (h x))) as [-> | Hne].
    + rewrite Hf1. case_decide as Hroom.
      * intros _ Hr. apply elem_of_app.
        destruct (P8 _ r Hr) as [Hold | ([= <-] & _)].
        -- left. apply (Harch _ r); [simpl; lia|done].
        -- right. left.
      * rewrite length_drop, length_app. simpl. lia.
    + rewrite Hf2 by done. intros Hlen Hr.
      destruct (P8 m r Hr) as [Hold | ([= Hxr] & Hm & _)]; [|congruence].
      by apply (Harch m r).
  - rewrite Hsame. intros Hlen Hr.
    destruct (P8 m r Hr) as [Hold | (Ho & Hm & Hres)]; [by apply (Harch m r)|].
    subst o. simpl in Hex.
    destruct (add_alarm_data st h r) as [st1|] eqn:Hadd; simpl in Hex; [|done].
    injection Hex as <- <-.
    pose proof (add_alarm_data_Ok_capacity n st h r st1 Hi Hadd) as Hn.
    destruct (add_alarm_data_fifo n st h r Hi Hn) as (st2 & Hadd2 & Hf1 & _).
    rewrite Hadd in Hadd2. injection Hadd2 as <-.
    rewrite Hm, Hsame in Hf1. case_decide as Hroom.
    + apply (f_equal length) in Hf1. rewrite length_app in Hf1. simpl in Hf1. lia.
    + lia.
Qed.

Lemma reachable_active_archived n w : reachable n w → active_archived n w.
Proof.
  refine (reachable_induction (active_archived n) n _ _ w).
  - intros h m r _. unfold active_of. simpl. rewrite lookup_empty.
    by intros ?%elem_of_nil.
  - intros o w0 w1 Hi Hp Hex. by eapply exec_active_archived.
Qed.

(** C7, the claim as stated fails: in a store of capacity 1 that has
    ingested the alarms "0" and "1" of machine M1, alarm "0" is active,
    and [acknowledge_alarm] followed by [resolve_alarm] removes it from
    the active alarms; but the alarm history of M1, which holds the record
    of alarm "1" only, holds no record of alarm "0", before or after. *)
Lemma evicted_alarm_has_no_archived_record :
  reachable 1 overflowed_world ∧
  with_id overflowed_world.2 "0" (active_of overflowed_world.1 "M1")
    = [0%nat] ∧
  ¬ archived_record_retains overflowed_world.1 overflowed_world.2
      "M1" "0" "op1" 10 20.
Proof.
  split_and!.
  - by exists numbered_heap, [AddAlarmData 0%nat; AddAlarmData 1%nat].
  - by vm_compute.
  - intros [_ (r & Hin & Hid & _)].
    assert (history_of
              (alarm_data
                 (resolve_alarm
                    (acknowledge_alarm overflowed_world.1 overflowed_world.2
                       "M1" "0" "op1" 10).1.2
                    (acknowledge_alarm overflowed_world.1 overflowed_world.2
                       "M1" "0" "op1" 10).2 "M1" "0" "op1" 20).1.2) "M1"
            = [1%nat]) as Hhist by by vm_compute.
    cbv zeta in Hin. rewrite Hhist in Hin.
    apply list_elem_of_singleton in Hin. subst r.
    revert Hid. by vm_compute.
Qed.

(** C7, amended.  In a reachable world where [r] is the active alarm of
    machine [m] with identifier [a], [acknowledge_alarm(m, a, actor)]
    followed by [resolve_alarm(m, a, actor)] both return true; afterwards
    no active alarm of [m] has that identifier and [r] is not in the
    active list; the object [r] carries acknowledged_by = actor and
    acknowledged_at of the first call, resolved_at of the second call and
    both flags set, its other fields being as before.  The alarm history
    of every machine holds the same objects as before, so it holds [r],
    the record that shows these values, exactly if it held it before; it
    does whenever the history of [m] holds fewer than [max_history_size]
    items.  (Once the history is full, the record of an active alarm may
    have been evicted.) *)
Theorem acknowledge_then_resolve (n : Z) (st : DataStore) (h : heap)
    (m a actor : string) (t1 t2 : datetime) (r : ref) :
  reachable n (st, h) →
  head (with_id h a (active_of st m)) = Some r →
  let w1 := acknowledge_alarm st h m a actor t1 in
  let w2 := resolve_alarm w1.1.2 w1.2 m a actor t2 in
  w1.1.1 = true ∧ w2.1.1 = true ∧
  with_id w2.2 a (active_of w2.1.2 m) = [] ∧
  (r ∉ active_of w2.1.2 m) ∧
  alarm_data w2.1.2 = alarm_data st ∧
  (r ∈ history_of (alarm_data w2.1.2) m ↔ r ∈ history_of (alarm_data st) m) ∧
  ((length (history_of (alarm_data st) m) < Z.to_nat n)%nat →
   r ∈ history_of (alarm_data w2.1.2) m) ∧
  (w2.2) r = AlarmData.set_resolution
               (AlarmData.set_acknowledgment (h r) actor t1) t2 ∧
  AlarmData.acknowledged_by (w2.2 r) = Some actor ∧
  AlarmData.resolved_at (w2.2 r) = Some t2.
Proof.
  intros Hr Hhead w1 w2.
  destruct (acknowledge_then_resolve_object n st h m a actor t1 t2 r Hr Hhead)
    as (H1 & H2 & H3 & H4 & H5 & _ & H7 & H8 & H9).
  fold w1 in H1, H2, H3, H4, H5, H7, H8, H9.
  fold w2 in H2, H3, H4, H5, H7, H8, H9.
  split_and!; try done.
  - by rewrite H5.
  - intros Hlen. rewrite H5.
    apply (reachable_active_archived n (st, h) Hr m r Hlen).
    apply head_Some_elem_of in Hhead.
    by apply list_elem_of_filter in Hhead as [_ ?].
Qed.

Lemma acknowledge_then_resolve_witness :
  let w1 := acknowledge_alarm example_store example_heap "M1" "A1" "op1" 10 in
  let w2 := resolve_alarm w1.1.2 w1.2 "M1" "A1" "op1" 20 in
  w1.1.1 = true ∧ w2.1.1 = true ∧
  with_id w2.2 "A1" (active_of w2.1.2 "M1") = [] ∧
  (0%nat ∉ active_of w2.1.2 "M1") ∧
  alarm_data w2.1.2 = alarm_data example_store ∧
  (0%nat ∈ history_of (alarm_data w2.1.2) "M1"
   ↔ 0%nat ∈ history_of (alarm_data example_store) "M1") ∧
  ((length (history_of (alarm_data example_store) "M1") < Z.to_nat 1000)%nat →
   0%nat ∈ history_of (alarm_data w2.1.2) "M1") ∧
  (w2.2) 0%nat = AlarmData.set_resolution
                   (AlarmData.set_acknowledgment (example_heap 0%nat) "op1" 10) 20 ∧
  AlarmData.acknowledged_by (w2.2 0%nat) = Some "op1" ∧
  AlarmData.resolved_at (w2.2 0%nat) = Some 20.
Proof.
  apply (acknowledge_then_resolve 1000 example_store example_heap
           "M1" "A1" "op1" 10 20 0%nat).
  - exists example_heap, [AddAlarmData 0%nat]. reflexivity.
  - reflexivity.
Defined.
